(** * Community: task/partner preference engines

    A shallow embedding of the preference modules of the Community
    repository ([teams/team_3/preferences.py], the heuristic ranker,
    [teams/team_6/preferences.py], the optimal-assignment solver, and
    [teams/team_9/preferences.py], the energy-preserving ranker), with
    the properties of their cost model, guards, greedy selection and
    matching step.

    Conventions of the embedding.
    - Python numbers are exact rationals ([Q]); the literals [0.25],
      [0.5], [0.6], [0.7] and [1.5] denote the corresponding fractions.
    - A Python call either returns or raises: [result A] is [Normal a] or
      [Raise e].  List indexing out of range raises [IndexError], a
      division by zero raises [ZeroDivisionError].
    - The random source handed to the entry points is a state [G] with a
      [shuffle] operation; its only contract is that it permutes. *)

From Stdlib Require Import List QArith Qminmax Qabs Lqa Lia Permutation Arith Bool.
From Stdlib Require Import Sorted.
Import ListNotations.

(* ================================================================== *)
(** ** Python runtime fragment *)
(* ================================================================== *)

Module Py.

Inductive exn : Type :=
| ZeroDivisionError
| IndexError
| ValueError.

Inductive result (A : Type) : Type :=
| Normal (a : A)
| Raise (e : exn).

Arguments Normal {A} a.
Arguments Raise {A} e.

Definition ret {A : Type} (a : A) : result A := Normal a.

Definition bind {A B : Type} (c : result A) (k : A -> result B) : result B :=
  match c with
  | Normal a => k a
  | Raise e => Raise e
  end.

(** [try: c  except Exception: handler] *)
Definition try_except {A : Type} (c : result A) (handler : A) : A :=
  match c with
  | Normal a => a
  | Raise _ => handler
  end.

(** [l[i]] for a non-negative index. *)
Definition getitem {A : Type} (l : list A) (i : nat) : result A :=
  match nth_error l i with
  | Some x => Normal x
  | None => Raise IndexError
  end.

(** [a / b] *)
Definition truediv (a b : Q) : result Q :=
  if Qeq_bool b 0 then Raise ZeroDivisionError else Normal (a / b).

(** [x < y] and [x <= y] as tests. *)
Definition ltb (x y : Q) : bool := negb (Qle_bool y x).
Definition leb (x y : Q) : bool := Qle_bool x y.

(** [len(l)] as a number. *)
Definition len {A : Type} (l : list A) : Q := inject_Z (Z.of_nat (length l)).

(** [range(n)] *)
Definition range (n : nat) : list nat := seq 0 n.

(** [range(start, stop, step)] for [step >= 1], unrolled at most [fuel]
    times: [i = start; while i < stop: yield i; i += step]. *)
Fixpoint range_from (fuel i stop step : nat) : list nat :=
  match fuel with
  | O => []
  | S fuel' =>
      if i <? stop then i :: range_from fuel' (i + step) stop step else []
  end.

Definition range_step (stop step : nat) : list nat :=
  range_from stop 0 stop step.

(** A comprehension [[f x for x in xs]] whose body may raise: elements are
    produced left to right and the first exception escapes. *)
Fixpoint mapM {A B : Type} (f : A -> result B) (xs : list A) : result (list B) :=
  match xs with
  | [] => Normal []
  | x :: xs' =>
      bind (f x) (fun y => bind (mapM f xs') (fun ys => Normal (y :: ys)))
  end.

(** [sum(xs)]: the accumulator starts at [0] and adds from the left. *)
Definition sum (xs : list Q) : Q := fold_left Qplus xs 0.

(** [sum(1 for x in xs if p x)] *)
Definition count {A : Type} (p : A -> bool) (xs : list A) : Q :=
  len (filter p xs).

(** [l.sort(key=key, reverse=True)]: a stable sort, largest key first;
    elements with equal keys keep their relative order. *)
Fixpoint insert_desc {A : Type} (key : A -> Q) (x : A) (l : list A) : list A :=
  match l with
  | [] => [x]
  | y :: l' =>
      if ltb (key x) (key y) then y :: insert_desc key x l' else x :: y :: l'
  end.

Definition sort_desc {A : Type} (key : A -> Q) (l : list A) : list A :=
  fold_right (insert_desc key) [] l.

(** [l.index(x)]: position of the first element equal to [x]. *)
Fixpoint index {A : Type} (eqb : A -> A -> bool) (x : A) (l : list A) : result nat :=
  match l with
  | [] => Raise ValueError
  | y :: l' => if eqb y x then Normal O else bind (index eqb x l') (fun k => Normal (S k))
  end.

End Py.

Import Py.

Declare Scope py_scope.
Delimit Scope py_scope with py.
Notation "x <- c ;; k" := (bind c (fun x => k))
  (at level 61, c at next level, right associativity) : py_scope.
Notation "' pat <- c ;; k" := (bind c (fun x => match x with pat => k end))
  (at level 61, pat pattern, c at next level, right associativity) : py_scope.

Open Scope Q_scope.
Open Scope py_scope.

(* ================================================================== *)
(** ** Data model: the snapshot handed to every entry point *)
(* ================================================================== *)

(** A task is its difficulty vector; its identity is its position in
    [tasks].  A member carries the attributes the strategies read:
    [id], [abilities], [energy] and (in [teams/team_9]) [incapacitated]. *)
Definition Task : Type := list Q.

Record Member : Type := mkMember {
  id : nat;
  abilities : list Q;
  energy : Q;
  incapacitated : bool
}.

Record Community : Type := mkCommunity {
  members : list Member;
  tasks : list Task
}.

(* ================================================================== *)
(** ** teams/team_3/preferences.py: the heuristic ranker *)
(* ================================================================== *)

Module Team3.

Definition calculate_partnership_cost
    (player_abilities partner_abilities : list Q) (task : Task) : result Q :=
  terms <- mapM (fun i =>
             t <- getitem task i ;;
             a <- getitem player_abilities i ;;
             b <- getitem partner_abilities i ;;
             ret (Qmax (t - Qmax a b) 0))
           (range (length task)) ;;
  ret (sum terms / 2).

Definition calculate_task_difficulty
    (task : Task) (community_avg_abilities : list Q) : Q :=
  fold_left
    (fun difficulty_score '(difficulty, avg_ability) =>
       if ltb avg_ability difficulty
       then difficulty_score + (difficulty - avg_ability) * 1.5
       else difficulty_score + (difficulty - avg_ability))
    (combine task community_avg_abilities) 0.

(** [avg_abilities[i] += ability] *)
Definition add_at (avg_abilities : list Q) (i : nat) (ability : Q) : result (list Q) :=
  a <- getitem avg_abilities i ;;
  ret (firstn i avg_abilities ++ (a + ability) :: skipn (S i) avg_abilities).

(** [for i, ability in enumerate(member.abilities): avg_abilities[i] += ability] *)
Fixpoint add_abilities (avg_abilities : list Q) (i : nat) (abs : list Q)
  : result (list Q) :=
  match abs with
  | [] => ret avg_abilities
  | ability :: rest =>
      avg' <- add_at avg_abilities i ability ;;
      add_abilities avg' (S i) rest
  end.

(** The [for member in community.members] loop of [get_community_stats]. *)
Fixpoint accumulate_stats (ms : list Member) (avg_abilities : list Q) (total_energy : Q)
  : result (list Q * Q) :=
  match ms with
  | [] => ret (avg_abilities, total_energy)
  | member :: rest =>
      avg' <- add_abilities avg_abilities 0 (abilities member) ;;
      accumulate_stats rest avg' (total_energy + energy member)
  end.

Definition get_community_stats (community : Community) : result (list Q * Q) :=
  let num_members := len (members community) in
  first <- getitem (members community) 0 ;;
  let num_abilities := length (abilities first) in
  '(totals, total_energy) <-
     accumulate_stats (members community) (repeat 0 num_abilities) 0 ;;
  avg_abilities <- mapM (fun a => truediv a num_members) totals ;;
  avg_energy <- truediv total_energy num_members ;;
  ret (avg_abilities, avg_energy).

Definition calculate_solo_cost (player_abilities : list Q) (task : Task) : result Q :=
  terms <- mapM (fun i =>
             t <- getitem task i ;;
             a <- getitem player_abilities i ;;
             ret (Qmax (t - a) 0))
           (range (length task)) ;;
  ret (sum terms).

(** [min_energy_reserve] of phase I:
    [max(1, min(3, len(tasks) / len(members) * 0.5))]. *)
Definition phaseI_reserve (community : Community) : result Q :=
  tasks_per_player <- truediv (len (tasks community)) (len (members community)) ;;
  ret (Qmax 1 (Qmin 3 (tasks_per_player * 0.5))).

(** The [for partner in community.members] loop of phase I for one task:
    the list of [(partner.id, energy_cost, priority)] it appends. *)
Fixpoint candidate_partners (player : Member) (task : Task) (task_difficulty : Q)
    (min_energy_reserve : Q) (ms : list Member) : result (list (nat * Q * Q)) :=
  match ms with
  | [] => ret []
  | partner :: rest =>
      if (id partner =? id player)%nat || ltb (energy partner) min_energy_reserve
      then candidate_partners player task task_difficulty min_energy_reserve rest
      else
        energy_cost <-
          calculate_partnership_cost (abilities player) (abilities partner) task ;;
        solo_terms <- mapM (fun i =>
                        t <- getitem task i ;;
                        a <- getitem (abilities player) i ;;
                        ret (Qmax (t - a) 0))
                      (range (length task)) ;;
        let solo_cost := sum solo_terms in
        others <-
          candidate_partners player task task_difficulty min_energy_reserve rest ;;
        if ltb energy_cost
               (Qmin (energy player - min_energy_reserve)
                     (energy partner - min_energy_reserve))
           && ltb energy_cost (solo_cost * 0.6)
        then
          let priority :=
            task_difficulty
            + (10 - energy_cost) * 2
            + Qmin (energy player) (energy partner) * 0.5 in
          ret ((id partner, energy_cost, priority) :: others)
        else ret others
  end.

(** The [for task_index, task in enumerate(community.tasks)] loop that
    fills the [partnerships] dictionary, in insertion order. *)
Fixpoint build_partnerships (player : Member) (ms : list Member)
    (community_avg_abilities : list Q) (min_energy_reserve : Q)
    (task_index : nat) (ts : list Task) : result (list (nat * list (nat * Q * Q))) :=
  match ts with
  | [] => ret []
  | task :: rest =>
      let task_difficulty := calculate_task_difficulty task community_avg_abilities in
      partner_list <-
        candidate_partners player task task_difficulty min_energy_reserve ms ;;
      others <- build_partnerships player ms community_avg_abilities
                  min_energy_reserve (S task_index) rest ;;
      ret ((task_index, partner_list) :: others)
  end.

(** The loop over [partnerships.items()]: sort each list by priority,
    highest first, and keep its first two partners (an empty list, which
    the source skips, contributes nothing). *)
Definition top_choices (partnerships : list (nat * list (nat * Q * Q)))
  : list (nat * nat) :=
  flat_map
    (fun '(task_index, partner_list) =>
       map (fun '(partner_id, _, _) => (task_index, partner_id))
           (firstn 2 (sort_desc (fun x => snd x) partner_list)))
    partnerships.

(** Ability-match and relative-strength scoring of one task. *)
Definition evaluate_task_suitability
    (player : Member) (task : Task) (community_avg_abilities : list Q)
  : result (Q * Q) :=
  energy_cost <- calculate_solo_cost (abilities player) task ;;
  matches <- mapM (fun i =>
               a <- getitem (abilities player) i ;;
               t <- getitem task i ;;
               ret (leb t a))
             (range (length task)) ;;
  ability_match <- truediv (count (fun b => b) matches) (len task) ;;
  surplus <- mapM (fun i =>
               a <- getitem (abilities player) i ;;
               c <- getitem community_avg_abilities i ;;
               ret (a - c))
             (filter (fun i => ltb 0 (nth i task 0)) (range (length task))) ;;
  relative_strength <- truediv (sum surplus) (count (fun t => ltb 0 t) task) ;;
  let suitability :=
    (10 - energy_cost) * 2 + ability_match * 5 + relative_strength * 3 in
  ret (suitability, energy_cost).

Definition get_task_completion_rate (community : Community) : result Q :=
  truediv (len (tasks community)) (2 * len (members community)).

(** [min_energy_reserve] of phase II. *)
Definition phaseII_reserve (community : Community) : result Q :=
  completion_rate <- get_task_completion_rate community ;;
  ret (Qmax 1 (Qmin 3 completion_rate)).

(** [community_avg_abilities] as phase II recomputes it. *)
Definition phaseII_avg_abilities (player : Member) (community : Community)
  : result (list Q) :=
  mapM (fun i =>
          col <- mapM (fun member => getitem (abilities member) i) (members community) ;;
          truediv (sum col) (len (members community)))
       (range (length (abilities player))).

(** The [for i, task in enumerate(community.tasks)] loop of phase II: the
    [(i, suitability, energy_cost)] triples that pass the three tests. *)
Fixpoint evaluate_tasks (player : Member) (community_avg_abilities : list Q)
    (available_energy : Q) (i : nat) (ts : list Task) : result (list (nat * Q * Q)) :=
  match ts with
  | [] => ret []
  | task :: rest =>
      '(suitability, energy_cost) <-
         evaluate_task_suitability player task community_avg_abilities ;;
      others <- evaluate_tasks player community_avg_abilities available_energy (S i) rest ;;
      if ltb energy_cost available_energy
         && ltb 0 suitability
         && leb energy_cost (energy player * 0.7)
      then ret ((i, suitability, energy_cost) :: others)
      else ret others
  end.

(** The greedy loop: accept while the cost fits the running budget, and
    [break] once the budget is below the reserve. *)
Fixpoint select_loop (task_evaluations : list (nat * Q * Q))
    (remaining_energy min_energy_reserve : Q) : list nat :=
  match task_evaluations with
  | [] => []
  | (task_index, _, energy_cost) :: rest =>
      if leb energy_cost remaining_energy
      then
        let remaining_energy' := remaining_energy - energy_cost in
        if ltb remaining_energy' min_energy_reserve
        then [task_index]
        else task_index :: select_loop rest remaining_energy' min_energy_reserve
      else select_loop rest remaining_energy min_energy_reserve
  end.

(** Phase II up to (and excluding) the final randomization: [None] is the
    early [return []] of a depleted player, [Some selected_tasks] the
    accepted list in suitability order. *)
Definition select_tasks (player : Member) (community : Community)
  : result (option (list nat)) :=
  community_avg_abilities <- phaseII_avg_abilities player community ;;
  min_energy_reserve <- phaseII_reserve community ;;
  if ltb (energy player) (min_energy_reserve * 2)
  then ret None
  else
    let available_energy := energy player - min_energy_reserve in
    task_evaluations <-
      evaluate_tasks player community_avg_abilities available_energy 0 (tasks community) ;;
    let task_evaluations := sort_desc (fun x => snd (fst x)) task_evaluations in
    ret (Some (select_loop task_evaluations available_energy min_energy_reserve)).

(** [group_size = max(1, len(selected_tasks) // 3)] *)
Definition group_size (selected_tasks : list nat) : nat :=
  Nat.max 1 (length selected_tasks / 3).

Section Randomized.

Context {G : Type}.
Variable shuffle : forall A : Type, G -> list A -> list A * G.

Definition phaseIpreferences (player : Member) (community : Community) (global_random : G)
  : result (list (nat * nat) * G) :=
  '(community_avg_abilities, community_avg_energy) <- get_community_stats community ;;
  if ltb (energy player) (Qmax 2 (community_avg_energy * 0.25))
  then ret ([], global_random)
  else
    min_energy_reserve <- phaseI_reserve community ;;
    partnerships <- build_partnerships player (members community)
                      community_avg_abilities min_energy_reserve 0 (tasks community) ;;
    ret (shuffle _ global_random (top_choices partnerships)).

(** The [for i in range(0, len(selected_tasks), group_size)] loop:
    [group = selected_tasks[i:i+group_size]], shuffle it, and assign it
    back to the same slice. *)
Fixpoint shuffle_groups (starts : list nat) (size : nat)
    (selected_tasks : list nat) (global_random : G) : list nat * G :=
  match starts with
  | [] => (selected_tasks, global_random)
  | i :: rest =>
      let group := firstn size (skipn i selected_tasks) in
      let '(group', global_random') := shuffle _ global_random group in
      shuffle_groups rest size
        (firstn i selected_tasks ++ group' ++ skipn (i + size) selected_tasks)
        global_random'
  end.

Definition randomize (selected_tasks : list nat) (global_random : G) : list nat * G :=
  match selected_tasks with
  | [] => (selected_tasks, global_random)
  | _ :: _ =>
      let size := group_size selected_tasks in
      shuffle_groups (range_step (length selected_tasks) size) size
        selected_tasks global_random
  end.

Definition phaseIIpreferences (player : Member) (community : Community) (global_random : G)
  : result (list nat * G) :=
  selection <- select_tasks player community ;;
  match selection with
  | None => ret ([], global_random)
  | Some selected_tasks => ret (randomize selected_tasks global_random)
  end.

End Randomized.

End Team3.

(* ================================================================== *)
(** ** The matching solver called by team 6 *)
(* ================================================================== *)

Module Scipy.

(** [cost_matrix[r, c]] of a dense matrix held as its list of rows. *)
Definition cell (cost_matrix : list (list Q)) (r c : nat) : Q :=
  nth c (nth r cost_matrix []) 0.

Definition num_cols (cost_matrix : list (list Q)) : nat :=
  match cost_matrix with
  | [] => O
  | row :: _ => length row
  end.

Definition matching_cost (cost_matrix : list (list Q)) (pairs : list (nat * nat)) : Q :=
  sum (map (fun '(r, c) => cell cost_matrix r c) pairs).

(** Every way to match some of [rows], in order, to distinct [cols]. *)
Fixpoint matchings (rows cols : list nat) : list (list (nat * nat)) :=
  match rows with
  | [] => [[]]
  | r :: rows' =>
      flat_map (fun c => map (cons (r, c)) (matchings rows' (remove Nat.eq_dec c cols)))
               cols
      ++ matchings rows' cols
  end.

Fixpoint argmin {A : Type} (cost : A -> Q) (best : A) (xs : list A) : A :=
  match xs with
  | [] => best
  | x :: xs' => argmin cost (if ltb (cost x) (cost best) then x else best) xs'
  end.

(** Modelled from the spec: [scipy.optimize.linear_sum_assignment] is an
    external library routine and its code is not part of the repository.
    The spec describes it as solving "the rectangular minimum-cost
    bipartite matching (each task matched to exactly one column; columns
    may be matched to at most one task)", replaceable by "any
    off-the-shelf minimum-cost bipartite matching algorithm".  The model
    searches all matchings of [min(rows, columns)] pairs exhaustively and
    returns one of least total cost as [(row_ind, col_ind)], rows in
    increasing order. *)
Definition linear_sum_assignment (cost_matrix : list (list Q)) : list nat * list nat :=
  let n := length cost_matrix in
  let m := num_cols cost_matrix in
  let candidates :=
    filter (fun p => length p =? Nat.min n m)%nat (matchings (seq 0 n) (seq 0 m)) in
  let best :=
    match candidates with
    | [] => []
    | p :: ps => argmin (matching_cost cost_matrix) p ps
    end in
  (map fst best, map snd best).

End Scipy.

(* ================================================================== *)
(** ** teams/team_6/preferences.py: the optimal-assignment solver *)
(* ================================================================== *)

Module Team6.

Import Scipy.

Definition PHASE_1_ASSIGNMENTS : bool := false.

Definition loss_phase1 (task : Task) (player1 player2 : Member) : result Q :=
  unmet <- mapM (fun k =>
             t <- getitem task k ;;
             a <- getitem (abilities player1) k ;;
             b <- getitem (abilities player2) k ;;
             ret (Qmax (t - Qmax a b) 0))
           (range (length task)) ;;
  let cost := sum unmet in
  let cost := cost + Qmax 0 (cost - energy player1 - energy player2) / 2 in
  wasted <- mapM (fun k =>
              a <- getitem (abilities player1) k ;;
              b <- getitem (abilities player2) k ;;
              t <- getitem task k ;;
              ret (Qmax (Qmax a b - t) 0))
            (range (length task)) ;;
  let cost := cost + sum wasted in
  mismatch <- mapM (fun k =>
                a <- getitem (abilities player1) k ;;
                b <- getitem (abilities player2) k ;;
                ret (Qabs (a - b)))
              (range (length task)) ;;
  let cost := cost + sum mismatch in
  ret cost.

Definition loss_phase2 (task : Task) (abilities : list Q) (current_energy : Q)
  : result Q :=
  terms <- mapM (fun k =>
             t <- getitem task k ;;
             a <- getitem abilities k ;;
             ret (Qmax (t - a) 0))
           (range (length abilities)) ;;
  let cost := sum terms in
  ret (cost + Qmax 0 (cost - current_energy)).

(** [(i, j)] for [i in range(n)], [j in range(i + 1, n)]. *)
Definition all_partnerships (num_members : nat) : list (nat * nat) :=
  flat_map (fun i => map (fun j => (i, j)) (seq (S i) (num_members - S i)))
           (range num_members).

(** The matrix of [assign_phase1]: partnership columns, then individual
    columns, one row per task. *)
Definition phase1_cost_matrix (tasks : list Task) (members : list Member)
  : result (list (list Q)) :=
  let partnerships := all_partnerships (length members) in
  pair_costs <- mapM (fun task =>
                  mapM (fun '(member1_idx, member2_idx) =>
                          member1 <- getitem members member1_idx ;;
                          member2 <- getitem members member2_idx ;;
                          loss_phase1 task member1 member2)
                       partnerships)
                tasks ;;
  solo_costs <- mapM (fun task =>
                  mapM (fun member =>
                          loss_phase2 task (abilities member) (energy member))
                       members)
                tasks ;;
  ret (map (fun '(pairs, solos) => pairs ++ solos) (combine pair_costs solo_costs)).

(** [sum(cost_matrix[row_indices[i], col_indices[i]] for i in range(len(row_indices)))] *)
Definition total_cost_of (cost_matrix : list (list Q)) (row_indices col_indices : list nat)
  : Q :=
  sum (map (fun i => cell cost_matrix (nth i row_indices O) (nth i col_indices O))
           (range (length row_indices))).

(** The body of the loop that converts a matched [(task_idx, col_idx)]
    into an assignment [(ids, task, loss)]. *)
Definition phase1_assignment (tasks : list Task) (members : list Member)
    (cost_matrix : list (list Q)) (task_idx col_idx : nat)
  : result (list nat * Task * Q) :=
  let partnerships := all_partnerships (length members) in
  let num_partnerships := length partnerships in
  task <- getitem tasks task_idx ;;
  if (col_idx <? num_partnerships)%nat
  then
    '(member1_idx, member2_idx) <- getitem partnerships col_idx ;;
    member1 <- getitem members member1_idx ;;
    member2 <- getitem members member2_idx ;;
    let loss := cell cost_matrix task_idx col_idx in
    ret ([id member1; id member2], task, loss)
  else
    let member_idx := (col_idx - num_partnerships)%nat in
    member <- getitem members member_idx ;;
    let loss := cell cost_matrix task_idx col_idx in
    ret ([id member], task, loss).

Definition assign_phase1 (tasks : list Task) (members : list Member)
  : result (list (list nat * Task * Q) * Q) :=
  cost_matrix <- phase1_cost_matrix tasks members ;;
  let '(row_indices, col_indices) := linear_sum_assignment cost_matrix in
  assignments <-
    mapM (fun '(task_idx, col_idx) =>
            phase1_assignment tasks members cost_matrix task_idx col_idx)
         (combine row_indices col_indices) ;;
  ret (assignments, total_cost_of cost_matrix row_indices col_indices).

(** [{player: task for task, player in zip(row_indices, col_indices)}]
    read with [.get]: a later entry for a key replaces an earlier one. *)
Fixpoint dict_get (items : list (nat * nat)) (key : nat) : option nat :=
  match items with
  | [] => None
  | (k, v) :: rest =>
      match dict_get rest key with
      | Some v' => Some v'
      | None => if (k =? key)%nat then Some v else None
      end
  end.

Definition assign_phase2 (tasks : list Task) (members : list Member)
  : result (list (nat * nat) * Q) :=
  cost_matrix <- mapM (fun task =>
                   mapM (fun member =>
                           loss_phase2 task (abilities member) (energy member))
                        members)
                 tasks ;;
  let '(row_indices, col_indices) := linear_sum_assignment cost_matrix in
  ret (map (fun '(task, player) => (player, task)) (combine row_indices col_indices),
       total_cost_of cost_matrix row_indices col_indices).

(** [==] on tasks (lists of numbers) and on snapshot members, compared
    field by field. *)
Fixpoint task_eqb (t1 t2 : Task) : bool :=
  match t1, t2 with
  | [], [] => true
  | x :: t1', y :: t2' => Qeq_bool x y && task_eqb t1' t2'
  | _, _ => false
  end.

Definition member_eqb (m1 m2 : Member) : bool :=
  (id m1 =? id m2)%nat
  && task_eqb (abilities m1) (abilities m2)
  && Qeq_bool (energy m1) (energy m2)
  && Bool.eqb (incapacitated m1) (incapacitated m2).

(** The body of the [for assignment in assignments] loop of phase I. *)
Definition decode_assignment (player : Member) (community : Community)
    (assignment : list nat * Task * Q) : result (list (nat * nat)) :=
  let '(ids, assigned_task, _) := assignment in
  match ids with
  | [first; second] =>
      if (id player =? first)%nat || (id player =? second)%nat
      then
        found <- mapM (fun task =>
                   if task_eqb task assigned_task
                   then
                     k <- index task_eqb task (tasks community) ;;
                     if (id player =? first)%nat
                     then ret [(k, second)]
                     else ret [(k, first)]
                   else ret [])
                 (tasks community) ;;
        ret (concat found)
      else ret []
  | _ => ret []
  end.

Definition phaseIpreferences {G : Type}
    (player : Member) (community : Community) (global_random : G)
  : list (nat * nat) :=
  try_except
    (if PHASE_1_ASSIGNMENTS
     then
       '(assignments, total_cost) <-
          assign_phase1 (tasks community) (members community) ;;
       decoded <- mapM (decode_assignment player community) assignments ;;
       ret (concat decoded)
     else ret [])
    [].

Definition phaseIIpreferences {G : Type}
    (player : Member) (community : Community) (global_random : G)
  : list nat :=
  let bids := [] in
  if ltb (energy player) 0
  then bids
  else
    try_except
      (let wait_energy_threshold := 0 in
       player_index <- index member_eqb player (members community) ;;
       '(assignments, total_cost) <-
          assign_phase2 (tasks community) (members community) ;;
       match dict_get assignments player_index with
       | None => ret []
       | Some best_task =>
           task <- getitem (tasks community) best_task ;;
           best_task_cost <- loss_phase2 task (abilities player) (energy player) ;;
           if ltb (energy player - best_task_cost) wait_energy_threshold
           then ret []
           else ret [best_task]
       end)
      bids.

End Team6.

(* ================================================================== *)
(** ** teams/team_9/preferences.py: the energy-preserving ranker *)
(* ================================================================== *)

Module Team9.

(** [all(task[i] <= abilities[i] for i in idx)]: stops at the first
    dimension that fails. *)
Fixpoint all_met (task : Task) (abilities : list Q) (idx : list nat) : result bool :=
  match idx with
  | [] => ret true
  | i :: rest =>
      t <- getitem task i ;;
      a <- getitem abilities i ;;
      if leb t a then all_met task abilities rest else ret false
  end.

(** [all(task[i] <= abilities[i] for i in range(len(task)))] *)
Definition can_complete_alone (task : Task) (abilities : list Q) : result bool :=
  all_met task abilities (range (length task)).

(** [x > best] where [best] starts at [-float('inf')] ([None]). *)
Definition above (x : Q) (best : option Q) : bool :=
  match best with
  | None => true
  | Some b => ltb b x
  end.

(** The [for partner in community.members] loop of phase I for one task,
    from the current [best_partner] and [best_remaining_energy]. *)
Fixpoint best_partner_loop (player : Member) (task : Task) (ms : list Member)
    (best_partner : option nat) (best_remaining_energy : option Q)
  : result (option nat) :=
  match ms with
  | [] => ret best_partner
  | partner :: rest =>
      if (id partner =? id player)%nat || incapacitated partner
      then best_partner_loop player task rest best_partner best_remaining_energy
      else
        alone <- can_complete_alone task (abilities partner) ;;
        if alone
        then best_partner_loop player task rest best_partner best_remaining_energy
        else
          energy_cost <-
            Team3.calculate_partnership_cost (abilities player) (abilities partner) task ;;
          let energy_limit := 0 in
          let player_remaining_energy := energy player - energy_cost in
          let partner_remaining_energy := energy partner - energy_cost in
          if ltb energy_limit player_remaining_energy
             && ltb energy_limit partner_remaining_energy
          then
            if above (Qmin player_remaining_energy partner_remaining_energy)
                     best_remaining_energy
            then best_partner_loop player task rest (Some (id partner))
                   (Some (Qmin player_remaining_energy partner_remaining_energy))
            else best_partner_loop player task rest best_partner best_remaining_energy
          else best_partner_loop player task rest best_partner best_remaining_energy
  end.

(** The [for task_id, task in sorted_tasks] loop of phase I. *)
Fixpoint partner_tasks (player : Member) (ms : list Member)
    (sorted_tasks : list (nat * Task)) : result (list (nat * nat)) :=
  match sorted_tasks with
  | [] => ret []
  | (task_id, task) :: rest =>
      alone <- can_complete_alone task (abilities player) ;;
      if alone
      then partner_tasks player ms rest
      else
        best_partner <- best_partner_loop player task ms None None ;;
        others <- partner_tasks player ms rest ;;
        match best_partner with
        | Some partner_id => ret ((task_id, partner_id) :: others)
        | None => ret others
        end
  end.

(** [enumerate(tasks)] *)
Definition enumerate (ts : list Task) : list (nat * Task) :=
  combine (seq 0 (length ts)) ts.

Definition phaseIpreferences {G : Type}
    (player : Member) (community : Community) (global_random : G)
  : result (list (nat * nat)) :=
  let sorted_tasks :=
    sort_desc (fun x => sum (snd x)) (enumerate (tasks community)) in
  partner_tasks player (members community) sorted_tasks.

(** The [for task_id, task in enumerate(community.tasks)] loop of phase
    II: the [(task_id, energy_cost, remaining_energy)] triples kept. *)
Fixpoint affordable_tasks (player : Member) (task_id : nat) (ts : list Task)
  : result (list (nat * Q * Q)) :=
  match ts with
  | [] => ret []
  | task :: rest =>
      energy_cost <- Team3.calculate_solo_cost (abilities player) task ;;
      let energy_limit := 0 in
      let remaining_energy := energy player - energy_cost in
      others <- affordable_tasks player (S task_id) rest ;;
      if ltb energy_limit remaining_energy
      then ret ((task_id, energy_cost, remaining_energy) :: others)
      else ret others
  end.

(** [<] on the key tuples [(x[1], -x[2])]: the first components decide
    unless they are equal. *)
Definition key_ltb (k1 k2 : Q * Q) : bool :=
  ltb (fst k1) (fst k2) || (Qeq_bool (fst k1) (fst k2) && ltb (snd k1) (snd k2)).

(** [l.sort(key=key)]: a stable sort, smallest key first. *)
Fixpoint insert_asc {A : Type} (key : A -> Q * Q) (x : A) (l : list A) : list A :=
  match l with
  | [] => [x]
  | y :: l' =>
      if key_ltb (key y) (key x) then y :: insert_asc key x l' else x :: y :: l'
  end.

Definition sort_asc {A : Type} (key : A -> Q * Q) (l : list A) : list A :=
  fold_right (insert_asc key) [] l.

Definition phaseIIpreferences {G : Type}
    (player : Member) (community : Community) (global_random : G)
  : result (list nat) :=
  preferences <- affordable_tasks player 0 (tasks community) ;;
  let preferences :=
    sort_asc (fun x => (snd (fst x), - snd x)) preferences in
  ret (map (fun x => fst (fst x)) preferences).

End Team9.

(* ================================================================== *)
(** ** Specification-side definitions *)
(* ================================================================== *)

(** The ability vector a partnership applies: the better of the two
    partners on each dimension. *)
Definition elementwise_max (a1 a2 : list Q) : list Q :=
  map (fun '(a, b) => Qmax a b) (combine a1 a2).

(** How much the pair's best-of abilities overshoot the task. *)
Definition wasted_capability (task : Task) (a1 a2 : list Q) : Q :=
  sum (map (fun '(t, m) => Qmax (m - t) 0) (combine task (elementwise_max a1 a2))).

(** Sum of the absolute per-dimension differences of two ability vectors. *)
Definition ability_mismatch (a1 a2 : list Q) : Q :=
  sum (map (fun '(a, b) => Qabs (a - b)) (combine a1 a2)).

(** The partnership loss as the specification words it: the partnership
    cost (already halved) plus the three penalties. *)
Definition richLoss_spec (partnership_cost : Q) (task : Task) (a1 a2 : list Q) (e1 e2 : Q)
  : Q :=
  partnership_cost
  + Qmax 0 (partnership_cost - (e1 + e2)) / 2
  + wasted_capability task a1 a2
  + ability_mismatch a1 a2.

(** Unmet difficulty of dimension [i] against one ability vector, and
    against the better of two. *)
Definition unmet (T A : list Q) (i : nat) : Q :=
  Qmax (nth i T 0 - nth i A 0) 0.

Definition unmet2 (T a1 a2 : list Q) (i : nat) : Q :=
  Qmax (nth i T 0 - Qmax (nth i a1 0) (nth i a2 0)) 0.

(** Mean energy of the members. *)
Definition average_energy (ms : list Member) : Q :=
  fold_left (fun total m => total + energy m) ms 0 / len ms.

(** The [k]-th contiguous group of [size] elements of a list. *)
Definition chunk {A : Type} (size k : nat) (l : list A) : list A :=
  firstn size (skipn (k * size) l).

(** Two lists that agree up to a rearrangement inside each contiguous
    group of [size] elements (the last group may be shorter). *)
Inductive chunkwise {A : Type} (size : nat) : list A -> list A -> Prop :=
| chunkwise_last (l l' : list A) :
    (length l <= size)%nat -> Permutation l l' -> chunkwise size l l'
| chunkwise_more (a a' b b' : list A) :
    length a = size -> Permutation a a' -> chunkwise size b b' ->
    chunkwise size (a ++ b) (a' ++ b').

(** The task indices phase II accepts, in suitability order, before the
    final randomization; a depleted player accepts none. *)
Definition accepted_tasks (player : Member) (community : Community)
  : result (list nat) :=
  selection <- Team3.select_tasks player community ;;
  ret (match selection with
       | None => []
       | Some selected_tasks => selected_tasks
       end).

(** Group size as the specification words it: a third of the accepted
    count, rounded up. *)
Definition group_size_spec (accepted_count : nat) : nat :=
  (accepted_count + 2) / 3.

(** A total task-to-column assignment of an [n]-row, [m]-column matrix:
    [sigma[i]] is the column of task [i], columns pairwise distinct. *)
Definition feasible (n m : nat) (sigma : list nat) : Prop :=
  length sigma = n /\ NoDup sigma /\ Forall (fun c => (c < m)%nat) sigma.

Definition assignment_cost (cost_matrix : list (list Q)) (sigma : list nat) : Q :=
  Scipy.matching_cost cost_matrix (combine (seq 0 (length sigma)) sigma).

(** How much an ability vector exceeds a task, summed over dimensions. *)
Definition excess_ability (task : Task) (abilities : list Q) : Q :=
  sum (map (fun '(t, a) => Qmax (a - t) 0) (combine task abilities)).

(** Mean of the members' abilities on dimension [i]. *)
Definition mean_ability (ms : list Member) (i : nat) : Q :=
  sum (map (fun m => nth i (abilities m) 0) ms) / len ms.

(** A member that team 9 may pair with [player] on [task], and the lower
    of the two energies that remain after paying the partnership cost: not
    the player, not incapacitated, unable to complete the task alone, and
    both energies stay positive. *)
Definition eligible_partner (player : Member) (task : Task) (partner : Member) (m : Q)
  : Prop :=
  id partner <> id player
  /\ incapacitated partner = false
  /\ Team9.can_complete_alone task (abilities partner) = Normal false
  /\ exists c,
       Team3.calculate_partnership_cost (abilities player) (abilities partner) task
         = Normal c
       /\ 0 < energy player - c /\ 0 < energy partner - c
       /\ m = Qmin (energy player - c) (energy partner - c).

(** Whether team 9's phase I keeps a task: the player cannot complete it
    alone and the partner loop finds someone. *)
Definition keeps_task (player : Member) (ms : list Member) (entry : nat * Task) : bool :=
  match Team9.can_complete_alone (snd entry) (abilities player) with
  | Normal false =>
      match Team9.best_partner_loop player (snd entry) ms None None with
      | Normal (Some _) => true
      | _ => false
      end
  | _ => false
  end.

(** The order of the sort keys [(cost, -remaining)] of team 9's phase II. *)
Definition key_le (k1 k2 : Q * Q) : Prop :=
  fst k1 < fst k2 \/ (fst k1 == fst k2 /\ snd k1 <= snd k2).

(** A random source: one lawful [shuffle] is list reversal with a trivial
    state. *)
Definition shuffle_contract {G : Type}
    (shuffle : forall A : Type, G -> list A -> list A * G) : Prop :=
  forall (A : Type) (g : G) (l : list A), Permutation l (fst (shuffle A g l)).

Definition reversing_shuffle (A : Type) (g : unit) (l : list A) : list A * unit :=
  (rev l, g).

(** Concrete snapshots used in the examples below. *)
Definition fit (i : nat) (a : list Q) (e : Q) : Member := mkMember i a e false.

(* ================================================================== *)
(** ** Proof automation for rational arithmetic *)
(* ================================================================== *)

(** Case analysis on every [Qmax]/[Qmin] of the goal and hypotheses,
    each replaced by a variable with its defining (in)equalities, ready
    for [lra]. *)
Ltac qminmax_step t H :=
  let m := fresh "m" in
  set (m := t) in *;
  clearbody m;
  destruct H as [[? ?]|[? ?]].

Ltac qminmax :=
  repeat match goal with
  | |- context [Qmax ?a ?b] =>
      let H := fresh "Hm" in
      pose proof (Q.max_spec a b) as H; qminmax_step (Qmax a b) H
  | _ : context [Qmax ?a ?b] |- _ =>
      let H := fresh "Hm" in
      pose proof (Q.max_spec a b) as H; qminmax_step (Qmax a b) H
  | |- context [Qmin ?a ?b] =>
      let H := fresh "Hm" in
      pose proof (Q.min_spec a b) as H; qminmax_step (Qmin a b) H
  | _ : context [Qmin ?a ?b] |- _ =>
      let H := fresh "Hm" in
      pose proof (Q.min_spec a b) as H; qminmax_step (Qmin a b) H
  end.

(** [lra] does not read [x / 2]; state it as a product first. *)
Ltac qhalf :=
  repeat match goal with
  | |- context [?x / 2] =>
      setoid_replace (x / 2) with (x * (1 # 2)) by field
  | H : context [?x / 2] |- _ =>
      setoid_replace (x / 2) with (x * (1 # 2)) in H by field
  end.

(* ================================================================== *)
(** ** Basic facts: tests, sums, comprehensions *)
(* ================================================================== *)

Lemma ltb_true (x y : Q) : ltb x y = true <-> x < y.
Proof.
  unfold ltb. rewrite negb_true_iff. split; intro H.
  - apply Qnot_le_lt. intro Hle. apply Qle_bool_iff in Hle. congruence.
  - destruct (Qle_bool y x) eqn:E; [|reflexivity].
    apply Qle_bool_iff in E. exfalso. apply (Qlt_not_le _ _ H E).
Qed.

Lemma ltb_false (x y : Q) : ltb x y = false <-> y <= x.
Proof.
  unfold ltb. rewrite negb_false_iff. apply Qle_bool_iff.
Qed.

Lemma leb_true (x y : Q) : leb x y = true <-> x <= y.
Proof. apply Qle_bool_iff. Qed.

Lemma bind_Normal {A B : Type} (c : result A) (k : A -> result B) (b : B) :
  bind c k = Normal b -> exists a, c = Normal a /\ k a = Normal b.
Proof.
  destruct c as [a|e]; simpl; intro H; [eauto | discriminate].
Qed.

Lemma fold_left_Qplus (xs : list Q) (a : Q) :
  fold_left Qplus xs a == a + fold_left Qplus xs 0.
Proof.
  revert a. induction xs as [|x xs IH]; intro a; simpl.
  - lra.
  - rewrite (IH (a + x)), (IH (0 + x)). lra.
Qed.

Lemma sum_nil : sum [] == 0.
Proof. reflexivity. Qed.

Lemma sum_cons (x : Q) (xs : list Q) : sum (x :: xs) == x + sum xs.
Proof.
  unfold sum. simpl. rewrite fold_left_Qplus. lra.
Qed.

Lemma sum_app (xs ys : list Q) : sum (xs ++ ys) == sum xs + sum ys.
Proof.
  induction xs as [|x xs IH]; simpl.
  - rewrite sum_nil. lra.
  - rewrite !sum_cons, IH. lra.
Qed.

Lemma sum_map_nonneg {A : Type} (f : A -> Q) (xs : list A) :
  (forall x, In x xs -> 0 <= f x) -> 0 <= sum (map f xs).
Proof.
  induction xs as [|x xs IH]; intro H; simpl.
  - rewrite sum_nil. lra.
  - rewrite sum_cons.
    assert (0 <= f x) by (apply H; left; reflexivity).
    assert (0 <= sum (map f xs)) by (apply IH; intros; apply H; right; assumption).
    lra.
Qed.

Lemma sum_map_le {A : Type} (f g : A -> Q) (xs : list A) :
  (forall x, In x xs -> f x <= g x) -> sum (map f xs) <= sum (map g xs).
Proof.
  induction xs as [|x xs IH]; intro H; simpl.
  - lra.
  - rewrite !sum_cons.
    assert (f x <= g x) by (apply H; left; reflexivity).
    assert (sum (map f xs) <= sum (map g xs))
      by (apply IH; intros; apply H; right; assumption).
    lra.
Qed.

Lemma sum_map_zero_iff {A : Type} (f : A -> Q) (xs : list A) :
  (forall x, In x xs -> 0 <= f x) ->
  (sum (map f xs) == 0 <-> forall x, In x xs -> f x == 0).
Proof.
  induction xs as [|x xs IH]; intro Hpos; simpl.
  - split; [intros _ y [] | intros _; reflexivity].
  - rewrite sum_cons.
    assert (Hx : 0 <= f x) by (apply Hpos; left; reflexivity).
    assert (Hxs : forall y, In y xs -> 0 <= f y)
      by (intros; apply Hpos; right; assumption).
    pose proof (sum_map_nonneg f xs Hxs) as Hs.
    specialize (IH Hxs). split.
    + intros H0 y [<-|Hy].
      * lra.
      * apply IH; [lra | assumption].
    + intro Hall.
      assert (f x == 0) by (apply Hall; left; reflexivity).
      assert (sum (map f xs) == 0)
        by (apply IH; intros; apply Hall; right; assumption).
      lra.
Qed.

Lemma mapM_total {A B : Type} (f : A -> result B) (g : A -> B) (xs : list A) :
  (forall x, In x xs -> f x = Normal (g x)) -> mapM f xs = Normal (map g xs).
Proof.
  induction xs as [|x xs IH]; intro H; simpl.
  - reflexivity.
  - rewrite (H x (or_introl eq_refl)). simpl.
    rewrite IH by (intros; apply H; right; assumption).
    reflexivity.
Qed.

Lemma mapM_Normal {A B : Type} (f : A -> result B) (xs : list A) (ys : list B) :
  mapM f xs = Normal ys -> Forall2 (fun x y => f x = Normal y) xs ys.
Proof.
  revert ys. induction xs as [|x xs IH]; intros ys H; simpl in H.
  - injection H as <-. constructor.
  - apply bind_Normal in H as (y & Hy & H).
    apply bind_Normal in H as (ys' & Hys & H).
    injection H as <-. constructor; auto.
Qed.

Lemma getitem_nth {A : Type} (l : list A) (i : nat) (d : A) :
  (i < length l)%nat -> getitem l i = Normal (nth i l d).
Proof.
  intro H. unfold getitem.
  rewrite (nth_error_nth' l d H). reflexivity.
Qed.

Lemma in_range (i n : nat) : In i (range n) <-> (i < n)%nat.
Proof.
  unfold range. rewrite in_seq. lia.
Qed.

Lemma map_range_combine {A B C : Type} (h : A -> B -> C) (da : A) (db : B)
    (l1 : list A) (l2 : list B) :
  length l1 = length l2 ->
  map (fun i => h (nth i l1 da) (nth i l2 db)) (range (length l1))
  = map (fun '(a, b) => h a b) (combine l1 l2).
Proof.
  unfold range. revert l2.
  induction l1 as [|a l1 IH]; intros [|b l2] Hlen; simpl in *; try discriminate.
  - reflexivity.
  - rewrite <- seq_shift, map_map. simpl. f_equal. apply IH. lia.
Qed.

Lemma nth_elementwise_max (a1 a2 : list Q) (i : nat) :
  length a1 = length a2 ->
  nth i (elementwise_max a1 a2) 0 = Qmax (nth i a1 0) (nth i a2 0).
Proof.
  intro Hlen. unfold elementwise_max.
  change 0 with ((fun '(a, b) => Qmax a b) (0, 0)) at 1.
  rewrite map_nth, combine_nth by assumption. reflexivity.
Qed.

Lemma length_elementwise_max (a1 a2 : list Q) :
  length a1 = length a2 -> length (elementwise_max a1 a2) = length a1.
Proof.
  intro H. unfold elementwise_max.
  rewrite length_map, length_combine. lia.
Qed.

(* ================================================================== *)
(** ** Cost model *)
(* ================================================================== *)

Lemma solo_cost_eval (A T : list Q) :
  (length T <= length A)%nat ->
  Team3.calculate_solo_cost A T = Normal (sum (map (unmet T A) (range (length T)))).
Proof.
  intro Hlen. unfold Team3.calculate_solo_cost.
  rewrite (mapM_total _ (unmet T A)); [reflexivity|].
  intros i Hi. apply in_range in Hi.
  rewrite (getitem_nth T i 0) by lia. simpl.
  rewrite (getitem_nth A i 0) by lia. reflexivity.
Qed.

Lemma partnership_cost_eval (a1 a2 T : list Q) :
  (length T <= length a1)%nat -> (length T <= length a2)%nat ->
  Team3.calculate_partnership_cost a1 a2 T
  = Normal (sum (map (unmet2 T a1 a2) (range (length T))) / 2).
Proof.
  intros H1 H2. unfold Team3.calculate_partnership_cost.
  rewrite (mapM_total _ (unmet2 T a1 a2)); [reflexivity|].
  intros i Hi. apply in_range in Hi.
  rewrite (getitem_nth T i 0) by lia. simpl.
  rewrite (getitem_nth a1 i 0) by lia. simpl.
  rewrite (getitem_nth a2 i 0) by lia. reflexivity.
Qed.

Lemma unmet_nonneg (T A : list Q) (i : nat) : 0 <= unmet T A i.
Proof. unfold unmet. qminmax; lra. Qed.

Lemma unmet2_nonneg (T a1 a2 : list Q) (i : nat) : 0 <= unmet2 T a1 a2 i.
Proof. unfold unmet2. qminmax; lra. Qed.

Lemma unmet2_le_l (T a1 a2 : list Q) (i : nat) : unmet2 T a1 a2 i <= unmet T a1 i.
Proof. unfold unmet2, unmet. qminmax; lra. Qed.

Lemma unmet2_le_r (T a1 a2 : list Q) (i : nat) : unmet2 T a1 a2 i <= unmet T a2 i.
Proof. unfold unmet2, unmet. qminmax; lra. Qed.

Lemma unmet_zero_iff (T A : list Q) (i : nat) :
  unmet T A i == 0 <-> nth i T 0 <= nth i A 0.
Proof. unfold unmet. split; intro H; qminmax; lra. Qed.

(** C7: for equal-length vectors the partnership cost is at most the solo
    cost of either partner. *)
Theorem partnership_cost_le_solo (T a1 a2 : list Q) :
  length a1 = length T -> length a2 = length T ->
  exists pc s1 s2,
    Team3.calculate_partnership_cost a1 a2 T = Normal pc
    /\ Team3.calculate_solo_cost a1 T = Normal s1
    /\ Team3.calculate_solo_cost a2 T = Normal s2
    /\ pc <= s1 /\ pc <= s2.
Proof.
  intros H1 H2.
  rewrite partnership_cost_eval, !solo_cost_eval by lia.
  do 3 eexists. repeat split.
  - pose proof (sum_map_nonneg (unmet2 T a1 a2) (range (length T))
                  (fun i _ => unmet2_nonneg T a1 a2 i)).
    pose proof (sum_map_le (unmet2 T a1 a2) (unmet T a1) (range (length T))
                  (fun i _ => unmet2_le_l T a1 a2 i)).
    qhalf. lra.
  - pose proof (sum_map_nonneg (unmet2 T a1 a2) (range (length T))
                  (fun i _ => unmet2_nonneg T a1 a2 i)).
    pose proof (sum_map_le (unmet2 T a1 a2) (unmet T a2) (range (length T))
                  (fun i _ => unmet2_le_r T a1 a2 i)).
    qhalf. lra.
Qed.

Lemma partnership_cost_le_solo_scenario :
  exists pc s1 s2,
    Team3.calculate_partnership_cost [3; 3] [2; 2] [5; 5] = Normal pc
    /\ Team3.calculate_solo_cost [3; 3] [5; 5] = Normal s1
    /\ Team3.calculate_solo_cost [2; 2] [5; 5] = Normal s2
    /\ pc <= s1 /\ pc <= s2.
Proof.
  apply (partnership_cost_le_solo [5; 5] [3; 3] [2; 2]); reflexivity.
Defined.

(** C8: the solo cost is non-negative, and it is zero exactly when the
    abilities meet the task on every dimension. *)
Theorem solo_cost_zero_iff (T A : list Q) :
  length A = length T ->
  exists c,
    Team3.calculate_solo_cost A T = Normal c
    /\ 0 <= c
    /\ (c == 0 <->
        forall i t a, nth_error T i = Some t -> nth_error A i = Some a -> t <= a).
Proof.
  intro Hlen. rewrite solo_cost_eval by lia.
  eexists. split; [reflexivity|]. split.
  - apply sum_map_nonneg. intros. apply unmet_nonneg.
  - rewrite sum_map_zero_iff by (intros; apply unmet_nonneg). split.
    + intros H i t a Ht Ha.
      assert (Hi : (i < length T)%nat)
        by (apply nth_error_Some; congruence).
      specialize (H i (proj2 (in_range i _) Hi)).
      apply unmet_zero_iff in H.
      rewrite (nth_error_nth T i 0 Ht), (nth_error_nth A i 0 Ha) in H.
      exact H.
    + intros H i Hi. apply in_range in Hi.
      apply unmet_zero_iff. apply (H i).
      * apply nth_error_nth'. exact Hi.
      * apply nth_error_nth'. lia.
Qed.

Lemma solo_cost_zero_iff_scenario :
  exists c,
    Team3.calculate_solo_cost [3; 7] [5; 5] = Normal c
    /\ 0 <= c
    /\ (c == 0 <->
        forall i t a,
          nth_error [5; 5] i = Some t -> nth_error [3; 7] i = Some a -> t <= a).
Proof.
  apply (solo_cost_zero_iff [5; 5] [3; 7]). reflexivity.
Defined.

Lemma loss_phase1_eval (T : Task) (p1 p2 : Member) :
  (length T <= length (abilities p1))%nat ->
  (length T <= length (abilities p2))%nat ->
  Team6.loss_phase1 T p1 p2
  = Normal
      (sum (map (unmet2 T (abilities p1) (abilities p2)) (range (length T)))
       + Qmax 0 (sum (map (unmet2 T (abilities p1) (abilities p2)) (range (length T)))
                 - energy p1 - energy p2) / 2
       + sum (map (fun k => Qmax (Qmax (nth k (abilities p1) 0) (nth k (abilities p2) 0)
                                  - nth k T 0) 0)
                  (range (length T)))
       + sum (map (fun k => Qabs (nth k (abilities p1) 0 - nth k (abilities p2) 0))
                  (range (length T)))).
Proof.
  intros H1 H2. unfold Team6.loss_phase1.
  rewrite (mapM_total _ (unmet2 T (abilities p1) (abilities p2))).
  2:{ intros i Hi. apply in_range in Hi.
      rewrite (getitem_nth T i 0) by lia. simpl.
      rewrite (getitem_nth (abilities p1) i 0) by lia. simpl.
      rewrite (getitem_nth (abilities p2) i 0) by lia. reflexivity. }
  simpl.
  rewrite (mapM_total _
             (fun k => Qmax (Qmax (nth k (abilities p1) 0) (nth k (abilities p2) 0)
                             - nth k T 0) 0)).
  2:{ intros i Hi. apply in_range in Hi.
      rewrite (getitem_nth (abilities p1) i 0) by lia. simpl.
      rewrite (getitem_nth (abilities p2) i 0) by lia. simpl.
      rewrite (getitem_nth T i 0) by lia. reflexivity. }
  simpl.
  rewrite (mapM_total _
             (fun k => Qabs (nth k (abilities p1) 0 - nth k (abilities p2) 0))).
  2:{ intros i Hi. apply in_range in Hi.
      rewrite (getitem_nth (abilities p1) i 0) by lia. simpl.
      rewrite (getitem_nth (abilities p2) i 0) by lia. reflexivity. }
  reflexivity.
Qed.

Lemma unmet_elementwise_max (T a1 a2 : list Q) :
  length a1 = length a2 ->
  map (unmet T (elementwise_max a1 a2)) (range (length T))
  = map (unmet2 T a1 a2) (range (length T)).
Proof.
  intro H. apply map_ext. intro i. unfold unmet, unmet2.
  rewrite nth_elementwise_max by assumption. reflexivity.
Qed.

Lemma wasted_capability_index (T a1 a2 : list Q) :
  length a1 = length T -> length a2 = length T ->
  sum (map (fun k => Qmax (Qmax (nth k a1 0) (nth k a2 0) - nth k T 0) 0)
           (range (length T)))
  = wasted_capability T a1 a2.
Proof.
  intros H1 H2. unfold wasted_capability.
  rewrite <- (map_range_combine (fun t m => Qmax (m - t) 0) 0 0)
    by (rewrite length_elementwise_max; lia).
  f_equal. apply map_ext. intro i.
  rewrite nth_elementwise_max by lia. reflexivity.
Qed.

Lemma ability_mismatch_index (T a1 a2 : list Q) :
  length a1 = length T -> length a2 = length T ->
  sum (map (fun k => Qabs (nth k a1 0 - nth k a2 0)) (range (length T)))
  = ability_mismatch a1 a2.
Proof.
  intros H1 H2. unfold ability_mismatch.
  rewrite <- (map_range_combine (fun a b => Qabs (a - b)) 0 0) by lia.
  rewrite H1. reflexivity.
Qed.

(** C2 (amended): the partnership loss of the optimal solver is the solo
    cost of the elementwise-max abilities, not halved (twice the
    partnership cost), plus half of what that cost exceeds the combined
    energy by, plus the wasted capability, plus the ability mismatch. *)
Theorem loss_phase1_decomposition (task : Task) (p1 p2 : Member) :
  length (abilities p1) = length task ->
  length (abilities p2) = length task ->
  exists s pc v,
    Team3.calculate_solo_cost (elementwise_max (abilities p1) (abilities p2)) task
      = Normal s
    /\ Team3.calculate_partnership_cost (abilities p1) (abilities p2) task = Normal pc
    /\ s == 2 * pc
    /\ Team6.loss_phase1 task p1 p2 = Normal v
    /\ v == s
            + Qmax 0 (s - (energy p1 + energy p2)) / 2
            + wasted_capability task (abilities p1) (abilities p2)
            + ability_mismatch (abilities p1) (abilities p2).
Proof.
  intros H1 H2.
  rewrite solo_cost_eval by (rewrite length_elementwise_max; lia).
  rewrite partnership_cost_eval, loss_phase1_eval by lia.
  rewrite unmet_elementwise_max by lia.
  rewrite wasted_capability_index, ability_mismatch_index by assumption.
  do 3 eexists. repeat split.
  - field.
  - qminmax; qhalf; lra.
Qed.

Lemma loss_phase1_decomposition_scenario :
  exists s pc v,
    Team3.calculate_solo_cost (elementwise_max [3; 3] [2; 2]) [5; 5] = Normal s
    /\ Team3.calculate_partnership_cost [3; 3] [2; 2] [5; 5] = Normal pc
    /\ s == 2 * pc
    /\ Team6.loss_phase1 [5; 5] (fit 1 [3; 3] 10) (fit 2 [2; 2] 10) = Normal v
    /\ v == s
            + Qmax 0 (s - (10 + 10)) / 2
            + wasted_capability [5; 5] [3; 3] [2; 2]
            + ability_mismatch [3; 3] [2; 2].
Proof.
  apply (loss_phase1_decomposition [5; 5] (fit 1 [3; 3] 10) (fit 2 [2; 2] 10));
    reflexivity.
Defined.

(** C2 as stated fails: on task [[2]] with two partners of ability [[0]]
    and energy [10] every penalty is zero, the partnership cost is [1], and
    the loss is [2]. *)
Lemma loss_phase1_not_richLoss_spec :
  exists pc v,
    Team3.calculate_partnership_cost [0] [0] [2] = Normal pc
    /\ Team6.loss_phase1 [2] (fit 0 [0] 10) (fit 1 [0] 10) = Normal v
    /\ pc == 1 /\ v == 2
    /\ ~ v == richLoss_spec pc [2] [0] [0] 10 10.
Proof.
  do 2 eexists. split; [vm_compute; reflexivity|].
  split; [vm_compute; reflexivity|].
  split; [reflexivity|]. split; [reflexivity|].
  intro H. vm_compute in H. discriminate.
Qed.

(* ================================================================== *)
(** ** Entry points of the optimal-solver module *)
(* ================================================================== *)

(** C10: phase I of the optimal-solver module returns the empty list for
    every player, snapshot and random source, its matching branch being
    guarded by [PHASE_1_ASSIGNMENTS = False]. *)
Theorem optimal_phaseI_empty :
  forall (G : Type) (player : Member) (community : Community) (global_random : G),
    Team6.PHASE_1_ASSIGNMENTS = false
    /\ Team6.phaseIpreferences player community global_random = [].
Proof.
  intros. split; reflexivity.
Qed.

(* ================================================================== *)
(** ** Heuristic ranker: community statistics and the phase I floor *)
(* ================================================================== *)

Lemma len_nonzero {A : Type} (l : list A) : l <> [] -> Qeq_bool (len l) 0 = false.
Proof.
  intro H. destruct (Qeq_bool (len l) 0) eqn:E; [|reflexivity].
  apply Qeq_bool_iff in E. unfold len, Qeq in E. simpl in E.
  destruct l; [congruence | simpl in E; lia].
Qed.

Lemma truediv_nonzero (a b : Q) : Qeq_bool b 0 = false -> truediv a b = Normal (a / b).
Proof.
  intro H. unfold truediv. rewrite H. reflexivity.
Qed.

Lemma add_at_length (avg : list Q) (i : nat) (x : Q) :
  (i < length avg)%nat ->
  exists avg', Team3.add_at avg i x = Normal avg' /\ length avg' = length avg.
Proof.
  intro Hi. unfold Team3.add_at.
  rewrite (getitem_nth avg i 0 Hi). cbn [bind ret].
  eexists. split; [reflexivity|].
  rewrite length_app, length_firstn. cbn [length].
  rewrite length_skipn. lia.
Qed.

Lemma add_abilities_length (abs avg : list Q) (i : nat) :
  (i + length abs <= length avg)%nat ->
  exists avg', Team3.add_abilities avg i abs = Normal avg' /\ length avg' = length avg.
Proof.
  revert avg i. induction abs as [|a abs IH]; intros avg i H; simpl in *.
  - eauto.
  - destruct (add_at_length avg i a) as (avg1 & E1 & L1); [lia|].
    rewrite E1. simpl.
    destruct (IH avg1 (S i)) as (avg2 & E2 & L2); [lia|].
    exists avg2. split; [assumption | lia].
Qed.

Lemma accumulate_stats_total (d : nat) (ms : list Member) (avg : list Q) (total : Q) :
  Forall (fun m => length (abilities m) = d) ms ->
  length avg = d ->
  exists avg',
    Team3.accumulate_stats ms avg total
    = Normal (avg', fold_left (fun t m => t + energy m) ms total)
    /\ length avg' = d.
Proof.
  intro Hms. revert avg total.
  induction Hms as [|m ms Hm _ IH]; intros avg total Havg; simpl.
  - eauto.
  - destruct (add_abilities_length (abilities m) avg 0) as (avg1 & E1 & L1); [lia|].
    rewrite E1. simpl. apply IH. lia.
Qed.

Lemma get_community_stats_eval (d : nat) (community : Community) :
  members community <> [] ->
  Forall (fun m => length (abilities m) = d) (members community) ->
  exists avg_abilities,
    Team3.get_community_stats community
    = Normal (avg_abilities, average_energy (members community)).
Proof.
  intros Hne Hd. unfold Team3.get_community_stats.
  destruct (members community) as [|first rest] eqn:Hms; [congruence|].
  cbn [getitem nth_error bind].
  destruct (accumulate_stats_total d (first :: rest)
              (repeat 0 (length (abilities first))) 0 Hd) as (totals & E & _).
  { rewrite repeat_length. inversion Hd; assumption. }
  rewrite E. cbn [bind].
  rewrite (mapM_total _ (fun a => a / len (first :: rest))).
  2:{ intros a _. apply truediv_nonzero, len_nonzero. discriminate. }
  cbn [bind].
  rewrite truediv_nonzero by (apply len_nonzero; discriminate).
  eexists. reflexivity.
Qed.

(** C4: a player whose energy is strictly below
    [max(2, 0.25 * average energy)] gets no phase I preference from the
    heuristic ranker, whatever the tasks and the other members are. *)
Theorem phaseI_below_floor_empty {G : Type}
    (shuffle : forall A : Type, G -> list A -> list A * G)
    (player : Member) (community : Community) (global_random : G) (d : nat) :
  members community <> [] ->
  Forall (fun m => length (abilities m) = d) (members community) ->
  energy player < Qmax 2 (0.25 * average_energy (members community)) ->
  Team3.phaseIpreferences shuffle player community global_random
  = Normal ([], global_random).
Proof.
  intros Hne Hd Hlow. unfold Team3.phaseIpreferences.
  destruct (get_community_stats_eval d community Hne Hd) as (avg & E).
  rewrite E. cbn [bind].
  replace (ltb (energy player) (Qmax 2 (average_energy (members community) * 0.25)))
    with true; [reflexivity|].
  symmetry. apply ltb_true. qminmax; lra.
Qed.

Lemma phaseI_below_floor_empty_scenario :
  Team3.phaseIpreferences reversing_shuffle (fit 1 [3; 3] 1)
    (mkCommunity [fit 1 [3; 3] 1; fit 2 [2; 2] 10] [[5; 5]; [9; 9]]) tt
  = Normal ([], tt).
Proof.
  apply (phaseI_below_floor_empty reversing_shuffle (fit 1 [3; 3] 1)
           (mkCommunity [fit 1 [3; 3] 1; fit 2 [2; 2] 10] [[5; 5]; [9; 9]]) tt 2).
  - discriminate.
  - repeat constructor.
  - vm_compute. reflexivity.
Defined.

(* ================================================================== *)
(** ** Heuristic ranker: the partners phase I offers *)
(* ================================================================== *)

Lemma insert_desc_perm {A : Type} (key : A -> Q) (x : A) (l : list A) :
  Permutation (x :: l) (insert_desc key x l).
Proof.
  induction l as [|y l IH]; simpl.
  - reflexivity.
  - destruct (ltb (key x) (key y)).
    + rewrite perm_swap. constructor. exact IH.
    + reflexivity.
Qed.

Lemma sort_desc_perm {A : Type} (key : A -> Q) (l : list A) :
  Permutation l (sort_desc key l).
Proof.
  induction l as [|x l IH]; simpl.
  - constructor.
  - rewrite <- insert_desc_perm. constructor. exact IH.
Qed.

Lemma In_firstn {A : Type} (n : nat) (l : list A) (x : A) :
  In x (firstn n l) -> In x l.
Proof.
  intro H. rewrite <- (firstn_skipn n l). apply in_or_app. left. exact H.
Qed.

Lemma candidate_partners_sound (player : Member) (task : Task) (td r : Q)
    (ms : list Member) (pl : list (nat * Q * Q)) :
  Team3.candidate_partners player task td r ms = Normal pl ->
  forall pid c pr, In (pid, c, pr) pl ->
    exists partner,
      In partner ms /\ id partner = pid /\ id partner <> id player
      /\ r <= energy partner.
Proof.
  revert pl. induction ms as [|partner rest IH]; intros pl H pid c pr Hin; simpl in H.
  - injection H as <-. destruct Hin.
  - destruct ((id partner =? id player)%nat || ltb (energy partner) r) eqn:Hskip.
    + destruct (IH pl H pid c pr Hin) as (p & Hp & ?).
      exists p. split; [right; exact Hp | assumption].
    + apply orb_false_iff in Hskip as [Hid Hen].
      apply Nat.eqb_neq in Hid. apply ltb_false in Hen.
      apply bind_Normal in H as (ec & _ & H).
      apply bind_Normal in H as (st & _ & H).
      apply bind_Normal in H as (others & Hothers & H).
      assert (Hrest : In (pid, c, pr) others ->
                      exists p, In p (partner :: rest) /\ id p = pid
                                /\ id p <> id player /\ r <= energy p).
      { intro Ho. destruct (IH others Hothers pid c pr Ho) as (p & Hp & ?).
        exists p. split; [right; exact Hp | assumption]. }
      destruct (ltb ec _ && ltb ec _); injection H as <-.
      * destruct Hin as [Heq|Ho]; [|auto].
        injection Heq as <- _ _. exists partner. repeat split; auto. left; reflexivity.
      * auto.
Qed.

Lemma build_partnerships_sound (player : Member) (ms : list Member) (avg : list Q)
    (r : Q) (ts : list Task) :
  forall (i0 : nat) (ps : list (nat * list (nat * Q * Q))),
    Team3.build_partnerships player ms avg r i0 ts = Normal ps ->
    forall ti pl, In (ti, pl) ps ->
      (i0 <= ti < i0 + length ts)%nat
      /\ exists task td, Team3.candidate_partners player task td r ms = Normal pl.
Proof.
  induction ts as [|task rest IH]; intros i0 ps H ti pl Hin; simpl in H.
  - injection H as <-. destruct Hin.
  - apply bind_Normal in H as (pl0 & Hpl0 & H).
    apply bind_Normal in H as (others & Hothers & H).
    injection H as <-. destruct Hin as [Heq|Hin].
    + injection Heq as <- <-. split; [simpl; lia | eauto].
    + destruct (IH (S i0) others Hothers ti pl Hin) as (Hr & Hc).
      split; [simpl; lia | exact Hc].
Qed.

Lemma top_choices_sound (ps : list (nat * list (nat * Q * Q))) (t pid : nat) :
  In (t, pid) (Team3.top_choices ps) ->
  exists pl c pr, In (t, pl) ps /\ In (pid, c, pr) pl.
Proof.
  unfold Team3.top_choices. intro H.
  apply in_flat_map in H as ([ti pl] & Hps & H).
  apply in_map_iff in H as ([[p c] pr] & Heq & H).
  injection Heq as <- <-.
  exists pl, c, pr. split; [exact Hps|].
  apply In_firstn in H.
  eapply Permutation_in; [apply Permutation_sym, sort_desc_perm | exact H].
Qed.

Lemma phaseI_reserve_ge_1 (community : Community) (r : Q) :
  Team3.phaseI_reserve community = Normal r -> 1 <= r.
Proof.
  unfold Team3.phaseI_reserve. intro H.
  apply bind_Normal in H as (tpp & _ & H). injection H as <-.
  qminmax; lra.
Qed.

(** The partner guard of phase I: every [[task_index, partner_id]] pair
    names a valid task index and a member other than the caller whose
    energy is at least the minimum energy reserve (itself at least 1). *)
Theorem phaseI_partner_sound {G : Type}
    (shuffle : forall A : Type, G -> list A -> list A * G)
    (player : Member) (community : Community) (global_random : G)
    (out : list (nat * nat)) (g' : G) :
  shuffle_contract shuffle ->
  Team3.phaseIpreferences shuffle player community global_random = Normal (out, g') ->
  forall task_index partner_id, In (task_index, partner_id) out ->
    partner_id <> id player
    /\ (task_index < length (tasks community))%nat
    /\ exists partner r,
         In partner (members community) /\ id partner = partner_id
         /\ Team3.phaseI_reserve community = Normal r
         /\ 1 <= r /\ r <= energy partner.
Proof.
  intros Hsh H t pid Hin. unfold Team3.phaseIpreferences in H.
  apply bind_Normal in H as ([avg avg_e] & _ & H).
  destruct (ltb (energy player) _).
  { injection H as <- _. destruct Hin. }
  apply bind_Normal in H as (r & Hr & H).
  apply bind_Normal in H as (ps & Hps & H).
  unfold ret in H. injection H as H.
  assert (Hout : out = fst (shuffle _ global_random (Team3.top_choices ps)))
    by (rewrite H; reflexivity).
  subst out.
  apply (Permutation_in _ (Permutation_sym (Hsh _ _ _))) in Hin.
  apply top_choices_sound in Hin as (pl & c & pr & Hpl & Hc).
  destruct (build_partnerships_sound _ _ _ _ _ _ _ Hps _ _ Hpl)
    as (Hrange & task & td & Hcand).
  destruct (candidate_partners_sound _ _ _ _ _ _ Hcand _ _ _ Hc)
    as (partner & Hp & Hid & Hneq & Hen).
  split; [congruence|]. split; [lia|].
  exists partner, r. repeat split; auto.
  apply (phaseI_reserve_ge_1 community). exact Hr.
Qed.

Lemma reversing_shuffle_contract : shuffle_contract reversing_shuffle.
Proof.
  intros A g l. simpl. apply Permutation_rev.
Qed.

Lemma phaseI_partner_sound_scenario :
  2%nat <> 1%nat
  /\ (0 < 1)%nat
  /\ exists partner r,
       In partner [fit 1 [3; 3] 10; fit 2 [2; 2] 10] /\ id partner = 2%nat
       /\ Team3.phaseI_reserve (mkCommunity [fit 1 [3; 3] 10; fit 2 [2; 2] 10] [[5; 5]])
          = Normal r
       /\ 1 <= r /\ r <= energy partner.
Proof.
  apply (phaseI_partner_sound reversing_shuffle (fit 1 [3; 3] 10)
           (mkCommunity [fit 1 [3; 3] 10; fit 2 [2; 2] 10] [[5; 5]]) tt
           [(0%nat, 2%nat)] tt reversing_shuffle_contract).
  - vm_compute. reflexivity.
  - left. reflexivity.
Defined.

(** The guard reads the partner's energy, never its flag: on a snapshot
    that breaks the data model (flag set at full energy) the flagged
    member is offered, so the invariant below cannot be dropped. *)
Lemma phaseI_offers_flagged_partner :
  exists out,
    Team3.phaseIpreferences reversing_shuffle (fit 0 [0] 10)
      (mkCommunity [fit 0 [0] 10; mkMember 1 [5] 10 true] [[5]]) tt
    = Normal (out, tt)
    /\ In (0%nat, 1%nat) out
    /\ exists partner,
         In partner [fit 0 [0] 10; mkMember 1 [5] 10 true]
         /\ id partner = 1%nat /\ incapacitated partner = true.
Proof.
  exists [(0%nat, 1%nat)]. split; [vm_compute; reflexivity|].
  split; [left; reflexivity|].
  exists (mkMember 1 [5] 10 true). split; [right; left; reflexivity|].
  split; reflexivity.
Qed.

(* ================================================================== *)
(** ** Heuristic ranker: phase II selection and randomization *)
(* ================================================================== *)

Lemma evaluate_task_suitability_cost (player : Member) (task : Task) (avg : list Q)
    (s c : Q) :
  Team3.evaluate_task_suitability player task avg = Normal (s, c) ->
  Team3.calculate_solo_cost (abilities player) task = Normal c.
Proof.
  unfold Team3.evaluate_task_suitability. intro H.
  apply bind_Normal in H as (c0 & Hc & H). rewrite Hc.
  apply bind_Normal in H as (? & _ & H).
  apply bind_Normal in H as (? & _ & H).
  apply bind_Normal in H as (? & _ & H).
  apply bind_Normal in H as (? & _ & H).
  injection H as _ <-. reflexivity.
Qed.

Lemma evaluate_tasks_sound (player : Member) (avg : list Q) (avail : Q)
    (ts : list Task) :
  forall (i0 : nat) (evs : list (nat * Q * Q)),
    Team3.evaluate_tasks player avg avail i0 ts = Normal evs ->
    forall i s c, In (i, s, c) evs ->
      exists task,
        (i0 <= i)%nat /\ nth_error ts (i - i0) = Some task
        /\ Team3.calculate_solo_cost (abilities player) task = Normal c
        /\ c < avail /\ 0 < s /\ c <= energy player * 0.7.
Proof.
  induction ts as [|task rest IH]; intros i0 evs H i s c Hin; simpl in H.
  - injection H as <-. destruct Hin.
  - apply bind_Normal in H as ([s0 c0] & Hev & H).
    apply bind_Normal in H as (others & Hothers & H).
    assert (Hrest : In (i, s, c) others ->
                    exists task', (i0 <= i)%nat
                      /\ nth_error (task :: rest) (i - i0) = Some task'
                      /\ Team3.calculate_solo_cost (abilities player) task' = Normal c
                      /\ c < avail /\ 0 < s /\ c <= energy player * 0.7).
    { intro Ho. destruct (IH (S i0) others Hothers i s c Ho) as (t & Hle & Hn & Hr).
      exists t. split; [lia|]. split; [|exact Hr].
      replace (i - i0)%nat with (S (i - S i0)) by lia. exact Hn. }
    destruct (ltb c0 avail && ltb 0 s0 && leb c0 (energy player * 0.7)) eqn:Hc;
      injection H as <-; [|auto].
    destruct Hin as [Heq|Ho]; [|auto].
    injection Heq as <- <- <-.
    apply andb_true_iff in Hc as [Hc H3]. apply andb_true_iff in Hc as [H1 H2].
    apply ltb_true in H1. apply ltb_true in H2. apply leb_true in H3.
    exists task. split; [lia|]. rewrite Nat.sub_diag. split; [reflexivity|].
    split; [|auto]. eapply evaluate_task_suitability_cost. exact Hev.
Qed.

(** The greedy loop accepts an item only while the running budget is at
    least the reserve. *)
Lemma select_loop_budget (evs : list (nat * Q * Q)) (r : Q) :
  forall remaining : Q,
    r <= remaining ->
    exists costs,
      Forall2 (fun i c => exists s, In (i, s, c) evs)
              (Team3.select_loop evs remaining r) costs
      /\ forall k, (k < length costs)%nat -> r <= remaining - sum (firstn k costs).
Proof.
  induction evs as [|[[i s] c] rest IH]; intros remaining Hr; simpl.
  - exists []. split; [constructor | simpl; lia].
  - destruct (leb c remaining) eqn:Hfit.
    + destruct (ltb (remaining - c) r) eqn:Hlow.
      * exists [c]. split.
        -- constructor; [|constructor]. exists s. left. reflexivity.
        -- intros [|k] Hk; simpl in *; [|lia]. rewrite sum_nil. lra.
      * apply ltb_false in Hlow.
        destruct (IH (remaining - c) Hlow) as (costs & HF & Hb).
        exists (c :: costs). split.
        -- constructor.
           ++ exists s. left. reflexivity.
           ++ eapply Forall2_impl; [|exact HF].
              intros a b (s' & Hs'). exists s'. right. exact Hs'.
        -- intros [|k] Hk; simpl in *.
           ++ rewrite sum_nil. lra.
           ++ rewrite sum_cons. specialize (Hb k ltac:(lia)). lra.
    + destruct (IH remaining Hr) as (costs & HF & Hb).
      exists costs. split; [|exact Hb].
      eapply Forall2_impl; [|exact HF].
      intros a b (s' & Hs'). exists s'. right. exact Hs'.
Qed.

Lemma chunkwise_perm {A : Type} (size : nat) (l l' : list A) :
  chunkwise size l l' -> Permutation l l'.
Proof.
  induction 1 as [l l' _ Hp | a a' b b' _ Hp _ IH].
  - exact Hp.
  - apply Permutation_app; assumption.
Qed.

Lemma chunkwise_chunk {A : Type} (size : nat) (l l' : list A) :
  chunkwise size l l' ->
  forall k, Permutation (chunk size k l) (chunk size k l').
Proof.
  unfold chunk.
  induction 1 as [l l' Hlen Hp | a a' b b' Hlen Hp _ IH]; intros [|k].
  - simpl. rewrite !firstn_all2; [exact Hp | | exact Hlen].
    rewrite <- (Permutation_length Hp). exact Hlen.
  - rewrite !skipn_all2; [reflexivity | |].
    + rewrite <- (Permutation_length Hp). simpl. lia.
    + simpl. lia.
  - simpl.
    rewrite !firstn_app, Hlen, <- (Permutation_length Hp), Hlen, Nat.sub_diag.
    rewrite !firstn_O, !app_nil_r, !firstn_all2; [exact Hp | | lia].
    rewrite <- (Permutation_length Hp). lia.
  - change (S k * size)%nat with (size + k * size)%nat.
    rewrite !skipn_app, <- (Permutation_length Hp), Hlen.
    rewrite (skipn_all2 a) by lia.
    rewrite (skipn_all2 a') by (rewrite <- (Permutation_length Hp); lia).
    replace (size + k * size - size)%nat with (k * size)%nat by lia.
    simpl. apply IH.
Qed.

Lemma shuffle_groups_chunkwise {G : Type}
    (shuffle : forall A : Type, G -> list A -> list A * G) (size : nat) :
  shuffle_contract shuffle ->
  (0 < size)%nat ->
  forall (fuel : nat) (pre rest : list nat) (g : G) (i stop : nat),
    (length rest <= fuel)%nat ->
    i = length pre ->
    stop = (i + length rest)%nat ->
    exists rest',
      fst (Team3.shuffle_groups shuffle (range_from fuel i stop size) size
             (pre ++ rest) g)
      = pre ++ rest'
      /\ chunkwise size rest rest'.
Proof.
  intros Hsh Hsize.
  induction fuel as [|fuel IH]; intros pre rest g i stop Hfuel Hi Hstop.
  - destruct rest; [|simpl in Hfuel; lia].
    exists []. split; [reflexivity|]. apply chunkwise_last; simpl; [lia | constructor].
  - simpl. destruct (i <? stop)%nat eqn:Hlt.
    2:{ apply Nat.ltb_ge in Hlt. destruct rest; [|simpl in Hstop; lia].
        exists []. split; [reflexivity|].
        apply chunkwise_last; simpl; [lia | constructor]. }
    simpl.
    assert (Hgroup : firstn size (skipn i (pre ++ rest)) = firstn size rest).
    { rewrite skipn_app, Hi, skipn_all, Nat.sub_diag. reflexivity. }
    rewrite Hgroup.
    pose proof (Hsh nat g (firstn size rest)) as Hp.
    destruct (shuffle nat g (firstn size rest)) as [group' g1]. simpl in Hp.
    assert (Hnew : firstn i (pre ++ rest) ++ group' ++ skipn (i + size) (pre ++ rest)
                   = (pre ++ group') ++ skipn size rest).
    { rewrite firstn_app, Hi, firstn_all, Nat.sub_diag, firstn_O, app_nil_r.
      rewrite skipn_app, skipn_all2 by lia.
      replace (length pre + size - length pre)%nat with size by lia.
      simpl. rewrite app_assoc. reflexivity. }
    rewrite Hnew.
    destruct (Nat.le_gt_cases (length rest) size) as [Hshort|Hlong].
    + rewrite skipn_all2 by exact Hshort.
      assert (Hdone : range_from fuel (i + size) stop size = []).
      { destruct fuel; [reflexivity|]. simpl.
        replace (i + size <? stop)%nat with false; [reflexivity|].
        symmetry. apply Nat.ltb_ge. lia. }
      rewrite Hdone. simpl. exists group'. split.
      * rewrite app_nil_r. reflexivity.
      * apply chunkwise_last; [exact Hshort|].
        rewrite firstn_all2 in Hp by exact Hshort. exact Hp.
    + assert (Hglen : length group' = size).
      { rewrite <- (Permutation_length Hp), length_firstn. lia. }
      destruct (IH (pre ++ group') (skipn size rest) g1 (i + size)%nat stop)
        as (rest2' & Hout & Hch).
      * rewrite length_skipn. lia.
      * rewrite length_app. lia.
      * rewrite length_skipn. lia.
      * exists (group' ++ rest2'). split.
        -- rewrite Hout, app_assoc. reflexivity.
        -- rewrite <- (firstn_skipn size rest) at 1.
           apply chunkwise_more; [rewrite length_firstn; lia | exact Hp | exact Hch].
Qed.

Lemma group_size_pos (selected_tasks : list nat) :
  (0 < Team3.group_size selected_tasks)%nat.
Proof. unfold Team3.group_size. lia. Qed.

Lemma randomize_chunkwise {G : Type}
    (shuffle : forall A : Type, G -> list A -> list A * G)
    (selected : list nat) (g : G) :
  shuffle_contract shuffle ->
  chunkwise (Team3.group_size selected) selected
            (fst (Team3.randomize shuffle selected g)).
Proof.
  intro Hsh. unfold Team3.randomize.
  destruct selected as [|x xs] eqn:E.
  - apply chunkwise_last; simpl; [lia | constructor].
  - rewrite <- E. unfold range_step.
    destruct (shuffle_groups_chunkwise shuffle (Team3.group_size selected) Hsh
                (group_size_pos selected) (length selected) [] selected g
                0%nat (length selected)) as (rest' & Hout & Hch);
      [lia | reflexivity | reflexivity |].
    simpl in Hout. rewrite Hout. exact Hch.
Qed.

Lemma phaseII_output {G : Type}
    (shuffle : forall A : Type, G -> list A -> list A * G)
    (player : Member) (community : Community) (g g' : G) (out : list nat) :
  Team3.phaseIIpreferences shuffle player community g = Normal (out, g') ->
  exists selected,
    accepted_tasks player community = Normal selected
    /\ out = fst (Team3.randomize shuffle selected g).
Proof.
  unfold Team3.phaseIIpreferences, accepted_tasks. intro H.
  apply bind_Normal in H as (selection & Hsel & H). rewrite Hsel. cbn [bind ret].
  destruct selection as [selected|]; unfold ret in H; injection H as H.
  - exists selected. split; [reflexivity|]. rewrite H. reflexivity.
  - exists []. split; [reflexivity|]. simpl. congruence.
Qed.

(** C5: every task index phase II of the heuristic ranker returns costs
    the player at most 70% of its energy, and in the greedy selection the
    running budget (energy minus reserve, minus the costs accepted so far)
    is at least the reserve whenever an item is accepted, so it can fall
    below the reserve only with the last accepted item. *)
Theorem phaseII_ceiling_and_budget {G : Type}
    (shuffle : forall A : Type, G -> list A -> list A * G)
    (player : Member) (community : Community) (global_random : G)
    (out : list nat) (g' : G) :
  shuffle_contract shuffle ->
  Team3.phaseIIpreferences shuffle player community global_random = Normal (out, g') ->
  (forall i, In i out ->
     exists task c,
       nth_error (tasks community) i = Some task
       /\ Team3.calculate_solo_cost (abilities player) task = Normal c
       /\ c <= energy player * 0.7)
  /\ exists r selected costs,
       Team3.phaseII_reserve community = Normal r
       /\ accepted_tasks player community = Normal selected
       /\ Permutation selected out
       /\ Forall2 (fun i c =>
                     exists task,
                       nth_error (tasks community) i = Some task
                       /\ Team3.calculate_solo_cost (abilities player) task = Normal c
                       /\ c <= energy player * 0.7)
                  selected costs
       /\ forall k, (k < length selected)%nat ->
            r <= (energy player - r) - sum (firstn k costs).
Proof.
  intros Hsh H.
  destruct (phaseII_output shuffle player community _ _ _ H) as (selected & Hacc & Hout).
  assert (Hperm : Permutation selected out).
  { subst out. apply (chunkwise_perm (Team3.group_size selected)).
    apply randomize_chunkwise. exact Hsh. }
  assert (Hmain : exists r costs,
             Team3.phaseII_reserve community = Normal r
             /\ Forall2 (fun i c =>
                     exists task,
                       nth_error (tasks community) i = Some task
                       /\ Team3.calculate_solo_cost (abilities player) task = Normal c
                       /\ c <= energy player * 0.7)
                  selected costs
             /\ forall k, (k < length selected)%nat ->
                  r <= (energy player - r) - sum (firstn k costs)).
  { unfold accepted_tasks, Team3.select_tasks in Hacc.
    apply bind_Normal in Hacc as (selection & Hsel & Hacc).
    apply bind_Normal in Hsel as (avg & _ & Hsel).
    apply bind_Normal in Hsel as (r & Hr & Hsel).
    exists r.
    destruct (ltb (energy player) (r * 2)) eqn:Hlow.
    - injection Hsel as <-. injection Hacc as <-.
      exists []. split; [exact Hr|]. split; [constructor | simpl; lia].
    - apply ltb_false in Hlow.
      apply bind_Normal in Hsel as (evs & Hevs & Hsel).
      injection Hsel as <-. injection Hacc as <-.
      destruct (select_loop_budget
                  (sort_desc (fun x => snd (fst x)) evs) r (energy player - r))
        as (costs & HF & Hb); [lra|].
      exists costs. split; [exact Hr|]. split.
      + eapply Forall2_impl; [|exact HF].
        intros i c (s & Hin).
        eapply Permutation_in in Hin; [|apply Permutation_sym, sort_desc_perm].
        destruct (evaluate_tasks_sound _ _ _ _ _ _ Hevs _ _ _ Hin)
          as (task & _ & Hn & Hc & _ & _ & H70).
        rewrite Nat.sub_0_r in Hn. exists task. auto.
      + intros k Hk. apply Hb. rewrite <- (Forall2_length HF). exact Hk. }
  destruct Hmain as (r & costs & Hr & HF & Hb).
  split.
  - intros i Hi.
    apply (Permutation_in _ (Permutation_sym Hperm)) in Hi.
    clear - HF Hi. induction HF as [|j c sel cs Hj _ IH]; [destruct Hi|].
    destruct Hi as [<-|Hi]; [|auto].
    destruct Hj as (task & ?). exists task, c. assumption.
  - exists r, selected, costs. auto.
Qed.

(** C9 (amended): the final randomization of phase II rearranges the
    accepted, suitability-sorted list only inside contiguous groups of
    [max(1, acceptedCount // 3)] elements (a third rounded down, at least
    one): every such group holds the same task indices before and after. *)
Theorem phaseII_shuffle_within_groups {G : Type}
    (shuffle : forall A : Type, G -> list A -> list A * G)
    (player : Member) (community : Community) (global_random : G)
    (out : list nat) (g' : G) :
  shuffle_contract shuffle ->
  Team3.phaseIIpreferences shuffle player community global_random = Normal (out, g') ->
  exists selected,
    accepted_tasks player community = Normal selected
    /\ Team3.group_size selected = Nat.max 1 (length selected / 3)
    /\ forall k,
         Permutation (chunk (Team3.group_size selected) k selected)
                     (chunk (Team3.group_size selected) k out).
Proof.
  intros Hsh H.
  destruct (phaseII_output shuffle player community _ _ _ H) as (selected & Hacc & Hout).
  exists selected. split; [exact Hacc|]. split; [reflexivity|].
  subst out. apply chunkwise_chunk. apply randomize_chunkwise. exact Hsh.
Qed.

Lemma phaseII_ceiling_and_budget_scenario :
  (forall i, In i [2; 0; 1]%nat ->
     exists task c,
       nth_error [[1; 2]; [6; 1]; [1; 1]; [9; 9]] i = Some task
       /\ Team3.calculate_solo_cost [5; 1] task = Normal c
       /\ c <= 10 * 0.7)
  /\ exists r selected costs,
       Team3.phaseII_reserve
         (mkCommunity [fit 1 [5; 1] 10; fit 2 [1; 1] 10]
                      [[1; 2]; [6; 1]; [1; 1]; [9; 9]]) = Normal r
       /\ accepted_tasks (fit 1 [5; 1] 10)
            (mkCommunity [fit 1 [5; 1] 10; fit 2 [1; 1] 10]
                         [[1; 2]; [6; 1]; [1; 1]; [9; 9]]) = Normal selected
       /\ Permutation selected [2; 0; 1]%nat
       /\ Forall2 (fun i c =>
                     exists task,
                       nth_error [[1; 2]; [6; 1]; [1; 1]; [9; 9]] i = Some task
                       /\ Team3.calculate_solo_cost [5; 1] task = Normal c
                       /\ c <= 10 * 0.7)
                  selected costs
       /\ forall k, (k < length selected)%nat ->
            r <= (10 - r) - sum (firstn k costs).
Proof.
  apply (phaseII_ceiling_and_budget reversing_shuffle (fit 1 [5; 1] 10)
           (mkCommunity [fit 1 [5; 1] 10; fit 2 [1; 1] 10]
                        [[1; 2]; [6; 1]; [1; 1]; [9; 9]])
           tt [2; 0; 1]%nat tt reversing_shuffle_contract).
  vm_compute. reflexivity.
Defined.

Lemma phaseII_shuffle_within_groups_scenario :
  exists selected,
    accepted_tasks (fit 1 [5] 10)
      (mkCommunity [fit 1 [5] 10] [[1]; [1]; [1]; [1]; [1]; [1]; [1]]) = Normal selected
    /\ Team3.group_size selected = Nat.max 1 (length selected / 3)
    /\ forall k,
         Permutation (chunk (Team3.group_size selected) k selected)
                     (chunk (Team3.group_size selected) k [1; 0; 3; 2; 5; 4; 6]%nat).
Proof.
  apply (phaseII_shuffle_within_groups reversing_shuffle (fit 1 [5] 10)
           (mkCommunity [fit 1 [5] 10] [[1]; [1]; [1]; [1]; [1]; [1]; [1]])
           tt [1; 0; 3; 2; 5; 4; 6]%nat tt reversing_shuffle_contract).
  vm_compute. reflexivity.
Defined.

(** C9 as stated fails: with seven accepted tasks the source shuffles
    groups of two, so the first group of [ceil(7/3) = 3] tasks does not
    hold the same indices afterwards. *)
Lemma phaseII_groups_not_ceiling :
  exists selected out,
    accepted_tasks (fit 1 [5] 10)
      (mkCommunity [fit 1 [5] 10] [[1]; [1]; [1]; [1]; [1]; [1]; [1]]) = Normal selected
    /\ Team3.phaseIIpreferences reversing_shuffle (fit 1 [5] 10)
         (mkCommunity [fit 1 [5] 10] [[1]; [1]; [1]; [1]; [1]; [1]; [1]]) tt
       = Normal (out, tt)
    /\ shuffle_contract reversing_shuffle
    /\ group_size_spec (length selected) = 3%nat
    /\ Team3.group_size selected = 2%nat
    /\ ~ Permutation (chunk (group_size_spec (length selected)) 0 selected)
                     (chunk (group_size_spec (length selected)) 0 out).
Proof.
  exists [0; 1; 2; 3; 4; 5; 6]%nat, [1; 0; 3; 2; 5; 4; 6]%nat.
  split; [vm_compute; reflexivity|].
  split; [vm_compute; reflexivity|].
  split; [exact reversing_shuffle_contract|].
  split; [reflexivity|]. split; [reflexivity|].
  intro Hp. change (Permutation [0; 1; 2]%nat [1; 0; 3]%nat) in Hp.
  assert (Hin : In 2%nat [1; 0; 3]%nat)
    by (apply (Permutation_in _ Hp); simpl; auto).
  simpl in Hin. intuition discriminate.
Qed.

(* ================================================================== *)
(** ** Optimal solver: the matching step *)
(* ================================================================== *)

Lemma mapM_defined {A B : Type} (f : A -> result B) (xs : list A) :
  (forall x, In x xs -> exists y, f x = Normal y) ->
  exists ys, mapM f xs = Normal ys.
Proof.
  induction xs as [|x xs IH]; intro H; simpl.
  - eauto.
  - destruct (H x (or_introl eq_refl)) as (y & Hy). rewrite Hy. simpl.
    destruct IH as (ys & Hys); [intros; apply H; right; assumption|].
    rewrite Hys. simpl. eauto.
Qed.

Lemma argmin_le {A : Type} (cost : A -> Q) (xs : list A) :
  forall best x, In x (best :: xs) -> cost (Scipy.argmin cost best xs) <= cost x.
Proof.
  induction xs as [|y xs IH]; intros best x Hin; simpl.
  - destruct Hin as [<-|[]]. lra.
  - set (b := if ltb (cost y) (cost best) then y else best).
    assert (Hb : cost b <= cost best /\ cost b <= cost y).
    { unfold b. destruct (ltb (cost y) (cost best)) eqn:E.
      - apply ltb_true in E. lra.
      - apply ltb_false in E. lra. }
    pose proof (IH b b (or_introl eq_refl)) as H0.
    destruct Hin as [<-|[<-|Hin]].
    + lra.
    + lra.
    + apply IH. right. exact Hin.
Qed.

Lemma argmin_in {A : Type} (cost : A -> Q) (xs : list A) :
  forall best, In (Scipy.argmin cost best xs) (best :: xs).
Proof.
  induction xs as [|y xs IH]; intro best; simpl.
  - left. reflexivity.
  - destruct (IH (if ltb (cost y) (cost best) then y else best)) as [H|H].
    + destruct (ltb (cost y) (cost best)); rewrite <- H; auto.
    + auto.
Qed.

Lemma matchings_sound (rows : list nat) :
  forall cols p, In p (Scipy.matchings rows cols) ->
    forall r c, In (r, c) p -> In r rows /\ In c cols.
Proof.
  induction rows as [|r0 rows IH]; intros cols p Hp r c Hin; simpl in Hp.
  - destruct Hp as [<-|[]]. destruct Hin.
  - apply in_app_or in Hp as [Hp|Hp].
    + apply in_flat_map in Hp as (c0 & Hc0 & Hp).
      apply in_map_iff in Hp as (p' & <- & Hp').
      destruct Hin as [Heq|Hin].
      * injection Heq as <- <-. split; [left; reflexivity | exact Hc0].
      * destruct (IH _ _ Hp' _ _ Hin) as (Hr & Hc).
        split; [right; exact Hr|]. apply in_remove in Hc. tauto.
    + destruct (IH _ _ Hp _ _ Hin) as (Hr & Hc). split; [right; exact Hr | exact Hc].
Qed.

Lemma matchings_complete (rows : list nat) :
  forall cols sigma,
    length sigma = length rows -> NoDup sigma -> incl sigma cols ->
    In (combine rows sigma) (Scipy.matchings rows cols).
Proof.
  induction rows as [|r rows IH]; intros cols sigma Hlen Hnd Hincl.
  - left. reflexivity.
  - destruct sigma as [|c sigma]; [discriminate|]. simpl.
    apply in_or_app. left. apply in_flat_map. exists c. split.
    + apply Hincl. left. reflexivity.
    + apply in_map. inversion Hnd as [|? ? Hc Hnd']; subst.
      apply IH; [simpl in Hlen; lia | exact Hnd' |].
      intros x Hx. apply in_in_remove.
      * intros ->. contradiction.
      * apply Hincl. right. exact Hx.
Qed.

Lemma combine_fst_snd {A B : Type} (p : list (A * B)) :
  combine (map fst p) (map snd p) = p.
Proof.
  induction p as [|[a b] p IH]; simpl; [reflexivity | rewrite IH; reflexivity].
Qed.

Lemma total_cost_of_matching (M : list (list Q)) (p : list (nat * nat)) :
  Team6.total_cost_of M (map fst p) (map snd p) = Scipy.matching_cost M p.
Proof.
  unfold Team6.total_cost_of, Scipy.matching_cost.
  rewrite (map_range_combine (Scipy.cell M) O O) by (rewrite !length_map; reflexivity).
  rewrite combine_fst_snd. reflexivity.
Qed.

(** What the solver returns: a matching inside the matrix, of least cost
    among all total assignments of rows to distinct columns. *)
Lemma linear_sum_assignment_spec (M : list (list Q)) :
  exists p,
    Scipy.linear_sum_assignment M = (map fst p, map snd p)
    /\ (forall r c, In (r, c) p -> (r < length M)%nat /\ (c < Scipy.num_cols M)%nat)
    /\ forall sigma,
         feasible (length M) (Scipy.num_cols M) sigma ->
         Scipy.matching_cost M p <= assignment_cost M sigma.
Proof.
  unfold Scipy.linear_sum_assignment.
  set (n := length M). set (m := Scipy.num_cols M).
  set (cands := filter (fun p => (length p =? Nat.min n m)%nat)
                       (Scipy.matchings (seq 0 n) (seq 0 m))).
  assert (Hsound : forall p, In p cands ->
            forall r c, In (r, c) p -> (r < n)%nat /\ (c < m)%nat).
  { intros p Hp r c Hin. apply filter_In in Hp as [Hp _].
    destruct (matchings_sound _ _ _ Hp _ _ Hin) as (Hr & Hc).
    apply in_seq in Hr, Hc. lia. }
  assert (Hcomplete : forall sigma, feasible n m sigma ->
            In (combine (seq 0 (length sigma)) sigma) cands).
  { intros sigma (Hlen & Hnd & Hlt).
    assert (Hincl : incl sigma (seq 0 m)).
    { intros c Hc. apply in_seq. rewrite Forall_forall in Hlt.
      specialize (Hlt c Hc). lia. }
    apply filter_In. split.
    - rewrite Hlen. apply matchings_complete;
        [rewrite length_seq; exact Hlen | exact Hnd | exact Hincl].
    - apply Nat.eqb_eq. rewrite length_combine, length_seq, Nat.min_id.
      pose proof (NoDup_incl_length Hnd Hincl) as Hle.
      rewrite length_seq in Hle. lia. }
  destruct cands as [|p0 ps] eqn:Hc.
  - exists []. split; [reflexivity|]. split; [intros ? ? []|].
    intros sigma Hf. destruct (Hcomplete sigma Hf).
  - exists (Scipy.argmin (Scipy.matching_cost M) p0 ps).
    split; [reflexivity|]. split.
    + apply Hsound. apply argmin_in.
    + intros sigma Hf. unfold assignment_cost. apply argmin_le.
      apply Hcomplete. exact Hf.
Qed.

Lemma mapM_length {A B : Type} (f : A -> result B) (xs : list A) (ys : list B) :
  mapM f xs = Normal ys -> length ys = length xs.
Proof.
  intro H. symmetry. exact (Forall2_length (mapM_Normal f xs ys H)).
Qed.

Lemma mapM_Forall {A B : Type} (f : A -> result B) (P : B -> Prop)
    (xs : list A) (ys : list B) :
  mapM f xs = Normal ys ->
  (forall x y, In x xs -> f x = Normal y -> P y) ->
  Forall P ys.
Proof.
  intros H HP. apply mapM_Normal in H.
  induction H as [|x y xs ys Hxy _ IH]; constructor.
  - apply (HP x); [left; reflexivity | exact Hxy].
  - apply IH. intros x' y' Hin. apply HP. right. exact Hin.
Qed.

Lemma all_partnerships_range (num_members i1 i2 : nat) :
  In (i1, i2) (Team6.all_partnerships num_members) -> (i1 < i2 < num_members)%nat.
Proof.
  unfold Team6.all_partnerships. intro H.
  apply in_flat_map in H as (i & Hi & H). apply in_range in Hi.
  apply in_map_iff in H as (j & Heq & Hj). injection Heq as <- <-.
  apply in_seq in Hj. lia.
Qed.

Lemma loss_phase2_defined (task : Task) (abs : list Q) (e : Q) :
  (length abs <= length task)%nat ->
  exists v, Team6.loss_phase2 task abs e = Normal v.
Proof.
  intro H. unfold Team6.loss_phase2.
  rewrite (mapM_total _ (fun k => Qmax (nth k task 0 - nth k abs 0) 0)).
  - simpl. eauto.
  - intros k Hk. apply in_range in Hk.
    rewrite (getitem_nth task k 0) by lia. simpl.
    rewrite (getitem_nth abs k 0) by lia. reflexivity.
Qed.

Lemma phase1_cost_matrix_defined (d : nat) (tasks : list Task) (members : list Member) :
  Forall (fun m => length (abilities m) = d) members ->
  Forall (fun t => length t = d) tasks ->
  exists M,
    Team6.phase1_cost_matrix tasks members = Normal M
    /\ length M = length tasks
    /\ Forall (fun row =>
                 length row
                 = (length (Team6.all_partnerships (length members)) + length members)%nat)
              M.
Proof.
  intros Hm Ht. rewrite Forall_forall in Hm, Ht.
  unfold Team6.phase1_cost_matrix.
  set (F1 := fun task : Task => mapM _ (Team6.all_partnerships (length members))).
  set (F2 := fun task : Task => mapM _ members).
  destruct (mapM_defined F1 tasks) as (pair_costs & Hpc).
  { intros task Htask. unfold F1. apply mapM_defined.
    intros [i1 i2] Hin. apply all_partnerships_range in Hin.
    rewrite (getitem_nth members i1 (fit 0 [] 0)) by lia. cbn [bind].
    rewrite (getitem_nth members i2 (fit 0 [] 0)) by lia. cbn [bind].
    rewrite loss_phase1_eval; [eauto | |];
      rewrite (Ht task Htask), Hm; [lia | apply nth_In; lia | lia | apply nth_In; lia]. }
  destruct (mapM_defined F2 tasks) as (solo_costs & Hsc).
  { intros task Htask. unfold F2. apply mapM_defined.
    intros m Hin. apply loss_phase2_defined.
    rewrite (Ht task Htask), (Hm m Hin). lia. }
  rewrite Hpc. cbn [bind]. rewrite Hsc. cbn [bind ret].
  eexists. split; [reflexivity|]. split.
  - rewrite length_map, length_combine,
      (mapM_length _ _ _ Hpc), (mapM_length _ _ _ Hsc). lia.
  - assert (H1 : Forall (fun row => length row
                              = length (Team6.all_partnerships (length members)))
                        pair_costs).
    { eapply mapM_Forall; [exact Hpc|].
      intros task row _ Hrow. exact (mapM_length _ _ _ Hrow). }
    assert (H2 : Forall (fun row => length row = length members) solo_costs).
    { eapply mapM_Forall; [exact Hsc|].
      intros task row _ Hrow. exact (mapM_length _ _ _ Hrow). }
    rewrite Forall_forall in H1, H2.
    apply Forall_forall. intros row Hrow.
    apply in_map_iff in Hrow as ([a b] & <- & Hab).
    rewrite length_app.
    rewrite (H1 a (in_combine_l _ _ _ _ Hab)), (H2 b (in_combine_r _ _ _ _ Hab)).
    reflexivity.
Qed.

Lemma phase1_assignment_defined (tasks : list Task) (members : list Member)
    (M : list (list Q)) (r c : nat) :
  (r < length tasks)%nat ->
  (c < length (Team6.all_partnerships (length members)) + length members)%nat ->
  exists a, Team6.phase1_assignment tasks members M r c = Normal a.
Proof.
  intros Hr Hc. unfold Team6.phase1_assignment.
  rewrite (getitem_nth tasks r []) by exact Hr. cbn [bind].
  destruct (c <? length (Team6.all_partnerships (length members)))%nat eqn:E.
  - apply Nat.ltb_lt in E.
    rewrite (getitem_nth _ c (O, O)) by exact E. cbn [bind].
    pose proof (nth_In (Team6.all_partnerships (length members)) (O, O) E) as Hin.
    destruct (nth c (Team6.all_partnerships (length members)) (O, O)) as [i1 i2].
    apply all_partnerships_range in Hin.
    rewrite (getitem_nth members i1 (fit 0 [] 0)) by lia. cbn [bind].
    rewrite (getitem_nth members i2 (fit 0 [] 0)) by lia. cbn [bind ret].
    eauto.
  - apply Nat.ltb_ge in E.
    rewrite (getitem_nth members _ (fit 0 [] 0)) by lia. cbn [bind ret].
    eauto.
Qed.

Lemma phase1_assignment_loss (tasks : list Task) (members : list Member)
    (M : list (list Q)) (r c : nat) (a : list nat * Task * Q) :
  Team6.phase1_assignment tasks members M r c = Normal a ->
  snd a = Scipy.cell M r c.
Proof.
  unfold Team6.phase1_assignment. intro H.
  apply bind_Normal in H as (task & _ & H).
  destruct (c <? _)%nat.
  - apply bind_Normal in H as ([i1 i2] & _ & H).
    apply bind_Normal in H as (m1 & _ & H).
    apply bind_Normal in H as (m2 & _ & H).
    injection H as <-. reflexivity.
  - apply bind_Normal in H as (m & _ & H).
    injection H as <-. reflexivity.
Qed.

Lemma feasible_matrix (tasks : list Task) (M : list (list Q)) (m : nat)
    (sigma : list nat) :
  length M = length tasks ->
  Forall (fun row => length row = m) M ->
  feasible (length tasks) m sigma ->
  feasible (length M) (Scipy.num_cols M) sigma.
Proof.
  intros Hlen Hrows (Hs & Hnd & Hlt). rewrite Hlen.
  destruct M as [|row M'].
  - simpl in Hlen. rewrite <- Hlen in *.
    destruct sigma; [|discriminate].
    repeat split; [constructor | constructor].
  - inversion Hrows; subst. simpl. repeat split; assumption.
Qed.

(* ================================================================== *)
(** ** The never-raise contract of the entry points *)
(* ================================================================== *)

Lemma filter_none {A : Type} (p : A -> bool) (l : list A) :
  (forall x, In x l -> p x = false) -> filter p l = [].
Proof.
  induction l as [|x l IH]; intro H; simpl.
  - reflexivity.
  - rewrite (H x (or_introl eq_refl)). apply IH.
    intros y Hy. apply H. right. exact Hy.
Qed.

(** Scoring a task whose difficulty vector is all zeros always ends in a
    division by zero: no dimension is "required", so the relative-strength
    average has an empty denominator. *)
Lemma evaluate_all_zero_task_raises (player : Member) (avg : list Q) (d : nat) :
  (d <= length (abilities player))%nat ->
  Team3.evaluate_task_suitability player (repeat 0 d) avg = Raise ZeroDivisionError.
Proof.
  intro Hd. unfold Team3.evaluate_task_suitability.
  rewrite solo_cost_eval by (rewrite repeat_length; exact Hd). cbn [bind].
  rewrite (mapM_total _ (fun i => leb (nth i (repeat 0 d) 0)
                                      (nth i (abilities player) 0))).
  2:{ intros i Hi. apply in_range in Hi. rewrite repeat_length in Hi.
      rewrite (getitem_nth (abilities player) i 0) by lia. cbn [bind].
      rewrite (getitem_nth (repeat 0 d) i 0) by (rewrite repeat_length; lia).
      reflexivity. }
  cbn [bind].
  destruct d as [|d]; [reflexivity|].
  rewrite truediv_nonzero by (apply len_nonzero; discriminate). cbn [bind].
  rewrite (filter_none (fun i => ltb 0 (nth i (repeat 0 (S d)) 0))).
  2:{ intros i _. rewrite nth_repeat. reflexivity. }
  cbn [mapM bind].
  unfold count. rewrite (filter_none (fun t => ltb 0 t)).
  2:{ intros t Ht. apply repeat_spec in Ht. subst t. reflexivity. }
  reflexivity.
Qed.

(** C1: the contract fails for phase II of the heuristic ranker.  On a
    snapshot whose only task has the all-zero difficulty vector the
    relative-strength average divides by zero and the exception reaches
    the caller, for every random source; on the same snapshot the
    entry points of the optimal-solver module return lists. *)
Theorem heuristic_phaseII_all_zero_task_raises :
  forall (G : Type) (shuffle : forall A : Type, G -> list A -> list A * G)
         (global_random : G),
    Team3.phaseIIpreferences shuffle (fit 1 [1] 10)
      (mkCommunity [fit 1 [1] 10] [[0]]) global_random
    = Raise ZeroDivisionError
    /\ Team3.evaluate_task_suitability (fit 1 [1] 10) [0] [1] = Raise ZeroDivisionError
    /\ Team6.phaseIpreferences (fit 1 [1] 10)
         (mkCommunity [fit 1 [1] 10] [[0]]) global_random = []
    /\ Team6.phaseIIpreferences (fit 1 [1] 10)
         (mkCommunity [fit 1 [1] 10] [[0]]) global_random = [0%nat].
Proof.
  intros. repeat split.
Qed.

(* ================================================================== *)
(** ** Further properties of the cost functions *)
(* ================================================================== *)

Lemma sum_map_eq {A : Type} (f g : A -> Q) (xs : list A) :
  (forall x, In x xs -> f x == g x) -> sum (map f xs) == sum (map g xs).
Proof.
  intro H. apply Qle_antisym; apply sum_map_le; intros x Hx;
    rewrite (H x Hx); lra.
Qed.

(** A comprehension whose body can only raise [e] raises [e] as soon as
    one element does. *)
Lemma mapM_raise {A B : Type} (f : A -> result B) (e : exn) (xs : list A) :
  (forall x, In x xs -> f x = Raise e \/ exists y, f x = Normal y) ->
  (exists x, In x xs /\ f x = Raise e) ->
  mapM f xs = Raise e.
Proof.
  induction xs as [|x xs IH]; intros Hall (x0 & Hin & Hx0).
  - destruct Hin.
  - simpl. destruct (Hall x (or_introl eq_refl)) as [Hx|(y & Hx)]; rewrite Hx.
    + reflexivity.
    + simpl. rewrite IH; [reflexivity | |].
      * intros z Hz. apply Hall. right. exact Hz.
      * destruct Hin as [<-|Hin]; [congruence|]. eauto.
Qed.

Lemma getitem_out {A : Type} (l : list A) (i : nat) :
  (length l <= i)%nat -> getitem l i = Raise IndexError.
Proof.
  intro H. unfold getitem. rewrite (proj2 (nth_error_None l i) H). reflexivity.
Qed.

Lemma getitem_cases {A : Type} (l : list A) (i : nat) :
  getitem l i = Raise IndexError \/ exists y, getitem l i = Normal y.
Proof.
  unfold getitem. destruct (nth_error l i); eauto.
Qed.

(** X1: the partnership cost does not depend on the order of the two
    partners. *)
Theorem partnership_cost_symmetric (T a1 a2 : list Q) :
  (length T <= length a1)%nat -> (length T <= length a2)%nat ->
  exists c12 c21,
    Team3.calculate_partnership_cost a1 a2 T = Normal c12
    /\ Team3.calculate_partnership_cost a2 a1 T = Normal c21
    /\ c12 == c21.
Proof.
  intros H1 H2. rewrite !partnership_cost_eval by assumption.
  do 2 eexists. split; [reflexivity|]. split; [reflexivity|].
  assert (E : sum (map (unmet2 T a1 a2) (range (length T)))
              == sum (map (unmet2 T a2 a1) (range (length T)))).
  { apply sum_map_eq. intros i _. unfold unmet2.
    apply Qle_antisym; qminmax; lra. }
  rewrite E. reflexivity.
Qed.

Lemma partnership_cost_symmetric_scenario :
  exists c12 c21,
    Team3.calculate_partnership_cost [3; 1] [2; 4] [5; 5] = Normal c12
    /\ Team3.calculate_partnership_cost [2; 4] [3; 1] [5; 5] = Normal c21
    /\ c12 == c21.
Proof.
  apply (partnership_cost_symmetric [5; 5] [3; 1] [2; 4]); simpl; lia.
Defined.

(** X2: the solo cost raises [IndexError] exactly when the ability vector
    is shorter than the task, and otherwise returns; abilities beyond the
    task's dimensions are ignored. *)
Theorem solo_cost_raises_iff (A T : list Q) :
  (Team3.calculate_solo_cost A T = Raise IndexError <-> (length A < length T)%nat)
  /\ ((exists c, Team3.calculate_solo_cost A T = Normal c)
      <-> (length T <= length A)%nat).
Proof.
  assert (Hshort : (length A < length T)%nat ->
                   Team3.calculate_solo_cost A T = Raise IndexError).
  { intro H. unfold Team3.calculate_solo_cost.
    rewrite (mapM_raise _ IndexError); [reflexivity | |].
    - intros i _. destruct (getitem_cases T i) as [E|(t & E)]; rewrite E; simpl;
        [auto|].
      destruct (getitem_cases A i) as [E'|(a & E')]; rewrite E'; simpl; eauto.
    - exists (length A). split; [apply in_range; exact H|].
      rewrite (getitem_nth T _ 0) by exact H. simpl.
      rewrite getitem_out by lia. reflexivity. }
  split; split.
  - intro E. destruct (Nat.lt_ge_cases (length A) (length T)) as [|Hle]; [assumption|].
    rewrite solo_cost_eval in E by exact Hle. discriminate.
  - exact Hshort.
  - intros (c & E).
    destruct (Nat.lt_ge_cases (length A) (length T)) as [Hlt|]; [|assumption].
    rewrite (Hshort Hlt) in E. discriminate.
  - intro Hle. rewrite solo_cost_eval by exact Hle. eauto.
Qed.

(** X3: the partnership cost raises [IndexError] exactly when one of the
    two ability vectors is shorter than the task. *)
Theorem partnership_cost_raises_iff (a1 a2 T : list Q) :
  Team3.calculate_partnership_cost a1 a2 T = Raise IndexError
  <-> (length a1 < length T)%nat \/ (length a2 < length T)%nat.
Proof.
  split.
  - intro E.
    destruct (Nat.lt_ge_cases (length a1) (length T)) as [|H1]; [auto|].
    destruct (Nat.lt_ge_cases (length a2) (length T)) as [|H2]; [auto|].
    rewrite partnership_cost_eval in E by assumption. discriminate.
  - intro H. unfold Team3.calculate_partnership_cost.
    rewrite (mapM_raise _ IndexError); [reflexivity | |].
    + intros i _. destruct (getitem_cases T i) as [E|(t & E)]; rewrite E; simpl;
        [auto|].
      destruct (getitem_cases a1 i) as [E1|(a & E1)]; rewrite E1; simpl; [auto|].
      destruct (getitem_cases a2 i) as [E2|(b & E2)]; rewrite E2; simpl; eauto.
    + exists (Nat.min (length a1) (length a2)). split; [apply in_range; lia|].
      rewrite (getitem_nth T _ 0) by lia. simpl.
      destruct (Nat.le_gt_cases (length a1) (length a2)) as [Hle|Hgt].
      * rewrite Nat.min_l by exact Hle. rewrite getitem_out by lia. reflexivity.
      * rewrite Nat.min_r by lia.
        rewrite (getitem_nth a1 _ 0) by lia. simpl.
        rewrite getitem_out by lia. reflexivity.
Qed.

Lemma mapM_ext_in {A B : Type} (f g : A -> result B) (xs : list A) :
  (forall x, In x xs -> f x = g x) -> mapM f xs = mapM g xs.
Proof.
  induction xs as [|x xs IH]; intro H; simpl.
  - reflexivity.
  - rewrite (H x (or_introl eq_refl)), IH; [reflexivity|].
    intros y Hy. apply H. right. exact Hy.
Qed.

Lemma loss_phase2_eval (task : Task) (abs : list Q) (e : Q) :
  (length abs <= length task)%nat ->
  Team6.loss_phase2 task abs e
  = Normal (sum (map (unmet task abs) (range (length abs)))
            + Qmax 0 (sum (map (unmet task abs) (range (length abs))) - e)).
Proof.
  intro H. unfold Team6.loss_phase2.
  rewrite (mapM_total _ (unmet task abs)); [reflexivity|].
  intros k Hk. apply in_range in Hk.
  rewrite (getitem_nth task k 0) by lia. simpl.
  rewrite (getitem_nth abs k 0) by lia. reflexivity.
Qed.

(** X4: for vectors of one length the solo loss of the optimal solver is
    the solo cost plus the part of it that exceeds the current energy; it
    is never below the solo cost and equals it when the energy covers the
    cost. *)
Theorem loss_phase2_overdraft (task : Task) (abs : list Q) (e : Q) :
  length abs = length task ->
  exists s v,
    Team3.calculate_solo_cost abs task = Normal s
    /\ Team6.loss_phase2 task abs e = Normal v
    /\ v == s + Qmax 0 (s - e)
    /\ 0 <= s <= v
    /\ (s <= e -> v == s).
Proof.
  intro H. rewrite solo_cost_eval, loss_phase2_eval by lia. rewrite H.
  do 2 eexists. split; [reflexivity|]. split; [reflexivity|].
  pose proof (sum_map_nonneg (unmet task abs) (range (length task))
                (fun i _ => unmet_nonneg task abs i)) as Hs.
  split; [reflexivity|]. split.
  - qminmax; lra.
  - intro Hle. qminmax; lra.
Qed.

Lemma loss_phase2_overdraft_scenario :
  exists s v,
    Team3.calculate_solo_cost [3; 3] [5; 9] = Normal s
    /\ Team6.loss_phase2 [5; 9] [3; 3] 6 = Normal v
    /\ v == s + Qmax 0 (s - 6)
    /\ 0 <= s <= v
    /\ (s <= 6 -> v == s).
Proof.
  apply (loss_phase2_overdraft [5; 9] [3; 3] 6). reflexivity.
Defined.

(** X5: the solo loss iterates over the ability vector, not the task: it
    raises [IndexError] exactly when the abilities are longer than the
    task, and when they are shorter the task's extra dimensions are
    silently dropped. *)
Theorem loss_phase2_raises_iff (task : Task) (abs : list Q) (e : Q) :
  (Team6.loss_phase2 task abs e = Raise IndexError
   <-> (length task < length abs)%nat)
  /\ ((length abs <= length task)%nat ->
      Team6.loss_phase2 task abs e
      = Team6.loss_phase2 (firstn (length abs) task) abs e).
Proof.
  split; [split|].
  - intro E.
    destruct (Nat.lt_ge_cases (length task) (length abs)) as [|Hle]; [assumption|].
    rewrite loss_phase2_eval in E by exact Hle. discriminate.
  - intro H. unfold Team6.loss_phase2.
    rewrite (mapM_raise _ IndexError); [reflexivity | |].
    + intros i _. destruct (getitem_cases task i) as [E|(t & E)]; rewrite E; simpl;
        [auto|].
      destruct (getitem_cases abs i) as [E'|(a & E')]; rewrite E'; simpl; eauto.
    + exists (length task). split; [apply in_range; exact H|].
      rewrite getitem_out by lia. reflexivity.
  - intro Hle. unfold Team6.loss_phase2. f_equal.
    apply mapM_ext_in. intros k Hk. apply in_range in Hk.
    unfold getitem at 1 3. rewrite nth_error_firstn.
    replace (k <? length abs)%nat with true
      by (symmetry; apply Nat.ltb_lt; exact Hk).
    reflexivity.
Qed.

Lemma task_difficulty_acc (pairs : list (Q * Q)) (acc : Q) :
  fold_left
    (fun difficulty_score '(difficulty, avg_ability) =>
       if ltb avg_ability difficulty
       then difficulty_score + (difficulty - avg_ability) * 1.5
       else difficulty_score + (difficulty - avg_ability))
    pairs acc
  == acc
     + 1.5 * sum (map (fun '(t, a) => Qmax (t - a) 0) pairs)
     - sum (map (fun '(t, a) => Qmax (a - t) 0) pairs).
Proof.
  revert acc. induction pairs as [|[t a] pairs IH]; intro acc; simpl.
  - rewrite !sum_nil. lra.
  - rewrite IH, !sum_cons. destruct (ltb a t) eqn:E.
    + apply ltb_true in E. qminmax; lra.
    + apply ltb_false in E. qminmax; lra.
Qed.

(** X6: the difficulty score of a task against the community average is
    one and a half times the solo cost an average member would pay, minus
    the amount by which the average abilities exceed the task; so it is at
    most 1.5 times that solo cost, and a positive score needs a positive
    solo cost. *)
Theorem task_difficulty_closed_form (task : Task) (avg : list Q) :
  length avg = length task ->
  exists s,
    Team3.calculate_solo_cost avg task = Normal s
    /\ Team3.calculate_task_difficulty task avg == 1.5 * s - excess_ability task avg
    /\ Team3.calculate_task_difficulty task avg <= 1.5 * s
    /\ (0 < Team3.calculate_task_difficulty task avg -> 0 < s).
Proof.
  intro H. rewrite solo_cost_eval by lia.
  eexists. split; [reflexivity|].
  assert (E : Team3.calculate_task_difficulty task avg
              == 1.5 * sum (map (unmet task avg) (range (length task)))
                 - excess_ability task avg).
  { unfold Team3.calculate_task_difficulty. rewrite task_difficulty_acc.
    unfold excess_ability, unmet.
    rewrite (map_range_combine (fun t a => Qmax (t - a) 0) 0 0) by lia. lra. }
  assert (Hex : 0 <= excess_ability task avg).
  { unfold excess_ability. apply sum_map_nonneg.
    intros [t a] _. qminmax; lra. }
  repeat split; [exact E | lra | lra].
Qed.

Lemma task_difficulty_closed_form_scenario :
  exists s,
    Team3.calculate_solo_cost [3; 4] [5; 1] = Normal s
    /\ Team3.calculate_task_difficulty [5; 1] [3; 4]
       == 1.5 * s - excess_ability [5; 1] [3; 4]
    /\ Team3.calculate_task_difficulty [5; 1] [3; 4] <= 1.5 * s
    /\ (0 < Team3.calculate_task_difficulty [5; 1] [3; 4] -> 0 < s).
Proof.
  apply (task_difficulty_closed_form [5; 1] [3; 4]). reflexivity.
Defined.

(** X7: the partnership loss of the optimal solver does not depend on
    the order of the two players. *)
Theorem loss_phase1_symmetric (task : Task) (p1 p2 : Member) :
  (length task <= length (abilities p1))%nat ->
  (length task <= length (abilities p2))%nat ->
  exists v12 v21,
    Team6.loss_phase1 task p1 p2 = Normal v12
    /\ Team6.loss_phase1 task p2 p1 = Normal v21
    /\ v12 == v21.
Proof.
  intros H1 H2. rewrite !loss_phase1_eval by assumption.
  do 2 eexists. split; [reflexivity|]. split; [reflexivity|].
  set (a1 := abilities p1). set (a2 := abilities p2).
  assert (E1 : sum (map (unmet2 task a1 a2) (range (length task)))
               == sum (map (unmet2 task a2 a1) (range (length task)))).
  { apply sum_map_eq. intros i _. unfold unmet2. apply Qle_antisym; qminmax; lra. }
  assert (E2 : sum (map (fun k => Qmax (Qmax (nth k a1 0) (nth k a2 0) - nth k task 0) 0)
                        (range (length task)))
               == sum (map (fun k => Qmax (Qmax (nth k a2 0) (nth k a1 0) - nth k task 0) 0)
                           (range (length task)))).
  { apply sum_map_eq. intros i _. apply Qle_antisym; qminmax; lra. }
  assert (E3 : map (fun k => Qabs (nth k a1 0 - nth k a2 0)) (range (length task))
               = map (fun k => Qabs (nth k a2 0 - nth k a1 0)) (range (length task))).
  { apply map_ext. intro k. apply Qabs_Qminus. }
  rewrite E3.
  set (S12 := sum (map (unmet2 task a1 a2) _)) in *.
  set (S21 := sum (map (unmet2 task a2 a1) _)) in *.
  set (W12 := sum (map (fun k => Qmax (Qmax (nth k a1 0) (nth k a2 0) - _) 0) _)) in *.
  set (W21 := sum (map (fun k => Qmax (Qmax (nth k a2 0) (nth k a1 0) - _) 0) _)) in *.
  clearbody S12 S21 W12 W21.
  qminmax; qhalf; lra.
Qed.

Lemma loss_phase1_symmetric_scenario :
  exists v12 v21,
    Team6.loss_phase1 [5; 5] (fit 1 [3; 1] 2) (fit 2 [2; 7] 1) = Normal v12
    /\ Team6.loss_phase1 [5; 5] (fit 2 [2; 7] 1) (fit 1 [3; 1] 2) = Normal v21
    /\ v12 == v21.
Proof.
  apply (loss_phase1_symmetric [5; 5] (fit 1 [3; 1] 2) (fit 2 [2; 7] 1)); simpl; lia.
Defined.

(* ================================================================== *)
(** ** Further properties of the heuristic ranker *)
(* ================================================================== *)

Lemma nth_map_in {A B : Type} (f : A -> B) (l : list A) (db : B) (da : A) (i : nat) :
  (i < length l)%nat -> nth i (map f l) db = f (nth i l da).
Proof.
  revert i. induction l as [|x l IH]; intros [|i] H; simpl in *; try lia.
  - reflexivity.
  - apply IH. lia.
Qed.

Lemma add_at_nth (avg : list Q) (i : nat) (x : Q) (avg' : list Q) :
  Team3.add_at avg i x = Normal avg' ->
  forall j, nth j avg' 0 = if (j =? i)%nat then nth i avg 0 + x else nth j avg 0.
Proof.
  unfold Team3.add_at. intros H j.
  apply bind_Normal in H as (a & Ha & H). injection H as <-.
  unfold getitem in Ha. destruct (nth_error avg i) as [a'|] eqn:E; [|discriminate].
  injection Ha as ->.
  assert (Hi : (i < length avg)%nat) by (apply nth_error_Some; congruence).
  rewrite (nth_error_nth avg i 0 E).
  destruct (Nat.eqb_spec j i) as [->|Hne].
  - rewrite app_nth2; rewrite length_firstn; [|lia].
    replace (i - Nat.min i (length avg))%nat with O by lia. reflexivity.
  - destruct (Nat.lt_ge_cases j i) as [Hlt|Hge].
    + rewrite app_nth1 by (rewrite length_firstn; lia).
      rewrite <- (firstn_skipn i avg) at 2.
      rewrite app_nth1 by (rewrite length_firstn; lia). reflexivity.
    + rewrite app_nth2; rewrite length_firstn; [|lia].
      replace (j - Nat.min i (length avg))%nat with (S (j - S i)) by lia.
      cbn [nth].
      rewrite <- (firstn_skipn (S i) avg) at 2.
      rewrite app_nth2; rewrite length_firstn; [|lia].
      f_equal. lia.
Qed.

Lemma add_abilities_nth (abs : list Q) :
  forall (avg : list Q) (i : nat) (avg' : list Q),
    Team3.add_abilities avg i abs = Normal avg' ->
    forall j,
      nth j avg' 0
      = if (i <=? j)%nat && (j <? i + length abs)%nat
        then nth j avg 0 + nth (j - i) abs 0
        else nth j avg 0.
Proof.
  induction abs as [|a abs IH]; intros avg i avg' H j; simpl in H.
  - injection H as <-. rewrite Nat.add_0_r.
    destruct (i <=? j)%nat eqn:E1, (j <? i)%nat eqn:E2; simpl; try reflexivity.
    apply Nat.leb_le in E1. apply Nat.ltb_lt in E2. lia.
  - apply bind_Normal in H as (avg1 & H1 & H).
    rewrite (IH _ _ _ H j), (add_at_nth _ _ _ _ H1 j). cbn [length].
    destruct (Nat.eqb_spec j i) as [->|Hne].
    + replace (S i <=? i)%nat with false by (symmetry; apply Nat.leb_gt; lia).
      replace (i <=? i)%nat with true by (symmetry; apply Nat.leb_le; lia).
      replace (i <? i + S (length abs))%nat with true
        by (symmetry; apply Nat.ltb_lt; lia).
      rewrite Nat.sub_diag. reflexivity.
    + destruct (Nat.leb_spec (S i) j) as [L1|L1];
        destruct (Nat.ltb_spec j (S i + length abs)) as [L2|L2];
        destruct (Nat.leb_spec i j) as [L3|L3];
        destruct (Nat.ltb_spec j (i + S (length abs))) as [L4|L4];
        cbn [andb]; try lia; try reflexivity.
      replace (j - i)%nat with (S (j - S i)) by lia. reflexivity.
Qed.

Lemma accumulate_stats_sums (d : nat) (ms : list Member) :
  Forall (fun m => length (abilities m) = d) ms ->
  forall (avg : list Q) (total : Q) (avg' : list Q) (total' : Q),
    length avg = d ->
    Team3.accumulate_stats ms avg total = Normal (avg', total') ->
    length avg' = d
    /\ forall j, (j < d)%nat ->
         nth j avg' 0 == nth j avg 0 + sum (map (fun m => nth j (abilities m) 0) ms).
Proof.
  induction 1 as [|m ms Hm _ IH]; intros avg total avg' total' Havg H; simpl in H.
  - injection H as <- _. split; [exact Havg|].
    intros j _. cbn [map]. rewrite sum_nil. lra.
  - apply bind_Normal in H as (avg1 & H1 & H).
    destruct (add_abilities_length (abilities m) avg 0) as (avg1' & E1 & L1); [lia|].
    rewrite E1 in H1. injection H1 as <-.
    destruct (IH avg1' _ _ _ ltac:(lia) H) as (Hlen & Hsum).
    split; [exact Hlen|]. intros j Hj.
    rewrite (Hsum j Hj), (add_abilities_nth _ _ _ _ E1 j). cbn [map].
    rewrite sum_cons.
    replace ((0 <=? j)%nat && (j <? 0 + length (abilities m))%nat) with true.
    + rewrite Nat.sub_0_r. lra.
    + symmetry. apply andb_true_iff. split; [reflexivity|].
      apply Nat.ltb_lt. simpl. lia.
Qed.

Lemma phaseII_avg_abilities_eval (player : Member) (community : Community) :
  members community <> [] ->
  Forall (fun m => (length (abilities player) <= length (abilities m))%nat)
         (members community) ->
  Team3.phaseII_avg_abilities player community
  = Normal (map (mean_ability (members community))
                (range (length (abilities player)))).
Proof.
  intros Hne Hlen. unfold Team3.phaseII_avg_abilities.
  apply mapM_total. intros i Hi. apply in_range in Hi.
  rewrite (mapM_total _ (fun m => nth i (abilities m) 0)).
  - cbn [bind]. rewrite truediv_nonzero by (apply len_nonzero; exact Hne).
    reflexivity.
  - intros m Hm. rewrite Forall_forall in Hlen. specialize (Hlen m Hm).
    apply getitem_nth. lia.
Qed.

(** X8: on a non-empty community whose ability vectors have one length
    [d], the community statistics are the per-dimension mean abilities and
    the mean energy, and the averages phase II recomputes for a player of
    that dimension agree with them. *)
Theorem community_stats_are_means (d : nat) (player : Member) (community : Community) :
  members community <> [] ->
  Forall (fun m => length (abilities m) = d) (members community) ->
  length (abilities player) = d ->
  exists avg1 avg2,
    Team3.get_community_stats community
      = Normal (avg1, average_energy (members community))
    /\ Team3.phaseII_avg_abilities player community = Normal avg2
    /\ length avg1 = d /\ length avg2 = d
    /\ forall i, (i < d)%nat ->
         nth i avg1 0 == mean_ability (members community) i
         /\ nth i avg2 0 == nth i avg1 0.
Proof.
  intros Hne Hd Hp.
  rewrite phaseII_avg_abilities_eval; [|exact Hne|].
  2:{ eapply Forall_impl; [|exact Hd]. intros m Hm. simpl in Hm. lia. }
  unfold Team3.get_community_stats.
  destruct (members community) as [|first rest] eqn:Hms; [congruence|].
  cbn [getitem nth_error bind].
  destruct (accumulate_stats_total d (first :: rest)
              (repeat 0 (length (abilities first))) 0 Hd) as (totals & E & _).
  { rewrite repeat_length. inversion Hd; assumption. }
  rewrite E. cbn [bind].
  assert (Hrep : length (repeat 0 (length (abilities first))) = d)
    by (rewrite repeat_length; inversion Hd; assumption).
  destruct (accumulate_stats_sums d (first :: rest) Hd _ _ _ _ Hrep E)
    as (Hlen & Hsum).
  rewrite (mapM_total _ (fun a => a / len (first :: rest))).
  2:{ intros a _. apply truediv_nonzero, len_nonzero. discriminate. }
  cbn [bind].
  rewrite truediv_nonzero by (apply len_nonzero; discriminate).
  do 2 eexists. split; [reflexivity|]. split; [reflexivity|].
  split; [rewrite length_map; exact Hlen|].
  split; [rewrite length_map; unfold range; rewrite length_seq; exact Hp|].
  intros i Hi.
  assert (H1 : nth i (map (fun a => a / len (first :: rest)) totals) 0
               == mean_ability (first :: rest) i).
  { rewrite (nth_map_in (fun a => a / len (first :: rest)) totals 0 0) by lia.
    unfold mean_ability.
    rewrite (Hsum i Hi), nth_repeat.
    assert (Hn : ~ len (first :: rest) == 0).
    { intro Hz. apply Qeq_bool_iff in Hz.
      rewrite len_nonzero in Hz by discriminate. discriminate. }
    field. exact Hn. }
  split; [exact H1|].
  rewrite H1.
  rewrite (nth_map_in (mean_ability (first :: rest)) _ 0 O)
    by (unfold range; rewrite length_seq; lia).
  unfold range. rewrite seq_nth by lia. reflexivity.
Qed.

Lemma community_stats_are_means_scenario :
  exists avg1 avg2,
    Team3.get_community_stats
      (mkCommunity [fit 1 [3; 1] 10; fit 2 [2; 4] 5] [[5; 5]])
      = Normal (avg1, average_energy [fit 1 [3; 1] 10; fit 2 [2; 4] 5])
    /\ Team3.phaseII_avg_abilities (fit 1 [3; 1] 10)
         (mkCommunity [fit 1 [3; 1] 10; fit 2 [2; 4] 5] [[5; 5]]) = Normal avg2
    /\ length avg1 = 2%nat /\ length avg2 = 2%nat
    /\ forall i, (i < 2)%nat ->
         nth i avg1 0 == mean_ability [fit 1 [3; 1] 10; fit 2 [2; 4] 5] i
         /\ nth i avg2 0 == nth i avg1 0.
Proof.
  apply (community_stats_are_means 2 (fit 1 [3; 1] 10)
           (mkCommunity [fit 1 [3; 1] 10; fit 2 [2; 4] 5] [[5; 5]])).
  - discriminate.
  - repeat constructor.
  - reflexivity.
Defined.

(** X9: with no member at all the heuristic ranker raises in both phases
    ([IndexError] from [community.members[0]] in phase I, a division by
    the member count in phase II), for every player, task list and random
    source; the optimal-solver module returns empty lists instead. *)
Theorem empty_community_behaviour :
  forall (G : Type) (shuffle : forall A : Type, G -> list A -> list A * G)
         (player : Member) (ts : list Task) (global_random : G),
    Team3.phaseIpreferences shuffle player (mkCommunity [] ts) global_random
      = Raise IndexError
    /\ Team3.phaseIIpreferences shuffle player (mkCommunity [] ts) global_random
       = Raise ZeroDivisionError
    /\ Team6.phaseIpreferences player (mkCommunity [] ts) global_random = []
    /\ Team6.phaseIIpreferences player (mkCommunity [] ts) global_random = [].
Proof.
  intros. split; [reflexivity|]. split; [|split; [reflexivity|]].
  - unfold Team3.phaseIIpreferences, Team3.select_tasks, Team3.phaseII_avg_abilities.
    destruct (abilities player) as [|a l]; reflexivity.
  - unfold Team6.phaseIIpreferences. destruct (ltb (energy player) 0); reflexivity.
Qed.

(** X10: with no task left every phase of every module returns the empty
    list (for the heuristic ranker: on a non-empty community whose ability
    vectors, the player's included, have one length). *)
Theorem no_tasks_no_preferences {G : Type}
    (shuffle : forall A : Type, G -> list A -> list A * G)
    (d : nat) (player : Member) (ms : list Member) (global_random : G) :
  shuffle_contract shuffle ->
  ms <> [] ->
  Forall (fun m => length (abilities m) = d) ms ->
  length (abilities player) = d ->
  (exists g', Team3.phaseIpreferences shuffle player (mkCommunity ms []) global_random
              = Normal ([], g'))
  /\ Team3.phaseIIpreferences shuffle player (mkCommunity ms []) global_random
     = Normal ([], global_random)
  /\ Team6.phaseIIpreferences player (mkCommunity ms []) global_random = []
  /\ Team9.phaseIpreferences player (mkCommunity ms []) global_random = Normal []
  /\ Team9.phaseIIpreferences player (mkCommunity ms []) global_random = Normal [].
Proof.
  intros Hsh Hne Hd Hp. split; [|split; [|split; [|split; reflexivity]]].
  - unfold Team3.phaseIpreferences.
    destruct (get_community_stats_eval d (mkCommunity ms []) Hne Hd) as (avg & E).
    rewrite E. cbn [bind].
    destruct (ltb (energy player) _); [eexists; reflexivity|].
    unfold Team3.phaseI_reserve. cbn [members tasks].
    rewrite truediv_nonzero by (apply len_nonzero; exact Hne).
    cbn [bind ret Team3.build_partnerships Team3.top_choices flat_map].
    pose proof (Hsh (nat * nat)%type global_random []) as Hperm.
    destruct (shuffle (nat * nat)%type global_random []) as [l g'].
    simpl in Hperm. apply Permutation_nil in Hperm. subst l.
    eexists. reflexivity.
  - unfold Team3.phaseIIpreferences, Team3.select_tasks.
    rewrite phaseII_avg_abilities_eval; [|exact Hne|].
    2:{ eapply Forall_impl; [|exact Hd]. intros m Hm. simpl in Hm. simpl. lia. }
    cbn [bind]. unfold Team3.phaseII_reserve, Team3.get_task_completion_rate.
    cbn [members tasks].
    rewrite truediv_nonzero.
    2:{ destruct (Qeq_bool (2 * len ms) 0) eqn:E; [|reflexivity].
        apply Qeq_bool_iff in E.
        assert (Hz : len ms == 0) by lra.
        apply Qeq_bool_iff in Hz. rewrite len_nonzero in Hz by exact Hne.
        discriminate. }
    cbn [bind ret]. destruct (ltb (energy player) _); reflexivity.
  - unfold Team6.phaseIIpreferences.
    destruct (ltb (energy player) 0); [reflexivity|].
    cbn [tasks members].
    destruct (index Team6.member_eqb player ms); reflexivity.
Qed.

Lemma no_tasks_no_preferences_scenario :
  (exists g', Team3.phaseIpreferences reversing_shuffle (fit 1 [3; 3] 10)
                (mkCommunity [fit 1 [3; 3] 10; fit 2 [2; 2] 10] []) tt
              = Normal ([], g'))
  /\ Team3.phaseIIpreferences reversing_shuffle (fit 1 [3; 3] 10)
       (mkCommunity [fit 1 [3; 3] 10; fit 2 [2; 2] 10] []) tt
     = Normal ([], tt)
  /\ Team6.phaseIIpreferences (fit 1 [3; 3] 10)
       (mkCommunity [fit 1 [3; 3] 10; fit 2 [2; 2] 10] []) tt = []
  /\ Team9.phaseIpreferences (fit 1 [3; 3] 10)
       (mkCommunity [fit 1 [3; 3] 10; fit 2 [2; 2] 10] []) tt = Normal []
  /\ Team9.phaseIIpreferences (fit 1 [3; 3] 10)
       (mkCommunity [fit 1 [3; 3] 10; fit 2 [2; 2] 10] []) tt = Normal [].
Proof.
  apply (no_tasks_no_preferences reversing_shuffle 2 (fit 1 [3; 3] 10)
           [fit 1 [3; 3] 10; fit 2 [2; 2] 10] tt reversing_shuffle_contract).
  - discriminate.
  - repeat constructor.
  - reflexivity.
Defined.

Lemma sum_nonneg (xs : list Q) : Forall (fun x => 0 <= x) xs -> 0 <= sum xs.
Proof.
  induction 1 as [|x xs Hx _ IH].
  - rewrite sum_nil. lra.
  - rewrite sum_cons. lra.
Qed.

Lemma partnership_cost_nonneg (a1 a2 T : list Q) (c : Q) :
  Team3.calculate_partnership_cost a1 a2 T = Normal c -> 0 <= c.
Proof.
  unfold Team3.calculate_partnership_cost. intro H.
  apply bind_Normal in H as (terms & Hterms & H). injection H as <-.
  assert (Hpos : 0 <= sum terms).
  { apply sum_nonneg. eapply mapM_Forall; [exact Hterms|].
    intros i y _ Hy. cbv beta in Hy.
    apply bind_Normal in Hy as (t & _ & Hy).
    apply bind_Normal in Hy as (a & _ & Hy).
    apply bind_Normal in Hy as (b & _ & Hy).
    injection Hy as <-. qminmax; lra. }
  qhalf. lra.
Qed.

Lemma candidate_partners_costs (player : Member) (task : Task) (td r : Q)
    (ms : list Member) (pl : list (nat * Q * Q)) :
  Team3.candidate_partners player task td r ms = Normal pl ->
  forall pid c pr, In (pid, c, pr) pl ->
    exists partner s,
      In partner ms /\ id partner = pid
      /\ Team3.calculate_partnership_cost (abilities player) (abilities partner) task
         = Normal c
      /\ Team3.calculate_solo_cost (abilities player) task = Normal s
      /\ c < energy player - r /\ c < energy partner - r /\ c < s * 0.6.
Proof.
  revert pl. induction ms as [|partner rest IH]; intros pl H pid c pr Hin; simpl in H.
  - injection H as <-. destruct Hin.
  - assert (Hlift : forall others,
              Team3.candidate_partners player task td r rest = Normal others ->
              In (pid, c, pr) others ->
              exists p s, In p (partner :: rest) /\ id p = pid
                /\ Team3.calculate_partnership_cost (abilities player) (abilities p) task
                   = Normal c
                /\ Team3.calculate_solo_cost (abilities player) task = Normal s
                /\ c < energy player - r /\ c < energy p - r /\ c < s * 0.6).
    { intros others Ho Hi. destruct (IH others Ho pid c pr Hi) as (p & s & Hp & Hrest).
      exists p, s. split; [right; exact Hp | exact Hrest]. }
    destruct ((id partner =? id player)%nat || ltb (energy partner) r).
    + eauto.
    + apply bind_Normal in H as (ec & Hec & H).
      apply bind_Normal in H as (st & Hst & H).
      apply bind_Normal in H as (others & Hothers & H).
      destruct (ltb ec _ && ltb ec _) eqn:Hcond; injection H as <-; [|eauto].
      destruct Hin as [Heq|Ho]; [|eauto].
      injection Heq as <- <- _.
      apply andb_true_iff in Hcond as [Hc1 Hc2].
      apply ltb_true in Hc1. apply ltb_true in Hc2.
      exists partner, (sum st). split; [left; reflexivity|]. split; [reflexivity|].
      split; [exact Hec|]. split.
      * unfold Team3.calculate_solo_cost. rewrite Hst. reflexivity.
      * repeat split; [| |exact Hc2]; revert Hc1; qminmax; lra.
Qed.

Lemma build_partnerships_tasks (player : Member) (ms : list Member) (avg : list Q)
    (r : Q) (ts : list Task) :
  forall (i0 : nat) (ps : list (nat * list (nat * Q * Q))),
    Team3.build_partnerships player ms avg r i0 ts = Normal ps ->
    map fst ps = seq i0 (length ts)
    /\ forall ti pl, In (ti, pl) ps ->
         exists task,
           (i0 <= ti)%nat /\ nth_error ts (ti - i0) = Some task
           /\ Team3.candidate_partners player task
                (Team3.calculate_task_difficulty task avg) r ms = Normal pl.
Proof.
  induction ts as [|task rest IH]; intros i0 ps H; simpl in H.
  - injection H as <-. split; [reflexivity | intros ? ? []].
  - apply bind_Normal in H as (pl0 & Hpl0 & H).
    apply bind_Normal in H as (others & Hothers & H).
    injection H as <-. destruct (IH (S i0) others Hothers) as (Hidx & Hall).
    split; [simpl; rewrite Hidx; reflexivity|].
    intros ti pl [Heq|Hin].
    + injection Heq as <- <-. exists task. rewrite Nat.sub_diag. auto.
    + destruct (Hall ti pl Hin) as (t & Hle & Hn & Hc).
      exists t. split; [lia|]. split; [|exact Hc].
      replace (ti - i0)%nat with (S (ti - S i0)) by lia. exact Hn.
Qed.

Lemma phaseI_output {G : Type}
    (shuffle : forall A : Type, G -> list A -> list A * G)
    (player : Member) (community : Community) (g g' : G) (out : list (nat * nat)) :
  shuffle_contract shuffle ->
  Team3.phaseIpreferences shuffle player community g = Normal (out, g') ->
  out = []
  \/ exists avg avg_e r ps,
       Team3.get_community_stats community = Normal (avg, avg_e)
       /\ Team3.phaseI_reserve community = Normal r
       /\ Team3.build_partnerships player (members community) avg r 0 (tasks community)
          = Normal ps
       /\ Permutation (Team3.top_choices ps) out.
Proof.
  intros Hsh H. unfold Team3.phaseIpreferences in H.
  apply bind_Normal in H as ([avg avg_e] & Hst & H).
  destruct (ltb (energy player) _).
  { injection H as <- _. left. reflexivity. }
  apply bind_Normal in H as (r & Hr & H).
  apply bind_Normal in H as (ps & Hps & H).
  unfold ret in H. injection H as H.
  right. exists avg, avg_e, r, ps. repeat split; try assumption.
  pose proof (Hsh _ g (Team3.top_choices ps)) as Hp. rewrite H in Hp. exact Hp.
Qed.

(** X11: every pair phase I of the heuristic ranker returns passed both
    acceptance tests: the partnership cost is strictly below what the
    caller and the partner each keep above the reserve, and strictly below
    60% of the caller's solo cost, so a task the caller can complete alone
    (solo cost 0) is never offered. *)
Theorem phaseI_pairs_pass_tests {G : Type}
    (shuffle : forall A : Type, G -> list A -> list A * G)
    (player : Member) (community : Community) (global_random : G)
    (out : list (nat * nat)) (g' : G) :
  shuffle_contract shuffle ->
  Team3.phaseIpreferences shuffle player community global_random = Normal (out, g') ->
  forall task_index partner_id, In (task_index, partner_id) out ->
    exists task partner r c s,
      nth_error (tasks community) task_index = Some task
      /\ In partner (members community) /\ id partner = partner_id
      /\ Team3.phaseI_reserve community = Normal r
      /\ Team3.calculate_partnership_cost (abilities player) (abilities partner) task
         = Normal c
      /\ Team3.calculate_solo_cost (abilities player) task = Normal s
      /\ c < energy player - r /\ c < energy partner - r
      /\ c < s * 0.6 /\ 0 < s.
Proof.
  intros Hsh H t pid Hin.
  destruct (phaseI_output shuffle _ _ _ _ _ Hsh H)
    as [->|(avg & avg_e & r & ps & _ & Hr & Hps & Hperm)]; [destruct Hin|].
  apply (Permutation_in _ (Permutation_sym Hperm)) in Hin.
  apply top_choices_sound in Hin as (pl & c & pr & Hpl & Hc).
  destruct (build_partnerships_tasks _ _ _ _ _ _ _ Hps) as (_ & Hall).
  destruct (Hall t pl Hpl) as (task & _ & Hn & Hcand).
  rewrite Nat.sub_0_r in Hn.
  destruct (candidate_partners_costs _ _ _ _ _ _ Hcand _ _ _ Hc)
    as (partner & s & Hp & Hid & Hcost & Hsolo & H1 & H2 & H3).
  exists task, partner, r, c, s. repeat split; try assumption.
  pose proof (partnership_cost_nonneg _ _ _ _ Hcost). lra.
Qed.

Lemma phaseI_pairs_pass_tests_scenario :
  exists task partner r c s,
    nth_error [[5; 5]] 0 = Some task
    /\ In partner [fit 1 [3; 3] 10; fit 2 [2; 2] 10] /\ id partner = 2%nat
    /\ Team3.phaseI_reserve (mkCommunity [fit 1 [3; 3] 10; fit 2 [2; 2] 10] [[5; 5]])
       = Normal r
    /\ Team3.calculate_partnership_cost [3; 3] (abilities partner) task = Normal c
    /\ Team3.calculate_solo_cost [3; 3] task = Normal s
    /\ c < 10 - r /\ c < energy partner - r
    /\ c < s * 0.6 /\ 0 < s.
Proof.
  apply (phaseI_pairs_pass_tests reversing_shuffle (fit 1 [3; 3] 10)
           (mkCommunity [fit 1 [3; 3] 10; fit 2 [2; 2] 10] [[5; 5]]) tt
           [(0%nat, 2%nat)] tt reversing_shuffle_contract).
  - vm_compute. reflexivity.
  - left. reflexivity.
Defined.

Lemma Permutation_filter_length {A : Type} (p : A -> bool) (l l' : list A) :
  Permutation l l' -> length (filter p l) = length (filter p l').
Proof.
  induction 1 as [|x l l' _ IH|x y l|l l' l'' _ IH1 _ IH2]; simpl.
  - reflexivity.
  - destruct (p x); simpl; lia.
  - destruct (p x), (p y); reflexivity.
  - lia.
Qed.

Lemma top_choices_other_task (ps : list (nat * list (nat * Q * Q))) (t : nat) :
  ~ In t (map fst ps) ->
  filter (fun p => (fst p =? t)%nat) (Team3.top_choices ps) = [].
Proof.
  intro Hnot. apply filter_none. intros [t' pid] Hin.
  apply top_choices_sound in Hin as (pl & _ & _ & Hpl & _).
  cbn [fst]. apply Nat.eqb_neq. intro Heq. subst t'. apply Hnot.
  apply (in_map fst) in Hpl. exact Hpl.
Qed.

Lemma top_choices_two_per_task (ps : list (nat * list (nat * Q * Q))) (t : nat) :
  NoDup (map fst ps) ->
  (length (filter (fun p => (fst p =? t)%nat) (Team3.top_choices ps)) <= 2)%nat.
Proof.
  induction ps as [|[ti pl] ps IH]; intro Hnd; [simpl; lia|].
  inversion Hnd as [|? ? Hnot Hnd']; subst.
  change (Team3.top_choices ((ti, pl) :: ps))
    with (map (fun '(partner_id, _, _) => (ti, partner_id))
              (firstn 2 (sort_desc (fun x : nat * Q * Q => snd x) pl))
          ++ Team3.top_choices ps).
  rewrite filter_app, length_app.
  destruct (Nat.eq_dec ti t) as [->|Hne].
  - rewrite (top_choices_other_task ps t Hnot). cbn [length].
    pose proof (filter_length_le
                  (fun p : nat * nat => (fst p =? t)%nat)
                  (map (fun '(partner_id, _, _) => (t, partner_id))
                       (firstn 2 (sort_desc (fun x : nat * Q * Q => snd x) pl)))) as Hle.
    rewrite length_map in Hle.
    pose proof (firstn_le_length 2 (sort_desc (fun x : nat * Q * Q => snd x) pl)).
    lia.
  - rewrite (filter_none (fun p : nat * nat => (fst p =? t)%nat)).
    + cbn [length Nat.add]. apply IH. exact Hnd'.
    + intros [t' pid] Hin. apply in_map_iff in Hin as ([[p c] pr] & Heq & _).
      injection Heq as <- _. cbn [fst]. apply Nat.eqb_neq. exact Hne.
Qed.

(** X12: phase I of the heuristic ranker returns at most two partners for
    any task, each for a valid task index, hence at most twice as many
    pairs as there are tasks. *)
Theorem phaseI_two_partners_per_task {G : Type}
    (shuffle : forall A : Type, G -> list A -> list A * G)
    (player : Member) (community : Community) (global_random : G)
    (out : list (nat * nat)) (g' : G) :
  shuffle_contract shuffle ->
  Team3.phaseIpreferences shuffle player community global_random = Normal (out, g') ->
  (forall task_index,
     (length (filter (fun p => (fst p =? task_index)%nat) out) <= 2)%nat)
  /\ (length out <= 2 * length (tasks community))%nat.
Proof.
  intros Hsh H.
  destruct (phaseI_output shuffle _ _ _ _ _ Hsh H)
    as [->|(avg & avg_e & r & ps & _ & _ & Hps & Hperm)]; [simpl; split; intros; lia|].
  destruct (build_partnerships_tasks _ _ _ _ _ _ _ Hps) as (Hidx & _).
  split.
  - intro t. rewrite <- (Permutation_filter_length _ _ _ Hperm).
    apply top_choices_two_per_task. rewrite Hidx. apply seq_NoDup.
  - rewrite <- (Permutation_length Hperm).
    assert (Hlen : length ps = length (tasks community))
      by (rewrite <- (length_map fst ps), Hidx, length_seq; reflexivity).
    rewrite <- Hlen. clear. induction ps as [|[ti pl] ps IH]; [simpl; lia|].
    change (Team3.top_choices ((ti, pl) :: ps))
      with (map (fun '(partner_id, _, _) => (ti, partner_id))
                (firstn 2 (sort_desc (fun x : nat * Q * Q => snd x) pl))
            ++ Team3.top_choices ps).
    rewrite length_app, length_map.
    pose proof (firstn_le_length 2 (sort_desc (fun x : nat * Q * Q => snd x) pl)).
    cbn [length]. lia.
Qed.

Lemma phaseI_two_partners_per_task_scenario :
  (forall task_index,
     (length (filter (fun p => (fst p =? task_index)%nat) [(0%nat, 2%nat)]) <= 2)%nat)
  /\ (length [(0%nat, 2%nat)] <= 2 * 1)%nat.
Proof.
  apply (phaseI_two_partners_per_task reversing_shuffle (fit 1 [3; 3] 10)
           (mkCommunity [fit 1 [3; 3] 10; fit 2 [2; 2] 10] [[5; 5]]) tt
           [(0%nat, 2%nat)] tt reversing_shuffle_contract).
  vm_compute. reflexivity.
Defined.

Lemma phaseII_reserve_eval (community : Community) :
  members community <> [] ->
  Team3.phaseII_reserve community
  = Normal (Qmax 1 (Qmin 3 (len (tasks community) / (2 * len (members community))))).
Proof.
  intro Hne. unfold Team3.phaseII_reserve, Team3.get_task_completion_rate.
  rewrite truediv_nonzero; [reflexivity|].
  destruct (Qeq_bool (2 * len (members community)) 0) eqn:E; [|reflexivity].
  apply Qeq_bool_iff in E.
  assert (Hz : len (members community) == 0) by lra.
  apply Qeq_bool_iff in Hz. rewrite len_nonzero in Hz by exact Hne. discriminate.
Qed.

(** X13: a player whose energy is below twice the phase II reserve
    [max(1, min(3, tasks / (2 * members)))] gets no solo preference from
    the heuristic ranker and the random source is left untouched; in
    particular this holds for every player with energy below 2. *)
Theorem phaseII_depleted_empty {G : Type}
    (shuffle : forall A : Type, G -> list A -> list A * G)
    (player : Member) (community : Community) (global_random : G) :
  members community <> [] ->
  Forall (fun m => (length (abilities player) <= length (abilities m))%nat)
         (members community) ->
  energy player
    < 2 * Qmax 1 (Qmin 3 (len (tasks community) / (2 * len (members community))))
    \/ energy player < 2 ->
  Team3.phaseIIpreferences shuffle player community global_random
  = Normal ([], global_random).
Proof.
  intros Hne Hlen Hlow.
  unfold Team3.phaseIIpreferences, Team3.select_tasks.
  rewrite phaseII_avg_abilities_eval by assumption. cbn [bind].
  rewrite phaseII_reserve_eval by exact Hne. cbn [bind].
  replace (ltb (energy player) _) with true; [reflexivity|].
  symmetry. apply ltb_true.
  destruct Hlow as [Hlow|Hlow]; revert Hlow; qminmax; lra.
Qed.

Lemma phaseII_depleted_empty_scenario :
  Team3.phaseIIpreferences reversing_shuffle (fit 1 [3; 3] 1.5)
    (mkCommunity [fit 1 [3; 3] 1.5; fit 2 [2; 2] 10] [[1; 1]; [5; 5]]) tt
  = Normal ([], tt).
Proof.
  apply (phaseII_depleted_empty reversing_shuffle (fit 1 [3; 3] 1.5)
           (mkCommunity [fit 1 [3; 3] 1.5; fit 2 [2; 2] 10] [[1; 1]; [5; 5]]) tt).
  - discriminate.
  - repeat constructor.
  - right. reflexivity.
Defined.

Lemma evaluate_tasks_indices (player : Member) (avg : list Q) (avail : Q)
    (ts : list Task) :
  forall (i0 : nat) (evs : list (nat * Q * Q)),
    Team3.evaluate_tasks player avg avail i0 ts = Normal evs ->
    NoDup (map (fun x => fst (fst x)) evs)
    /\ Forall (fun x => (i0 <= fst (fst x))%nat) evs.
Proof.
  induction ts as [|task rest IH]; intros i0 evs H; simpl in H.
  - injection H as <-. split; constructor.
  - apply bind_Normal in H as ([s c] & _ & H).
    apply bind_Normal in H as (others & Hothers & H).
    destruct (IH (S i0) others Hothers) as (Hnd & Hge).
    assert (Hge' : Forall (fun x => (i0 <= fst (fst x))%nat) others).
    { eapply Forall_impl; [|exact Hge]. intros x Hx. simpl in Hx. lia. }
    destruct (ltb c avail && ltb 0 s && leb c (energy player * 0.7));
      injection H as <-; [|split; assumption].
    split.
    + simpl. constructor; [|exact Hnd].
      intro Hin. apply in_map_iff in Hin as (x & Hx & Hin).
      rewrite Forall_forall in Hge. specialize (Hge x Hin). simpl in Hge. lia.
    + constructor; [simpl; lia | exact Hge'].
Qed.

Lemma select_loop_incl (evs : list (nat * Q * Q)) (r : Q) :
  forall remaining i,
    In i (Team3.select_loop evs remaining r) -> In i (map (fun x => fst (fst x)) evs).
Proof.
  induction evs as [|[[j s] c] rest IH]; intros remaining i Hin; simpl in Hin.
  - destruct Hin.
  - simpl. destruct (leb c remaining).
    + destruct (ltb (remaining - c) r).
      * destruct Hin as [<-|[]]. left. reflexivity.
      * destruct Hin as [<-|Hin]; [left; reflexivity|]. right. eapply IH. exact Hin.
    + right. eapply IH. exact Hin.
Qed.

Lemma select_loop_NoDup (evs : list (nat * Q * Q)) (r : Q) :
  NoDup (map (fun x => fst (fst x)) evs) ->
  forall remaining, NoDup (Team3.select_loop evs remaining r).
Proof.
  induction evs as [|[[j s] c] rest IH]; intros Hnd remaining; simpl.
  - constructor.
  - simpl in Hnd. inversion Hnd as [|? ? Hnot Hnd']; subst.
    destruct (leb c remaining).
    + destruct (ltb (remaining - c) r).
      * constructor; [intros [] | constructor].
      * constructor; [|apply IH; exact Hnd'].
        intro Hin. apply Hnot. eapply select_loop_incl. exact Hin.
    + apply IH. exact Hnd'.
Qed.

(** The greedy loop never spends more than the budget it starts with. *)
Lemma select_loop_total (evs : list (nat * Q * Q)) (r : Q) :
  forall remaining : Q,
    0 <= remaining ->
    exists costs,
      Forall2 (fun i c => exists s, In (i, s, c) evs)
              (Team3.select_loop evs remaining r) costs
      /\ sum costs <= remaining.
Proof.
  induction evs as [|[[i s] c] rest IH]; intros remaining Hr; simpl.
  - exists []. split; [constructor | rewrite sum_nil; lra].
  - destruct (leb c remaining) eqn:Hfit.
    + apply leb_true in Hfit. destruct (ltb (remaining - c) r).
      * exists [c]. split.
        -- constructor; [|constructor]. exists s. left. reflexivity.
        -- rewrite sum_cons, sum_nil. lra.
      * destruct (IH (remaining - c)) as (costs & HF & Hsum); [lra|].
        exists (c :: costs). split.
        -- constructor.
           ++ exists s. left. reflexivity.
           ++ eapply Forall2_impl; [|exact HF].
              intros a b (s' & Hs'). exists s'. right. exact Hs'.
        -- rewrite sum_cons. lra.
    + destruct (IH remaining Hr) as (costs & HF & Hsum).
      exists costs. split; [|assumption].
      eapply Forall2_impl; [|exact HF].
      intros a b (s' & Hs'). exists s'. right. exact Hs'.
Qed.

(** X14: phase II of the heuristic ranker returns each task index at
    most once (so never more indices than tasks), and the solo costs of
    the accepted tasks, when there are any, add up to at most the player's
    energy minus the reserve: completing everything it bids for still
    leaves the reserve. *)
Theorem phaseII_distinct_and_affordable {G : Type}
    (shuffle : forall A : Type, G -> list A -> list A * G)
    (player : Member) (community : Community) (global_random : G)
    (out : list nat) (g' : G) :
  shuffle_contract shuffle ->
  Team3.phaseIIpreferences shuffle player community global_random = Normal (out, g') ->
  NoDup out
  /\ (length out <= length (tasks community))%nat
  /\ exists r selected costs,
       Team3.phaseII_reserve community = Normal r
       /\ accepted_tasks player community = Normal selected
       /\ Permutation selected out
       /\ Forall2 (fun i c =>
                     exists task,
                       nth_error (tasks community) i = Some task
                       /\ Team3.calculate_solo_cost (abilities player) task = Normal c)
                  selected costs
       /\ (selected <> [] -> sum costs <= energy player - r).
Proof.
  intros Hsh H.
  destruct (phaseII_output shuffle player community _ _ _ H) as (selected & Hacc & Hout).
  assert (Hperm : Permutation selected out).
  { subst out. apply (chunkwise_perm (Team3.group_size selected)).
    apply randomize_chunkwise. exact Hsh. }
  assert (Hmain : NoDup selected
            /\ exists r costs,
                 Team3.phaseII_reserve community = Normal r
                 /\ Forall2 (fun i c =>
                       exists task,
                         nth_error (tasks community) i = Some task
                         /\ Team3.calculate_solo_cost (abilities player) task = Normal c)
                     selected costs
                 /\ (selected <> [] -> sum costs <= energy player - r)).
  { unfold accepted_tasks, Team3.select_tasks in Hacc.
    apply bind_Normal in Hacc as (selection & Hsel & Hacc).
    apply bind_Normal in Hsel as (avg & _ & Hsel).
    apply bind_Normal in Hsel as (r & Hr & Hsel).
    assert (Hr1 : 1 <= r).
    { pose proof Hr as Hr0. unfold Team3.phaseII_reserve in Hr0.
      apply bind_Normal in Hr0 as (cr & _ & Hr0). injection Hr0 as <-.
      qminmax; lra. }
    destruct (ltb (energy player) (r * 2)) eqn:Hlow.
    - injection Hsel as <-. injection Hacc as <-.
      split; [constructor|]. exists r, []. split; [exact Hr|].
      split; [constructor | congruence].
    - apply ltb_false in Hlow.
      apply bind_Normal in Hsel as (evs & Hevs & Hsel).
      injection Hsel as <-. injection Hacc as <-.
      destruct (evaluate_tasks_indices _ _ _ _ _ _ Hevs) as (Hnd & _).
      split.
      + apply select_loop_NoDup.
        eapply Permutation_NoDup; [|exact Hnd].
        apply Permutation_map, sort_desc_perm.
      + destruct (select_loop_total
                    (sort_desc (fun x => snd (fst x)) evs) r (energy player - r))
          as (costs & HF & Hsum); [lra|].
        exists r, costs. split; [exact Hr|]. split; [|intros _; exact Hsum].
        eapply Forall2_impl; [|exact HF].
        intros i c (s & Hin).
        eapply Permutation_in in Hin; [|apply Permutation_sym, sort_desc_perm].
        destruct (evaluate_tasks_sound _ _ _ _ _ _ Hevs _ _ _ Hin)
          as (task & _ & Hn & Hc & _).
        rewrite Nat.sub_0_r in Hn. exists task. auto. }
  destruct Hmain as (Hnd & r & costs & Hr & HF & Hsum).
  assert (Hnd' : NoDup out) by (eapply Permutation_NoDup; eassumption).
  split; [exact Hnd'|]. split.
  - assert (Hincl : incl out (seq 0 (length (tasks community)))).
    { intros i Hi. apply (Permutation_in _ (Permutation_sym Hperm)) in Hi.
      clear - HF Hi. induction HF as [|j c sel cs Hj _ IH]; [destruct Hi|].
      destruct Hi as [<-|Hi]; [|auto].
      destruct Hj as (task & Hn & _). apply in_seq.
      assert (j < length (tasks community))%nat by (apply nth_error_Some; congruence).
      lia. }
    pose proof (NoDup_incl_length Hnd' Hincl) as Hle.
    rewrite length_seq in Hle. exact Hle.
  - exists r, selected, costs. auto.
Qed.

Lemma phaseII_distinct_and_affordable_scenario :
  NoDup [2; 0; 1]%nat
  /\ (length [2; 0; 1]%nat <= 4)%nat
  /\ exists r selected costs,
       Team3.phaseII_reserve
         (mkCommunity [fit 1 [5; 1] 10; fit 2 [1; 1] 10]
                      [[1; 2]; [6; 1]; [1; 1]; [9; 9]]) = Normal r
       /\ accepted_tasks (fit 1 [5; 1] 10)
            (mkCommunity [fit 1 [5; 1] 10; fit 2 [1; 1] 10]
                         [[1; 2]; [6; 1]; [1; 1]; [9; 9]]) = Normal selected
       /\ Permutation selected [2; 0; 1]%nat
       /\ Forall2 (fun i c =>
                     exists task,
                       nth_error [[1; 2]; [6; 1]; [1; 1]; [9; 9]] i = Some task
                       /\ Team3.calculate_solo_cost [5; 1] task = Normal c)
                  selected costs
       /\ (selected <> [] -> sum costs <= 10 - r).
Proof.
  apply (phaseII_distinct_and_affordable reversing_shuffle (fit 1 [5; 1] 10)
           (mkCommunity [fit 1 [5; 1] 10; fit 2 [1; 1] 10]
                        [[1; 2]; [6; 1]; [1; 1]; [9; 9]])
           tt [2; 0; 1]%nat tt reversing_shuffle_contract).
  vm_compute. reflexivity.
Defined.

(* ================================================================== *)
(** ** Further properties of the optimal-solver module *)
(* ================================================================== *)

Lemma all_partnerships_from (n k : nat) :
  forall s, (s + k = n)%nat ->
    let l := flat_map (fun i => map (fun j => (i, j)) (seq (S i) (n - S i))) (seq s k) in
    NoDup l
    /\ (2 * length l = k * (k - 1))%nat
    /\ forall i j, In (i, j) l <-> (s <= i < j)%nat /\ (j < n)%nat.
Proof.
  induction k as [|k IH]; intros s Hs l; subst l.
  - simpl. split; [constructor|]. split; [reflexivity|].
    intros i j. split; [intros [] | lia].
  - cbn [seq flat_map].
    destruct (IH (S s) ltac:(lia)) as (Hnd & Hlen & Hin). cbv zeta in *.
    split; [|split].
    + apply NoDup_app.
      * apply Finite.Injective_map_NoDup; [|apply seq_NoDup].
        intros x y Hxy. congruence.
      * exact Hnd.
      * intros [i j] H1 H2. apply in_map_iff in H1 as (j' & Heq & _).
        injection Heq as <- <-. apply Hin in H2. lia.
    + rewrite length_app, length_map, length_seq.
      replace (n - S s)%nat with k by lia. nia.
    + intros i j. rewrite in_app_iff, Hin, in_map_iff. split.
      * intros [(j' & Heq & Hj')|H]; [|lia].
        injection Heq as <- <-. apply in_seq in Hj'. lia.
      * intros (H1 & H2). destruct (Nat.eq_dec i s) as [->|Hne].
        -- left. exists j. split; [reflexivity|]. apply in_seq. lia.
        -- right. lia.
Qed.

(** X15: the partnership columns of the optimal solver are exactly the
    index pairs [(i, j)] with [i < j < n], each listed once, so there are
    [n (n - 1) / 2] of them and the cost matrix has that many columns plus
    [n]. *)
Theorem all_partnerships_enumeration (n : nat) :
  NoDup (Team6.all_partnerships n)
  /\ (2 * length (Team6.all_partnerships n) = n * (n - 1))%nat
  /\ forall i j, In (i, j) (Team6.all_partnerships n) <-> (i < j < n)%nat.
Proof.
  destruct (all_partnerships_from n n 0%nat eq_refl) as (Hnd & Hlen & Hin).
  cbv zeta in *. unfold Team6.all_partnerships, range.
  split; [exact Hnd|]. split; [exact Hlen|].
  intros i j. rewrite Hin. lia.
Qed.

(** X16: phase II of the optimal-solver module never raises and returns
    at most one task; when it returns one, the index is a valid task whose
    solo loss the player's (non-negative) energy covers. *)
Theorem optimal_phaseII_at_most_one :
  forall (G : Type) (player : Member) (community : Community) (global_random : G),
    Team6.phaseIIpreferences player community global_random = []
    \/ exists best_task task loss,
         Team6.phaseIIpreferences player community global_random = [best_task]
         /\ nth_error (tasks community) best_task = Some task
         /\ Team6.loss_phase2 task (abilities player) (energy player) = Normal loss
         /\ loss <= energy player
         /\ 0 <= energy player.
Proof.
  intros. unfold Team6.phaseIIpreferences.
  destruct (ltb (energy player) 0) eqn:Hneg; [left; reflexivity|].
  apply ltb_false in Hneg.
  destruct (index Team6.member_eqb player (members community)) as [k|e];
    [|left; reflexivity].
  cbn [bind].
  destruct (Team6.assign_phase2 (tasks community) (members community))
    as [[assignments total]|e]; [|left; reflexivity].
  cbn [bind].
  destruct (Team6.dict_get assignments k) as [best|]; [|left; reflexivity].
  unfold getitem.
  destruct (nth_error (tasks community) best) as [task|] eqn:Htask;
    [|left; reflexivity].
  cbn [bind].
  destruct (Team6.loss_phase2 task (abilities player) (energy player))
    as [loss|e] eqn:Hloss; [|left; reflexivity].
  cbn [bind].
  destruct (ltb (energy player - loss) 0) eqn:Hover; [left; reflexivity|].
  apply ltb_false in Hover.
  right. exists best, task, loss. repeat split; try assumption; try reflexivity.
  lra.
Qed.

Lemma remove_NoDup (c : nat) (l : list nat) :
  NoDup l -> NoDup (remove Nat.eq_dec c l).
Proof.
  induction 1 as [|x l Hx _ IH]; simpl.
  - constructor.
  - destruct (Nat.eq_dec c x); [exact IH|].
    constructor; [|exact IH]. intro Hin. apply in_remove in Hin. tauto.
Qed.

Lemma matchings_injective (rows : list nat) :
  forall cols p,
    NoDup rows -> NoDup cols -> In p (Scipy.matchings rows cols) ->
    NoDup (map fst p) /\ NoDup (map snd p).
Proof.
  induction rows as [|r0 rows IH]; intros cols p Hr Hc Hp; simpl in Hp.
  - destruct Hp as [<-|[]]. split; constructor.
  - inversion Hr as [|? ? Hr0 Hr']; subst.
    apply in_app_or in Hp as [Hp|Hp].
    + apply in_flat_map in Hp as (c0 & Hc0 & Hp).
      apply in_map_iff in Hp as (p' & <- & Hp').
      destruct (IH _ _ Hr' (remove_NoDup c0 cols Hc) Hp') as (H1 & H2).
      split; simpl; constructor; try assumption.
      * intro Hin. apply in_map_iff in Hin as ([r c] & Heq & Hin). simpl in Heq. subst r.
        destruct (matchings_sound _ _ _ Hp' _ _ Hin) as (Hin' & _). contradiction.
      * intro Hin. apply in_map_iff in Hin as ([r c] & Heq & Hin). simpl in Heq. subst c.
        destruct (matchings_sound _ _ _ Hp' _ _ Hin) as (_ & Hin').
        apply in_remove in Hin'. tauto.
    + apply IH with (cols := cols); assumption.
Qed.

Lemma linear_sum_assignment_matching (M : list (list Q)) :
  exists p,
    Scipy.linear_sum_assignment M = (map fst p, map snd p)
    /\ NoDup (map fst p) /\ NoDup (map snd p)
    /\ (forall r c, In (r, c) p -> (r < length M)%nat /\ (c < Scipy.num_cols M)%nat)
    /\ forall sigma,
         feasible (length M) (Scipy.num_cols M) sigma ->
         Scipy.matching_cost M p <= assignment_cost M sigma.
Proof.
  destruct (linear_sum_assignment_spec M) as (p & Hp & Hrange & Hopt).
  exists p. split; [exact Hp|].
  assert (Hnd : NoDup (map fst p) /\ NoDup (map snd p)).
  { unfold Scipy.linear_sum_assignment in Hp.
    set (cands := filter _ _) in Hp.
    assert (Hin : p = [] \/ In p cands).
    { destruct cands as [|p0 ps] eqn:E.
      - left. injection Hp as H1 _. destruct p; [reflexivity | discriminate].
      - right. rewrite <- (combine_fst_snd p).
        injection Hp as <- <-. rewrite combine_fst_snd. apply argmin_in. }
    destruct Hin as [->|Hin]; [split; constructor|].
    apply filter_In in Hin as [Hin _].
    eapply matchings_injective; [apply seq_NoDup | apply seq_NoDup | exact Hin]. }
  tauto.
Qed.

(* ================================================================== *)
(** ** Properties of the energy-preserving ranker (team 9) *)
(* ================================================================== *)

Lemma best_partner_loop_inv (player : Member) (task : Task) (ms : list Member) :
  forall (bp : option nat) (br : option Q) (res : option nat),
    Team9.best_partner_loop player task ms bp br = Normal res ->
    exists br',
      (forall partner' m', In partner' ms -> eligible_partner player task partner' m' ->
                           Team9.above m' br' = false)
      /\ (forall x, Team9.above x br' = true -> Team9.above x br = true)
      /\ ((res = bp /\ br' = br)
          \/ exists partner m,
               In partner ms /\ res = Some (id partner)
               /\ eligible_partner player task partner m /\ br' = Some m).
Proof.
  induction ms as [|partner rest IH]; intros bp br res H; simpl in H.
  - injection H as <-. exists br. split; [intros ? ? []|]. split; [auto|].
    left. split; reflexivity.
  - assert (Hskip : forall bp0 br0,
              Team9.best_partner_loop player task rest bp0 br0 = Normal res ->
              bp0 = bp -> br0 = br ->
              (forall m', ~ eligible_partner player task partner m'
                          \/ Team9.above m' br = false) ->
              exists br',
                (forall partner' m', In partner' (partner :: rest) ->
                   eligible_partner player task partner' m' ->
                   Team9.above m' br' = false)
                /\ (forall x, Team9.above x br' = true -> Team9.above x br = true)
                /\ ((res = bp /\ br' = br)
                    \/ exists p m,
                         In p (partner :: rest) /\ res = Some (id p)
                         /\ eligible_partner player task p m /\ br' = Some m)).
    { intros bp0 br0 H0 -> -> Hno.
      destruct (IH _ _ _ H0) as (br' & Hmax & Hmono & Hres).
      exists br'. split; [|split; [exact Hmono|]].
      - intros p' m' [<-|Hin] Hel; [|eauto].
        destruct (Hno m') as [Hn|Hn]; [contradiction|].
        destruct (Team9.above m' br') eqn:E; [|reflexivity].
        rewrite (Hmono m' E) in Hn. discriminate.
      - destruct Hres as [Hres|(p & m & Hin & Hres)]; [left; exact Hres|].
        right. exists p, m. split; [right; exact Hin | exact Hres]. }
    destruct ((id partner =? id player)%nat || incapacitated partner) eqn:Hsk.
    { apply (Hskip _ _ H eq_refl eq_refl). intro m'. left. unfold eligible_partner.
      intros (Hid & Hinc & _).
      apply orb_true_iff in Hsk as [Hsk|Hsk];
        [apply Nat.eqb_eq in Hsk; contradiction | congruence]. }
    apply orb_false_iff in Hsk as [Hid Hinc]. apply Nat.eqb_neq in Hid.
    apply bind_Normal in H as (alone & Halone & H).
    destruct alone.
    { apply (Hskip _ _ H eq_refl eq_refl). intro m'. left. unfold eligible_partner.
      intros (_ & _ & Hal & _). congruence. }
    apply bind_Normal in H as (c & Hc & H). cbv zeta in H.
    destruct (ltb 0 (energy player - c) && ltb 0 (energy partner - c)) eqn:Hpos.
    2:{ apply (Hskip _ _ H eq_refl eq_refl). intro m'. left. unfold eligible_partner.
        intros (_ & _ & _ & c' & Hc' & H1 & H2 & _).
        rewrite Hc in Hc'. injection Hc' as <-.
        apply ltb_true in H1. apply ltb_true in H2.
        rewrite H1, H2 in Hpos. discriminate. }
    apply andb_true_iff in Hpos as [H1 H2].
    apply ltb_true in H1. apply ltb_true in H2.
    set (m := Qmin (energy player - c) (energy partner - c)) in *.
    assert (Hel : eligible_partner player task partner m).
    { unfold eligible_partner. repeat split; try assumption.
      exists c. repeat split; assumption. }
    assert (Huniq : forall m', eligible_partner player task partner m' -> m' = m).
    { unfold eligible_partner. intros m' (_ & _ & _ & c' & Hc' & _ & _ & ->).
      rewrite Hc in Hc'. injection Hc' as <-. reflexivity. }
    destruct (Team9.above m br) eqn:Habove.
    + destruct (IH _ _ _ H) as (br' & Hmax & Hmono & Hres).
      exists br'. split; [|split].
      * intros p' m' [<-|Hin] Hel'; [|eauto].
        rewrite (Huniq m' Hel').
        destruct (Team9.above m br') eqn:E; [|reflexivity].
        apply Hmono in E. simpl in E. apply ltb_true in E. lra.
      * intros x Hx. apply Hmono in Hx. simpl in Hx. apply ltb_true in Hx.
        destruct br as [b|]; [|reflexivity]. simpl in *.
        apply ltb_true in Habove. apply ltb_true. lra.
      * right. destruct Hres as [[-> ->]|(p & m0 & Hin & Hres)].
        -- exists partner, m. split; [left; reflexivity|]. auto.
        -- exists p, m0. split; [right; exact Hin | exact Hres].
    + apply (Hskip _ _ H eq_refl eq_refl). intro m'.
      destruct (Team9.above m' br) eqn:E; [|right; reflexivity].
      left. intro Hel'. rewrite (Huniq m' Hel') in E. congruence.
Qed.

(** X18: for one task, team 9's partner loop returns an eligible partner
    (not the player, not incapacitated, unable to complete the task alone,
    both energies positive after the cost) that leaves the largest minimum
    remaining energy among all eligible members, and returns none exactly
    when no member is eligible. *)
Theorem best_partner_maximises_remaining (player : Member) (task : Task)
    (ms : list Member) (res : option nat) :
  Team9.best_partner_loop player task ms None None = Normal res ->
  match res with
  | Some partner_id =>
      exists partner m,
        In partner ms /\ id partner = partner_id
        /\ eligible_partner player task partner m
        /\ forall partner' m',
             In partner' ms -> eligible_partner player task partner' m' -> m' <= m
  | None =>
      forall partner' m', In partner' ms -> ~ eligible_partner player task partner' m'
  end.
Proof.
  intro H. destruct (best_partner_loop_inv _ _ _ _ _ _ H) as (br' & Hmax & _ & Hres).
  destruct Hres as [[-> ->]|(partner & m & Hin & -> & Hel & ->)].
  - intros p' m' Hin Hel. specialize (Hmax p' m' Hin Hel). discriminate.
  - exists partner, m. split; [exact Hin|]. split; [reflexivity|].
    split; [exact Hel|].
    intros p' m' Hin' Hel'. specialize (Hmax p' m' Hin' Hel').
    simpl in Hmax. apply ltb_false in Hmax. exact Hmax.
Qed.

Lemma best_partner_maximises_remaining_scenario :
  exists partner m,
    In partner [fit 1 [3; 3] 10; fit 2 [2; 2] 10; fit 3 [4; 1] 3]
    /\ id partner = 2%nat
    /\ eligible_partner (fit 1 [3; 3] 10) [5; 5] partner m
    /\ forall partner' m',
         In partner' [fit 1 [3; 3] 10; fit 2 [2; 2] 10; fit 3 [4; 1] 3] ->
         eligible_partner (fit 1 [3; 3] 10) [5; 5] partner' m' -> m' <= m.
Proof.
  apply (best_partner_maximises_remaining (fit 1 [3; 3] 10) [5; 5]
           [fit 1 [3; 3] 10; fit 2 [2; 2] 10; fit 3 [4; 1] 3] (Some 2%nat)).
  vm_compute. reflexivity.
Defined.

Lemma sort_desc_sorted {A : Type} (key : A -> Q) (l : list A) :
  StronglySorted (fun x y => key y <= key x) (sort_desc key l).
Proof.
  induction l as [|x l IH]; simpl; [constructor|].
  revert IH. generalize (sort_desc key l). clear l.
  intros l Hs. induction Hs as [|y l Hs IH Hy]; simpl.
  - constructor; constructor.
  - destruct (ltb (key x) (key y)) eqn:E.
    + apply ltb_true in E. constructor; [exact IH|].
      eapply Permutation_Forall; [apply insert_desc_perm|].
      constructor; [lra | exact Hy].
    + apply ltb_false in E. constructor; [constructor; assumption|].
      constructor; [exact E|].
      eapply Forall_impl; [|exact Hy]. intros z Hz. simpl in Hz. lra.
Qed.

Lemma StronglySorted_filter {A : Type} (R : A -> A -> Prop) (p : A -> bool)
    (l : list A) :
  StronglySorted R l -> StronglySorted R (filter p l).
Proof.
  induction 1 as [|x l _ IH Hx]; simpl; [constructor|].
  destruct (p x); [|exact IH].
  constructor; [exact IH|].
  apply Forall_forall. intros y Hy. apply filter_In in Hy as [Hy _].
  rewrite Forall_forall in Hx. auto.
Qed.

Lemma enumerate_In (ts : list Task) (t : nat) (task : Task) :
  In (t, task) (Team9.enumerate ts) <-> nth_error ts t = Some task.
Proof.
  unfold Team9.enumerate.
  assert (H : forall s, In (t, task) (combine (seq s (length ts)) ts)
                        <-> (s <= t)%nat /\ nth_error ts (t - s) = Some task).
  { induction ts as [|x ts IH]; intro s; simpl.
    - split; [intros [] | intros [_ H]; destruct (t - s)%nat; discriminate].
    - rewrite IH. split.
      + intros [Heq|[Hle Hn]].
        * injection Heq as <- <-. rewrite Nat.sub_diag. split; [lia | reflexivity].
        * split; [lia|]. replace (t - s)%nat with (S (t - S s)) by lia. exact Hn.
      + intros [Hle Hn]. destruct (Nat.eq_dec s t) as [->|Hne].
        * rewrite Nat.sub_diag in Hn. simpl in Hn. injection Hn as ->. left. reflexivity.
        * right. split; [lia|].
          replace (t - s)%nat with (S (t - S s)) in Hn by lia. exact Hn. }
  rewrite H, Nat.sub_0_r. intuition lia.
Qed.

Lemma enumerate_fst (ts : list Task) :
  map fst (Team9.enumerate ts) = seq 0 (length ts).
Proof.
  unfold Team9.enumerate. generalize 0%nat.
  induction ts as [|x ts IH]; intro s; simpl; [reflexivity|].
  rewrite IH. reflexivity.
Qed.

Lemma partner_tasks_filter (player : Member) (ms : list Member)
    (sorted_tasks : list (nat * Task)) (out : list (nat * nat)) :
  Team9.partner_tasks player ms sorted_tasks = Normal out ->
  Forall2 (fun entry o =>
             fst o = fst entry
             /\ Team9.can_complete_alone (snd entry) (abilities player) = Normal false
             /\ Team9.best_partner_loop player (snd entry) ms None None
                = Normal (Some (snd o)))
          (filter (keeps_task player ms) sorted_tasks) out.
Proof.
  revert out. induction sorted_tasks as [|[t task] rest IH]; intros out H; simpl in H.
  - injection H as <-. constructor.
  - apply bind_Normal in H as (alone & Halone & H).
    simpl. unfold keeps_task at 1. cbn [snd]. rewrite Halone.
    destruct alone; [apply IH; exact H|].
    apply bind_Normal in H as (best & Hbest & H). rewrite Hbest.
    apply bind_Normal in H as (others & Hothers & H).
    destruct best as [pid|]; injection H as <-; [|apply IH; exact Hothers].
    constructor; [|apply IH; exact Hothers].
    cbn [fst snd]. auto.
Qed.

(** X19: every pair team 9's phase I returns names a valid task that the
    player cannot complete alone and the eligible partner (never the
    player, never incapacitated, unable to complete the task alone, both
    energies positive after the cost) with the largest minimum remaining
    energy; no task appears twice; and the pairs come in order of
    decreasing total task difficulty. *)
Theorem team9_phaseI_sound {G : Type}
    (player : Member) (community : Community) (global_random : G)
    (out : list (nat * nat)) :
  Team9.phaseIpreferences player community global_random = Normal out ->
  NoDup (map fst out)
  /\ (forall task_index partner_id, In (task_index, partner_id) out ->
        exists task partner m,
          nth_error (tasks community) task_index = Some task
          /\ Team9.can_complete_alone task (abilities player) = Normal false
          /\ In partner (members community) /\ id partner = partner_id
          /\ eligible_partner player task partner m
          /\ forall partner' m',
               In partner' (members community) ->
               eligible_partner player task partner' m' -> m' <= m)
  /\ exists difficulties,
       Forall2 (fun o s => exists task,
                  nth_error (tasks community) (fst o) = Some task /\ s = sum task)
               out difficulties
       /\ StronglySorted (fun a b => b <= a) difficulties.
Proof.
  unfold Team9.phaseIpreferences. intro H.
  apply partner_tasks_filter in H.
  set (sorted := sort_desc (fun x : nat * Task => sum (snd x))
                           (Team9.enumerate (tasks community))) in *.
  assert (Hperm : Permutation (Team9.enumerate (tasks community)) sorted)
    by apply sort_desc_perm.
  set (kept := filter (keeps_task player (members community)) sorted) in *.
  change (filter _ _) with kept in H.
  assert (Hkept_in : forall e, In e kept ->
            nth_error (tasks community) (fst e) = Some (snd e)).
  { intros [t task] He. apply filter_In in He as [He _].
    apply (Permutation_in _ (Permutation_sym Hperm)) in He.
    apply enumerate_In in He. exact He. }
  assert (Hfst : map fst out = map fst kept).
  { clear - H. revert H. generalize kept. intros k H.
    induction H as [|e o es os (Hf & _) _ IH]; simpl; [reflexivity|].
    rewrite Hf, IH. reflexivity. }
  split; [|split].
  - rewrite Hfst.
    assert (Hnd : NoDup (map fst sorted)).
    { eapply Permutation_NoDup; [apply Permutation_map; exact Hperm|].
      rewrite enumerate_fst. apply seq_NoDup. }
    clear - Hnd. unfold kept. revert Hnd. generalize sorted. intros l0 Hnd.
    induction l0 as [|e l IH]; simpl; [constructor|].
    simpl in Hnd. inversion Hnd as [|? ? Hnot Hnd']; subst.
    destruct (keeps_task player (members community) e); [|auto].
    simpl. constructor; [|auto].
    intro Hin. apply Hnot. apply in_map_iff in Hin as (x & Hx & Hin).
    apply filter_In in Hin as [Hin _]. rewrite <- Hx. apply in_map. exact Hin.
  - intros t pid Hin.
    assert (Hex : exists e, In e kept /\ fst e = t
                    /\ Team9.can_complete_alone (snd e) (abilities player) = Normal false
                    /\ Team9.best_partner_loop player (snd e) (members community)
                         None None = Normal (Some pid)).
    { clear - H Hin. revert H. generalize kept. intros k H.
      induction H as [|e o es os (Hf & Ha & Hb) _ IH]; [destruct Hin|].
      destruct Hin as [->|Hin].
      - exists e. simpl in *. split; [left; reflexivity|]. auto.
      - destruct (IH Hin) as (e' & He' & Hrest). exists e'.
        split; [right; exact He' | exact Hrest]. }
    destruct Hex as ([t' task] & He & Ht & Halone & Hbest). simpl in Ht. subst t'.
    apply Hkept_in in He. simpl in He, Halone, Hbest.
    pose proof (best_partner_loop_inv _ _ _ _ _ _ Hbest) as (br' & Hmax & _ & Hres).
    destruct Hres as [[Hn _]|(partner & m & Hp & Hid & Hel & ->)]; [discriminate|].
    injection Hid as ->.
    exists task, partner, m. repeat split; try assumption.
    + destruct Hel as (? & _). assumption.
    + destruct Hel as (_ & ? & _). assumption.
    + destruct Hel as (_ & _ & ? & _). assumption.
    + destruct Hel as (_ & _ & _ & ?). assumption.
    + intros p' m' Hin' Hel'. specialize (Hmax p' m' Hin' Hel').
      simpl in Hmax. apply ltb_false in Hmax. exact Hmax.
  - exists (map (fun e : nat * Task => sum (snd e)) kept). split.
    + clear - H Hkept_in. revert H Hkept_in. generalize kept. intros k H Hkept_in.
      induction H as [|e o es os (Hf & _) _ IH]; simpl; constructor.
      * exists (snd e). rewrite Hf. split; [|reflexivity].
        apply Hkept_in. left. reflexivity.
      * apply IH. intros e' He'. apply Hkept_in. right. exact He'.
    + assert (Hs : StronglySorted (fun x y : nat * Task => sum (snd y) <= sum (snd x))
                                  kept)
        by (apply StronglySorted_filter, sort_desc_sorted).
      clear - Hs. revert Hs. generalize kept. intros k Hs.
      induction Hs as [|e l _ IH He]; simpl; constructor; [exact IH|].
      apply Forall_forall. intros s Hin. apply in_map_iff in Hin as (x & <- & Hx).
      rewrite Forall_forall in He. auto.
Qed.

Lemma team9_phaseI_sound_scenario :
  NoDup (map fst [(2%nat, 2%nat); (0%nat, 2%nat); (3%nat, 2%nat)])
  /\ (forall task_index partner_id,
        In (task_index, partner_id) [(2%nat, 2%nat); (0%nat, 2%nat); (3%nat, 2%nat)] ->
        exists task partner m,
          nth_error [[5; 5]; [1; 1]; [9; 9]; [4; 4]] task_index = Some task
          /\ Team9.can_complete_alone task [3; 3] = Normal false
          /\ In partner [fit 1 [3; 3] 10; fit 2 [2; 2] 10; fit 3 [4; 1] 3;
                         mkMember 4 [5; 5] 10 true]
          /\ id partner = partner_id
          /\ eligible_partner (fit 1 [3; 3] 10) task partner m
          /\ forall partner' m',
               In partner' [fit 1 [3; 3] 10; fit 2 [2; 2] 10; fit 3 [4; 1] 3;
                            mkMember 4 [5; 5] 10 true] ->
               eligible_partner (fit 1 [3; 3] 10) task partner' m' -> m' <= m)
  /\ exists difficulties,
       Forall2 (fun o s => exists task,
                  nth_error [[5; 5]; [1; 1]; [9; 9]; [4; 4]] (fst o) = Some task
                  /\ s = sum task)
               [(2%nat, 2%nat); (0%nat, 2%nat); (3%nat, 2%nat)] difficulties
       /\ StronglySorted (fun a b => b <= a) difficulties.
Proof.
  apply (team9_phaseI_sound (fit 1 [3; 3] 10)
           (mkCommunity [fit 1 [3; 3] 10; fit 2 [2; 2] 10; fit 3 [4; 1] 3;
                         mkMember 4 [5; 5] 10 true]
                        [[5; 5]; [1; 1]; [9; 9]; [4; 4]]) tt).
  vm_compute. reflexivity.
Defined.

Lemma key_ltb_false (k1 k2 : Q * Q) :
  Team9.key_ltb k2 k1 = false <-> key_le k1 k2.
Proof.
  unfold Team9.key_ltb, key_le. destruct k1 as [a1 b1], k2 as [a2 b2]. cbn [fst snd].
  rewrite orb_false_iff, andb_false_iff, !ltb_false. split.
  - intros [H1 [H2|H2]].
    + apply Qeq_bool_neq in H2.
      destruct (Qlt_le_dec a1 a2) as [Hlt|Hge]; [left; exact Hlt|].
      exfalso. apply H2. lra.
    + destruct (Qlt_le_dec a1 a2) as [Hlt|Hge]; [left; exact Hlt|].
      right. split; [lra | exact H2].
  - intros [Hlt|[Heq Hle]].
    + split; [lra|]. left.
      destruct (Qeq_bool a2 a1) eqn:E; [|reflexivity].
      apply Qeq_bool_iff in E. lra.
    + split; [lra|]. right. exact Hle.
Qed.

Lemma key_le_trans (k1 k2 k3 : Q * Q) : key_le k1 k2 -> key_le k2 k3 -> key_le k1 k3.
Proof.
  unfold key_le. intros [H1|[H1 H1']] [H2|[H2 H2']].
  - left. lra.
  - left. lra.
  - left. lra.
  - right. split; lra.
Qed.

Lemma key_ltb_true_le (k1 k2 : Q * Q) : Team9.key_ltb k1 k2 = true -> key_le k1 k2.
Proof.
  unfold Team9.key_ltb, key_le. intro H. apply orb_true_iff in H as [H|H].
  - apply ltb_true in H. left. exact H.
  - apply andb_true_iff in H as [H1 H2].
    apply Qeq_bool_iff in H1. apply ltb_true in H2. right. split; lra.
Qed.

Lemma insert_asc_perm {A : Type} (key : A -> Q * Q) (x : A) (l : list A) :
  Permutation (x :: l) (Team9.insert_asc key x l).
Proof.
  induction l as [|y l IH]; simpl.
  - reflexivity.
  - destruct (Team9.key_ltb (key y) (key x)).
    + rewrite perm_swap. constructor. exact IH.
    + reflexivity.
Qed.

Lemma sort_asc_perm {A : Type} (key : A -> Q * Q) (l : list A) :
  Permutation l (Team9.sort_asc key l).
Proof.
  induction l as [|x l IH]; simpl.
  - constructor.
  - rewrite <- insert_asc_perm. constructor. exact IH.
Qed.

Lemma sort_asc_sorted {A : Type} (key : A -> Q * Q) (l : list A) :
  StronglySorted (fun x y => key_le (key x) (key y)) (Team9.sort_asc key l).
Proof.
  induction l as [|x l IH]; simpl; [constructor|].
  revert IH. generalize (Team9.sort_asc key l). clear l.
  intros l Hs. induction Hs as [|y l Hs IH Hy]; simpl.
  - constructor; constructor.
  - destruct (Team9.key_ltb (key y) (key x)) eqn:E.
    + apply key_ltb_true_le in E. constructor; [exact IH|].
      eapply Permutation_Forall; [apply insert_asc_perm|].
      constructor; [exact E | exact Hy].
    + apply key_ltb_false in E. constructor; [constructor; assumption|].
      constructor; [exact E|].
      eapply Forall_impl; [|exact Hy]. intros z Hz. simpl in Hz.
      eapply key_le_trans; eassumption.
Qed.

Lemma affordable_tasks_spec (player : Member) (ts : list Task) :
  forall (i0 : nat) (prefs : list (nat * Q * Q)),
    Team9.affordable_tasks player i0 ts = Normal prefs ->
    NoDup (map (fun x => fst (fst x)) prefs)
    /\ forall i c rem,
         In (i, c, rem) prefs
         <-> (i0 <= i)%nat
             /\ exists task,
                  nth_error ts (i - i0) = Some task
                  /\ Team3.calculate_solo_cost (abilities player) task = Normal c
                  /\ 0 < energy player - c /\ rem = energy player - c.
Proof.
  induction ts as [|task rest IH]; intros i0 prefs H; simpl in H.
  - injection H as <-. split; [constructor|].
    intros i c rem. split; [intros [] | intros (_ & t & Hn & _)].
    destruct (i - i0)%nat; discriminate.
  - apply bind_Normal in H as (c0 & Hc0 & H). cbv zeta in H.
    apply bind_Normal in H as (others & Hothers & H).
    destruct (IH (S i0) others Hothers) as (Hnd & Hspec).
    assert (Hge : forall x, In x others -> (S i0 <= fst (fst x))%nat).
    { intros [[i c] rem] Hin. apply Hspec in Hin. simpl. tauto. }
    assert (Hrest : forall i c rem,
              ((S i0 <= i)%nat
               /\ exists t, nth_error rest (i - S i0) = Some t
                    /\ Team3.calculate_solo_cost (abilities player) t = Normal c
                    /\ 0 < energy player - c /\ rem = energy player - c)
              <-> ((i0 < i)%nat
                   /\ exists t, nth_error (task :: rest) (i - i0) = Some t
                        /\ Team3.calculate_solo_cost (abilities player) t = Normal c
                        /\ 0 < energy player - c /\ rem = energy player - c)).
    { intros i c rem. split; intros (Hle & t & Hn & Hr); (split; [lia|]); exists t;
        (split; [|exact Hr]).
      - replace (i - i0)%nat with (S (i - S i0)) by lia. exact Hn.
      - replace (i - i0)%nat with (S (i - S i0)) in Hn by lia. exact Hn. }
    destruct (ltb 0 (energy player - c0)) eqn:Hpos; injection H as <-.
    + apply ltb_true in Hpos. split.
      * simpl. constructor; [|exact Hnd].
        intro Hin. apply in_map_iff in Hin as (x & Hx & Hin).
        specialize (Hge x Hin). lia.
      * intros i c rem. simpl. rewrite Hspec, Hrest. split.
        -- intros [Heq|(Hlt & Hr)].
           ++ injection Heq as <- <- <-. split; [lia|]. exists task.
              rewrite Nat.sub_diag. auto.
           ++ split; [lia | exact Hr].
        -- intros (Hle & t & Hn & Hc & Hp & Hrem).
           destruct (Nat.eq_dec i i0) as [->|Hne].
           ++ left. rewrite Nat.sub_diag in Hn. simpl in Hn. injection Hn as <-.
              rewrite Hc0 in Hc. injection Hc as <-. rewrite Hrem. reflexivity.
           ++ right. split; [lia|]. exists t. auto.
    + apply ltb_false in Hpos. split; [exact Hnd|].
      intros i c rem. rewrite Hspec, Hrest. split.
      * intros (Hlt & Hr). split; [lia | exact Hr].
      * intros (Hle & t & Hn & Hc & Hp & Hrem).
        destruct (Nat.eq_dec i i0) as [->|Hne].
        -- rewrite Nat.sub_diag in Hn. simpl in Hn. injection Hn as <-.
           rewrite Hc0 in Hc. injection Hc as <-. lra.
        -- split; [lia|]. exists t. auto.
Qed.

(** X20: team 9's phase II returns exactly the tasks whose solo cost is
    strictly below the player's energy, each index once, ordered by
    increasing solo cost. *)
Theorem team9_phaseII_spec {G : Type}
    (player : Member) (community : Community) (global_random : G) (out : list nat) :
  Team9.phaseIIpreferences player community global_random = Normal out ->
  NoDup out
  /\ (forall i,
        In i out
        <-> exists task c,
              nth_error (tasks community) i = Some task
              /\ Team3.calculate_solo_cost (abilities player) task = Normal c
              /\ c < energy player)
  /\ exists costs,
       Forall2 (fun i c => exists task,
                  nth_error (tasks community) i = Some task
                  /\ Team3.calculate_solo_cost (abilities player) task = Normal c)
               out costs
       /\ StronglySorted Qle costs.
Proof.
  unfold Team9.phaseIIpreferences. intro H.
  apply bind_Normal in H as (prefs & Hprefs & H). injection H as <-.
  destruct (affordable_tasks_spec _ _ _ _ Hprefs) as (Hnd & Hspec).
  set (key := fun x : nat * Q * Q => (snd (fst x), - snd x)).
  pose proof (sort_asc_perm key prefs) as Hperm.
  pose proof (sort_asc_sorted key prefs) as Hsorted.
  assert (Hin_sorted : forall x, In x (Team9.sort_asc key prefs) <-> In x prefs).
  { intro x. split; apply Permutation_in; [apply Permutation_sym|]; exact Hperm. }
  split; [|split].
  - eapply Permutation_NoDup; [|exact Hnd].
    apply (Permutation_map (fun x : nat * Q * Q => fst (fst x))). exact Hperm.
  - intro i. rewrite in_map_iff. split.
    + intros ([[i' c] rem] & Heq & Hin). simpl in Heq. subst i'.
      apply Hin_sorted, Hspec in Hin. destruct Hin as (_ & task & Hn & Hc & Hp & _).
      rewrite Nat.sub_0_r in Hn. exists task, c. repeat split; try assumption. lra.
    + intros (task & c & Hn & Hc & Hlt).
      exists (i, c, energy player - c). split; [reflexivity|].
      apply Hin_sorted, Hspec. split; [lia|]. exists task.
      rewrite Nat.sub_0_r. repeat split; try assumption. lra.
  - exists (map (fun x : nat * Q * Q => snd (fst x)) (Team9.sort_asc key prefs)). split.
    + assert (Hall : forall x, In x (Team9.sort_asc key prefs) -> In x prefs)
        by (intros x Hx; apply Hin_sorted; exact Hx).
      revert Hall. generalize (Team9.sort_asc key prefs). intros l Hall.
      induction l as [|[[i c] rem] l IH]; simpl; constructor.
      * destruct (proj1 (Hspec i c rem) (Hall _ (or_introl eq_refl)))
          as (_ & task & Hn & Hc & _).
        rewrite Nat.sub_0_r in Hn. exists task. auto.
      * apply IH. intros x Hx. apply Hall. right. exact Hx.
    + revert Hsorted. generalize (Team9.sort_asc key prefs). intros l Hs.
      induction Hs as [|x l _ IH Hx]; simpl; constructor; [exact IH|].
      apply Forall_forall. intros c Hc. apply in_map_iff in Hc as (y & <- & Hy).
      rewrite Forall_forall in Hx. specialize (Hx y Hy).
      unfold key, key_le in Hx. cbn [fst snd] in Hx.
      destruct Hx as [Hx|[Hx _]]; lra.
Qed.

Lemma team9_phaseII_spec_scenario :
  NoDup [1; 3; 4; 0]%nat
  /\ (forall i,
        In i [1; 3; 4; 0]%nat
        <-> exists task c,
              nth_error [[5; 5]; [1; 1]; [9; 9]; [4; 4]; [3; 5]] i = Some task
              /\ Team3.calculate_solo_cost [3; 3] task = Normal c
              /\ c < 10)
  /\ exists costs,
       Forall2 (fun i c => exists task,
                  nth_error [[5; 5]; [1; 1]; [9; 9]; [4; 4]; [3; 5]] i = Some task
                  /\ Team3.calculate_solo_cost [3; 3] task = Normal c)
               [1; 3; 4; 0]%nat costs
       /\ StronglySorted Qle costs.
Proof.
  apply (team9_phaseII_spec (fit 1 [3; 3] 10)
           (mkCommunity [fit 1 [3; 3] 10] [[5; 5]; [1; 1]; [9; 9]; [4; 4]; [3; 5]]) tt).
  vm_compute. reflexivity.
Defined.

Lemma solo_cost_short (A T : list Q) :
  (length A < length T)%nat -> Team3.calculate_solo_cost A T = Raise IndexError.
Proof.
  intro H. unfold Team3.calculate_solo_cost.
  rewrite (mapM_raise _ IndexError); [reflexivity | |].
  - intros i _. destruct (getitem_cases T i) as [E|(t & E)]; rewrite E; simpl; [auto|].
    destruct (getitem_cases A i) as [E'|(a & E')]; rewrite E'; simpl; eauto.
  - exists (length A). split; [apply in_range; exact H|].
    rewrite (getitem_nth T _ 0) by exact H. simpl.
    rewrite getitem_out by lia. reflexivity.
Qed.

Lemma affordable_tasks_cases (player : Member) (ts : list Task) :
  forall i0,
    (Forall (fun t => (length t <= length (abilities player))%nat) ts
     /\ exists prefs, Team9.affordable_tasks player i0 ts = Normal prefs)
    \/ (Exists (fun t => (length (abilities player) < length t)%nat) ts
        /\ Team9.affordable_tasks player i0 ts = Raise IndexError).
Proof.
  induction ts as [|task rest IH]; intro i0; simpl.
  - left. split; [constructor | eauto].
  - destruct (Nat.lt_ge_cases (length (abilities player)) (length task)) as [Hlt|Hge].
    + right. split; [left; exact Hlt|].
      rewrite solo_cost_short by exact Hlt. reflexivity.
    + rewrite solo_cost_eval by exact Hge. cbn [bind].
      destruct (IH (S i0)) as [(Hall & prefs & E)|(Hex & E)]; rewrite E; cbn [bind].
      * left. split; [constructor; assumption|].
        destruct (ltb 0 _); eauto.
      * right. split; [right; exact Hex | reflexivity].
Qed.

(** X21: team 9's phase II returns a list exactly when no task is longer
    than the player's ability vector, and raises [IndexError] to the
    caller exactly when some task is. *)
Theorem team9_phaseII_raises_iff :
  forall (G : Type) (player : Member) (community : Community) (global_random : G),
    ((exists out, Team9.phaseIIpreferences player community global_random = Normal out)
     <-> Forall (fun t => (length t <= length (abilities player))%nat)
                (tasks community))
    /\ (Team9.phaseIIpreferences player community global_random = Raise IndexError
        <-> Exists (fun t => (length (abilities player) < length t)%nat)
                   (tasks community)).
Proof.
  intros. unfold Team9.phaseIIpreferences.
  destruct (affordable_tasks_cases player (tasks community) 0%nat)
    as [(Hall & prefs & E)|(Hex & E)]; rewrite E; cbn [bind ret].
  - split; split; intro H; try eauto; try discriminate.
    exfalso. apply Exists_exists in H as (t & Hin & Hlt).
    rewrite Forall_forall in Hall. specialize (Hall t Hin). lia.
  - split; split; intro H; try reflexivity; try assumption.
    + destruct H as (out & H). discriminate.
    + exfalso. apply Exists_exists in Hex as (t & Hin & Hlt).
      rewrite Forall_forall in H. specialize (H t Hin). lia.
Qed.

(* ================================================================== *)
(** ** Where the suitability score is undefined *)
(* ================================================================== *)

Lemma filter_nil_iff {A : Type} (p : A -> bool) (l : list A) :
  filter p l = [] <-> Forall (fun x => p x = false) l.
Proof.
  induction l as [|x l IH]; simpl.
  - split; [constructor | reflexivity].
  - destruct (p x) eqn:E.
    + split; [discriminate|]. intro H. inversion H; congruence.
    + rewrite IH. split; [constructor; assumption|]. intro H. inversion H; assumption.
Qed.

Lemma evaluate_task_suitability_cases (player : Member) (task : Task) (avg : list Q) :
  (length task <= length (abilities player))%nat ->
  (length task <= length avg)%nat ->
  (Forall (fun t => t <= 0) task
   /\ Team3.evaluate_task_suitability player task avg = Raise ZeroDivisionError)
  \/ (Exists (fun t => 0 < t) task
      /\ exists r, Team3.evaluate_task_suitability player task avg = Normal r).
Proof.
  intros Hab Havg. unfold Team3.evaluate_task_suitability.
  rewrite solo_cost_eval by exact Hab. cbn [bind].
  rewrite (mapM_total _ (fun i => leb (nth i task 0) (nth i (abilities player) 0))).
  2:{ intros i Hi. apply in_range in Hi.
      rewrite (getitem_nth (abilities player) i 0) by lia. cbn [bind].
      rewrite (getitem_nth task i 0) by lia. reflexivity. }
  cbn [bind].
  destruct task as [|t0 task'] eqn:Etask.
  { left. split; [constructor | reflexivity]. }
  rewrite <- Etask in *.
  rewrite truediv_nonzero by (apply len_nonzero; rewrite Etask; discriminate).
  cbn [bind].
  rewrite (mapM_total _ (fun i => nth i (abilities player) 0 - nth i avg 0)).
  2:{ intros i Hi. apply filter_In in Hi as [Hi _]. apply in_range in Hi.
      rewrite (getitem_nth (abilities player) i 0) by lia. cbn [bind].
      rewrite (getitem_nth avg i 0) by lia. reflexivity. }
  cbn [bind]. unfold count.
  destruct (filter (fun t => ltb 0 t) task) as [|p ps] eqn:Ef.
  - left. split; [|reflexivity].
    apply filter_nil_iff in Ef. eapply Forall_impl; [|exact Ef].
    intros t Ht. simpl in Ht. apply ltb_false in Ht. exact Ht.
  - right. split.
    + apply Exists_exists. exists p.
      assert (Hp : In p (filter (fun t => ltb 0 t) task))
        by (rewrite Ef; left; reflexivity).
      apply filter_In in Hp as [Hp1 Hp2]. apply ltb_true in Hp2. auto.
    + rewrite truediv_nonzero by (apply len_nonzero; discriminate).
      cbn [bind ret]. eauto.
Qed.

(** X22: for a task no longer than the player's abilities and the
    community averages, the suitability evaluation raises
    [ZeroDivisionError] exactly when the task has no strictly positive
    difficulty (the empty task included), and returns otherwise. *)
Theorem evaluate_task_suitability_raises_iff (player : Member) (task : Task)
    (avg : list Q) :
  (length task <= length (abilities player))%nat ->
  (length task <= length avg)%nat ->
  (Team3.evaluate_task_suitability player task avg = Raise ZeroDivisionError
   <-> Forall (fun t => t <= 0) task)
  /\ ((exists r, Team3.evaluate_task_suitability player task avg = Normal r)
      <-> Exists (fun t => 0 < t) task).
Proof.
  intros Hab Havg.
  destruct (evaluate_task_suitability_cases player task avg Hab Havg)
    as [(Hall & E)|(Hex & r & E)]; rewrite E.
  - split; split; intro H; try assumption; try reflexivity.
    + destruct H as (r & H). discriminate.
    + exfalso. apply Exists_exists in H as (t & Hin & Hpos).
      rewrite Forall_forall in Hall. specialize (Hall t Hin). lra.
  - split; split; intro H; try assumption; try discriminate; try eauto.
    exfalso. apply Exists_exists in Hex as (t & Hin & Hpos).
    rewrite Forall_forall in H. specialize (H t Hin). lra.
Qed.

Lemma evaluate_task_suitability_raises_iff_scenario :
  (Team3.evaluate_task_suitability (fit 1 [3; 3] 10) [0; 0] [2; 2]
     = Raise ZeroDivisionError
   <-> Forall (fun t => t <= 0) [0; 0])
  /\ ((exists r, Team3.evaluate_task_suitability (fit 1 [3; 3] 10) [0; 0] [2; 2]
                 = Normal r)
      <-> Exists (fun t => 0 < t) [0; 0]).
Proof.
  apply (evaluate_task_suitability_raises_iff (fit 1 [3; 3] 10) [0; 0] [2; 2]);
    simpl; lia.
Defined.

Lemma evaluate_tasks_raise (player : Member) (avg : list Q) (avail : Q)
    (ts : list Task) :
  forall i0,
    Forall (fun t => (length t <= length (abilities player))%nat
                     /\ (length t <= length avg)%nat) ts ->
    Exists (fun task => Forall (fun t => t <= 0) task) ts ->
    Team3.evaluate_tasks player avg avail i0 ts = Raise ZeroDivisionError.
Proof.
  induction ts as [|task rest IH]; intros i0 Hlen Hex.
  - inversion Hex.
  - inversion Hlen as [|? ? [Hab Havg] Hrest]; subst. simpl.
    destruct (evaluate_task_suitability_cases player task avg Hab Havg)
      as [(_ & E)|(Hpos & [s c] & E)]; rewrite E; [reflexivity|].
    cbn [bind]. rewrite IH; [reflexivity | exact Hrest |].
    inversion Hex as [? ? Hz|? ? Hz]; subst; [|exact Hz].
    exfalso. apply Exists_exists in Hpos as (t & Hin & Ht).
    rewrite Forall_forall in Hz. specialize (Hz t Hin). lra.
Qed.

(** X23: on a non-empty community of one dimension, phase II of the
    heuristic ranker raises [ZeroDivisionError] to the caller whenever the
    task list contains a task without a strictly positive difficulty and
    the player holds at least twice the reserve, for every random
    source. *)
Theorem heuristic_phaseII_raises_on_flat_task {G : Type}
    (shuffle : forall A : Type, G -> list A -> list A * G)
    (d : nat) (player : Member) (community : Community) (global_random : G) :
  members community <> [] ->
  Forall (fun m => length (abilities m) = d) (members community) ->
  Forall (fun t => length t = d) (tasks community) ->
  length (abilities player) = d ->
  2 * Qmax 1 (Qmin 3 (len (tasks community) / (2 * len (members community))))
    <= energy player ->
  Exists (fun task => Forall (fun t => t <= 0) task) (tasks community) ->
  Team3.phaseIIpreferences shuffle player community global_random
  = Raise ZeroDivisionError.
Proof.
  intros Hne Hm Ht Hp Hen Hex.
  unfold Team3.phaseIIpreferences, Team3.select_tasks.
  rewrite phaseII_avg_abilities_eval; [|exact Hne|].
  2:{ eapply Forall_impl; [|exact Hm]. intros m Hlen. simpl in Hlen. lia. }
  cbn [bind]. rewrite phaseII_reserve_eval by exact Hne. cbn [bind].
  replace (ltb (energy player) _) with false.
  2:{ symmetry. apply ltb_false. lra. }
  rewrite evaluate_tasks_raise; [reflexivity | | exact Hex].
  eapply Forall_impl; [|exact Ht]. intros t Hlen. simpl in Hlen.
  rewrite length_map. unfold range. rewrite length_seq. lia.
Qed.

Lemma heuristic_phaseII_raises_on_flat_task_scenario :
  Team3.phaseIIpreferences reversing_shuffle (fit 1 [3; 3] 10)
    (mkCommunity [fit 1 [3; 3] 10; fit 2 [2; 2] 10] [[5; 5]; [0; 0]; [1; 4]]) tt
  = Raise ZeroDivisionError.
Proof.
  apply (heuristic_phaseII_raises_on_flat_task reversing_shuffle 2 (fit 1 [3; 3] 10)
           (mkCommunity [fit 1 [3; 3] 10; fit 2 [2; 2] 10] [[5; 5]; [0; 0]; [1; 4]]) tt).
  - discriminate.
  - repeat constructor.
  - repeat constructor.
  - reflexivity.
  - vm_compute. discriminate.
  - right. left. repeat constructor; vm_compute; discriminate.
Defined.

(* ================================================================== *)
(** ** Phase I of the heuristic ranker never offers the caller or an
       incapacitated member *)
(* ================================================================== *)




(* ================================================================== *)
(** ** The assignment the optimal solver produces *)
(* ================================================================== *)

Lemma matchings_rows (rows : list nat) :
  forall cols p, In p (Scipy.matchings rows cols) ->
    (length p <= length rows)%nat
    /\ (length p = length rows -> map fst p = rows).
Proof.
  induction rows as [|r0 rows IH]; intros cols p Hp; simpl in Hp.
  - destruct Hp as [<-|[]]. split; [simpl; lia | reflexivity].
  - apply in_app_or in Hp as [Hp|Hp].
    + apply in_flat_map in Hp as (c0 & _ & Hp).
      apply in_map_iff in Hp as (p' & <- & Hp').
      destruct (IH _ _ Hp') as (Hle & Heq). simpl. split; [lia|].
      intro Hlen. rewrite Heq by lia. reflexivity.
    + destruct (IH _ _ Hp) as (Hle & _). simpl. split; lia.
Qed.

(** When the matrix has at least as many columns as rows, the solver
    matches every row, in order. *)
Lemma linear_sum_assignment_rows (M : list (list Q)) (p : list (nat * nat)) :
  Scipy.linear_sum_assignment M = (map fst p, map snd p) ->
  (length M <= Scipy.num_cols M)%nat ->
  map fst p = seq 0 (length M).
Proof.
  unfold Scipy.linear_sum_assignment. intros H Hle.
  set (n := length M) in *. set (m := Scipy.num_cols M) in *.
  set (cands := filter (fun q => (length q =? Nat.min n m)%nat)
                       (Scipy.matchings (seq 0 n) (seq 0 m))) in *.
  assert (Hsome : In (combine (seq 0 n) (seq 0 n)) cands).
  { apply filter_In. split.
    - apply matchings_complete; [reflexivity | apply seq_NoDup |].
      intros c Hc. apply in_seq in Hc. apply in_seq. lia.
    - apply Nat.eqb_eq. rewrite length_combine, !length_seq. lia. }
  destruct cands as [|p0 ps] eqn:E; [destruct Hsome|].
  assert (Hp : p = Scipy.argmin (Scipy.matching_cost M) p0 ps).
  { rewrite <- (combine_fst_snd p). injection H as <- <-.
    rewrite combine_fst_snd. reflexivity. }
  assert (Hin : In p (p0 :: ps)) by (rewrite Hp; apply argmin_in).
  rewrite <- E in Hin. apply filter_In in Hin as [Hin Hlen].
  apply Nat.eqb_eq in Hlen.
  destruct (matchings_rows _ _ _ Hin) as (_ & Hrows).
  apply Hrows. rewrite length_seq. lia.
Qed.

Lemma matchings_nil (rows cols : list nat) : In [] (Scipy.matchings rows cols).
Proof.
  induction rows as [|r rows IH]; simpl; [left; reflexivity|].
  apply in_or_app. right. exact IH.
Qed.

Lemma matchings_extend (rows extra : list nat) :
  forall cols q,
    In q (Scipy.matchings rows cols) -> In q (Scipy.matchings (rows ++ extra) cols).
Proof.
  induction rows as [|r rows IH]; intros cols q Hq; simpl in *.
  - destruct Hq as [<-|[]]. apply matchings_nil.
  - apply in_app_or in Hq as [Hq|Hq]; apply in_or_app.
    + left. apply in_flat_map in Hq as (c & Hc & Hq).
      apply in_flat_map. exists c. split; [exact Hc|].
      apply in_map_iff in Hq as (q' & <- & Hq'). apply in_map. apply IH. exact Hq'.
    + right. apply IH. exact Hq.
Qed.

(** The solver always matches as many rows as the smaller side allows. *)
Lemma linear_sum_assignment_length (M : list (list Q)) (p : list (nat * nat)) :
  Scipy.linear_sum_assignment M = (map fst p, map snd p) ->
  length p = Nat.min (length M) (Scipy.num_cols M).
Proof.
  unfold Scipy.linear_sum_assignment. intro H.
  set (n := length M) in *. set (m := Scipy.num_cols M) in *.
  set (k := Nat.min n m) in *.
  set (cands := filter (fun q => (length q =? k)%nat)
                       (Scipy.matchings (seq 0 n) (seq 0 m))) in *.
  assert (Hsome : In (combine (seq 0 k) (seq 0 k)) cands).
  { apply filter_In. split.
    - replace n with (k + (n - k))%nat by (unfold k; lia).
      rewrite seq_app. apply matchings_extend.
      apply matchings_complete; [reflexivity | apply seq_NoDup |].
      intros c Hc. apply in_seq in Hc. apply in_seq. unfold k in Hc. lia.
    - apply Nat.eqb_eq. rewrite length_combine, !length_seq. lia. }
  destruct cands as [|p0 ps] eqn:E; [destruct Hsome|].
  assert (Hp : p = Scipy.argmin (Scipy.matching_cost M) p0 ps).
  { rewrite <- (combine_fst_snd p). injection H as <- <-.
    rewrite combine_fst_snd. reflexivity. }
  assert (Hin : In p (p0 :: ps)) by (rewrite Hp; apply argmin_in).
  rewrite <- E in Hin. apply filter_In in Hin as [_ Hlen].
  apply Nat.eqb_eq in Hlen. exact Hlen.
Qed.

Lemma num_cols_uniform (M : list (list Q)) (m : nat) :
  Forall (fun row => length row = m) M ->
  M = [] \/ Scipy.num_cols M = m.
Proof.
  intro H. destruct M as [|row M']; [left; reflexivity|].
  right. inversion H; subst. reflexivity.
Qed.

(** C3: on a community of at most four tasks and four members (all
    vectors of one dimension) the optimal solver returns, and what it
    returns is a matching of [min(tasks, columns)] tasks to pairwise
    distinct columns of the tasks x (partnerships + individuals) matrix,
    decoded pair by pair into the assignments, whose total cost is the sum
    of the matched cells.
    When there are at least as many columns as tasks, every task is
    matched (the produced assignment is one of the feasible ones), and its
    total cost is at most the cost of every assignment of each task to a
    distinct column. *)
Theorem assign_phase1_optimal (d : nat) (tasks : list Task) (members : list Member) :
  (length tasks <= 4)%nat ->
  (length members <= 4)%nat ->
  Forall (fun m => length (abilities m) = d) members ->
  Forall (fun t => length t = d) tasks ->
  exists cost_matrix assignments total rows cols,
    Team6.phase1_cost_matrix tasks members = Normal cost_matrix
    /\ Team6.assign_phase1 tasks members = Normal (assignments, total)
    /\ NoDup rows /\ NoDup cols /\ length rows = length cols
    /\ length rows
       = Nat.min (length tasks)
           (length (Team6.all_partnerships (length members)) + length members)
    /\ Forall (fun r => (r < length tasks)%nat) rows
    /\ Forall (fun c => (c < length (Team6.all_partnerships (length members))
                             + length members)%nat) cols
    /\ Forall2 (fun rc a =>
                  Team6.phase1_assignment tasks members cost_matrix (fst rc) (snd rc)
                  = Normal a)
               (combine rows cols) assignments
    /\ total = sum (map snd assignments)
    /\ total = Scipy.matching_cost cost_matrix (combine rows cols)
    /\ ((length tasks
         <= length (Team6.all_partnerships (length members)) + length members)%nat ->
        rows = seq 0 (length tasks)
        /\ feasible (length tasks)
             (length (Team6.all_partnerships (length members)) + length members) cols
        /\ total = assignment_cost cost_matrix cols)
    /\ forall sigma,
         feasible (length tasks)
           (length (Team6.all_partnerships (length members)) + length members) sigma ->
         total <= assignment_cost cost_matrix sigma.
Proof.
  intros _ _ Hm Ht.
  destruct (phase1_cost_matrix_defined d tasks members Hm Ht) as (M & HM & Hlen & Hrows).
  destruct (linear_sum_assignment_matching M)
    as (p & Hlsa & Hnd1 & Hnd2 & Hrange & Hopt).
  set (ncols := (length (Team6.all_partnerships (length members))
                 + length members)%nat) in *.
  assert (Hcols : forall r c, In (r, c) p ->
            (r < length tasks)%nat /\ (c < ncols)%nat).
  { intros r c Hin. destruct (Hrange r c Hin) as (Hr & Hc).
    split; [lia|]. destruct (num_cols_uniform M ncols Hrows) as [->|E];
      [simpl in Hr; lia | lia]. }
  destruct (mapM_defined
              (fun '(task_idx, col_idx) =>
                 Team6.phase1_assignment tasks members M task_idx col_idx) p)
    as (assignments & Hass).
  { intros [r c] Hin. destruct (Hcols r c Hin).
    apply phase1_assignment_defined; assumption. }
  assert (Hdecode : Forall2 (fun rc a =>
                       Team6.phase1_assignment tasks members M (fst rc) (snd rc)
                       = Normal a) p assignments).
  { eapply Forall2_impl; [|exact (mapM_Normal _ _ _ Hass)].
    intros [r c] a Ha. exact Ha. }
  assert (Hsum : Scipy.matching_cost M p = sum (map snd assignments)).
  { unfold Scipy.matching_cost. f_equal.
    clear - Hdecode. induction Hdecode as [|[r c] a p' as' Ha _ IH]; simpl;
      [reflexivity|].
    rewrite (phase1_assignment_loss _ _ _ _ _ _ Ha), IH. reflexivity. }
  exists M, assignments, (Scipy.matching_cost M p), (map fst p), (map snd p).
  rewrite combine_fst_snd.
  split; [exact HM|]. split.
  { unfold Team6.assign_phase1. rewrite HM. cbn [bind].
    rewrite Hlsa, combine_fst_snd, Hass. cbn [bind ret].
    rewrite total_cost_of_matching. reflexivity. }
  split; [exact Hnd1|]. split; [exact Hnd2|].
  split; [rewrite !length_map; reflexivity|].
  split.
  { rewrite length_map, (linear_sum_assignment_length M p Hlsa), Hlen.
    destruct (num_cols_uniform M ncols Hrows) as [->|E];
      [simpl in Hlen; rewrite <- Hlen; reflexivity | rewrite E; reflexivity]. }
  split.
  { apply Forall_forall. intros r Hr. apply in_map_iff in Hr as ([r' c] & <- & Hin).
    apply (Hcols r' c Hin). }
  split.
  { apply Forall_forall. intros c Hc. apply in_map_iff in Hc as ([r c'] & <- & Hin).
    apply (Hcols r c' Hin). }
  split; [exact Hdecode|]. split; [exact Hsum|]. split; [reflexivity|].
  split.
  - intro Hfit.
    assert (Hfst : map fst p = seq 0 (length tasks)).
    { rewrite <- Hlen. apply linear_sum_assignment_rows; [exact Hlsa|].
      destruct (num_cols_uniform M ncols Hrows) as [->|E]; [simpl; lia | lia]. }
    assert (Hlen2 : length (map snd p) = length tasks).
    { rewrite length_map, <- (length_map fst p), Hfst, length_seq. reflexivity. }
    split; [exact Hfst|]. split.
    + split; [exact Hlen2|]. split; [exact Hnd2|].
      apply Forall_forall. intros c Hc.
      apply in_map_iff in Hc as ([r c'] & <- & Hin). apply (Hcols r c' Hin).
    + unfold assignment_cost. rewrite Hlen2, <- Hfst, combine_fst_snd. reflexivity.
  - intros sigma Hf. apply Hopt. eapply feasible_matrix; eassumption.
Qed.

Lemma assign_phase1_optimal_scenario :
  exists cost_matrix assignments total rows cols,
    Team6.phase1_cost_matrix [[2]; [3]] [fit 0 [0] 10; fit 1 [1] 10; fit 2 [4] 1]
      = Normal cost_matrix
    /\ Team6.assign_phase1 [[2]; [3]] [fit 0 [0] 10; fit 1 [1] 10; fit 2 [4] 1]
       = Normal (assignments, total)
    /\ NoDup rows /\ NoDup cols /\ length rows = length cols
    /\ length rows = Nat.min 2 (3 + 3)
    /\ Forall (fun r => (r < 2)%nat) rows
    /\ Forall (fun c => (c < 3 + 3)%nat) cols
    /\ Forall2 (fun rc a =>
                  Team6.phase1_assignment [[2]; [3]]
                    [fit 0 [0] 10; fit 1 [1] 10; fit 2 [4] 1] cost_matrix
                    (fst rc) (snd rc)
                  = Normal a)
               (combine rows cols) assignments
    /\ total = sum (map snd assignments)
    /\ total = Scipy.matching_cost cost_matrix (combine rows cols)
    /\ ((2 <= 3 + 3)%nat ->
        rows = seq 0 2
        /\ feasible 2 (3 + 3) cols
        /\ total = assignment_cost cost_matrix cols)
    /\ forall sigma,
         feasible 2 (3 + 3) sigma -> total <= assignment_cost cost_matrix sigma.
Proof.
  apply (assign_phase1_optimal 1 [[2]; [3]] [fit 0 [0] 10; fit 1 [1] 10; fit 2 [4] 1]).
  - simpl. lia.
  - simpl. lia.
  - repeat constructor.
  - repeat constructor.
Defined.

(** X17: with the matching routine modelled as an exhaustive
    minimum-cost search, the solo assignment of the optimal solver returns
    on every community of one dimension.  Its player-to-task dictionary
    holds [min(tasks, members)] entries with pairwise distinct members and
    pairwise distinct tasks, all valid indices, and its total cost is the
    sum of the matched cells.  When
    there are at least as many members as tasks, every task is assigned
    (the tasks are [0 .. n-1] in order, each to its own member), and the
    total is at most the cost of every assignment of each task to a
    distinct member. *)
Theorem assign_phase2_optimal (d : nat) (ts : list Task) (ms : list Member) :
  Forall (fun m => length (abilities m) = d) ms ->
  Forall (fun t => length t = d) ts ->
  exists cost_matrix assignments total,
    mapM (fun task =>
            mapM (fun member =>
                    Team6.loss_phase2 task (abilities member) (energy member)) ms) ts
      = Normal cost_matrix
    /\ Team6.assign_phase2 ts ms = Normal (assignments, total)
    /\ NoDup (map fst assignments) /\ NoDup (map snd assignments)
    /\ length assignments = Nat.min (length ts) (length ms)
    /\ (forall member_idx task_idx, In (member_idx, task_idx) assignments ->
          (member_idx < length ms)%nat /\ (task_idx < length ts)%nat)
    /\ total = sum (map (fun '(member_idx, task_idx) =>
                           Scipy.cell cost_matrix task_idx member_idx) assignments)
    /\ ((length ts <= length ms)%nat ->
        map snd assignments = seq 0 (length ts)
        /\ feasible (length ts) (length ms) (map fst assignments)
        /\ total = assignment_cost cost_matrix (map fst assignments))
    /\ forall sigma,
         feasible (length ts) (length ms) sigma ->
         total <= assignment_cost cost_matrix sigma.
Proof.
  intros Hm Ht. rewrite Forall_forall in Hm, Ht.
  unfold Team6.assign_phase2.
  destruct (mapM_defined
              (fun task =>
                 mapM (fun member =>
                         Team6.loss_phase2 task (abilities member) (energy member)) ms)
              ts) as (M & HM).
  { intros task Htask. apply mapM_defined. intros m Hin.
    apply loss_phase2_defined. rewrite (Ht task Htask), (Hm m Hin). lia. }
  rewrite HM. cbn [bind].
  assert (Hlen : length M = length ts) by exact (mapM_length _ _ _ HM).
  assert (Hrows : Forall (fun row => length row = length ms) M).
  { eapply mapM_Forall; [exact HM|].
    intros task row _ Hrow. exact (mapM_length _ _ _ Hrow). }
  destruct (linear_sum_assignment_matching M)
    as (p & Hlsa & Hnd1 & Hnd2 & Hrange & Hopt).
  rewrite Hlsa, combine_fst_snd.
  do 3 eexists. split; [reflexivity|]. split; [reflexivity|].
  rewrite !map_map.
  assert (E1 : map (fun x : nat * nat => fst (let '(task, player) := x in (player, task))) p
               = map snd p) by (apply map_ext; intros [? ?]; reflexivity).
  assert (E2 : map (fun x : nat * nat => snd (let '(task, player) := x in (player, task))) p
               = map fst p) by (apply map_ext; intros [? ?]; reflexivity).
  assert (E3 : map (fun x : nat * nat =>
                      let '(member_idx, task_idx) :=
                        let '(task, player) := x in (player, task) in
                      Scipy.cell M task_idx member_idx) p
               = map (fun '(r, c) => Scipy.cell M r c) p)
    by (apply map_ext; intros [? ?]; reflexivity).
  rewrite E1, E2, E3.
  assert (Hcols : forall r c, In (r, c) p -> (r < length ts)%nat /\ (c < length ms)%nat).
  { intros r c Hin. destruct (Hrange r c Hin) as (Hr & Hc).
    split; [lia|]. destruct (num_cols_uniform M (length ms) Hrows) as [->|E];
      [simpl in Hr; lia | lia]. }
  split; [exact Hnd2|]. split; [exact Hnd1|]. split.
  { rewrite length_map, (linear_sum_assignment_length M p Hlsa), Hlen.
    destruct (num_cols_uniform M (length ms) Hrows) as [->|E];
      [simpl in Hlen; rewrite <- Hlen; reflexivity | rewrite E; reflexivity]. }
  split.
  { intros mi ti Hin. apply in_map_iff in Hin as ([r c] & Heq & Hin).
    injection Heq as <- <-. destruct (Hcols r c Hin). split; assumption. }
  split; [rewrite total_cost_of_matching; reflexivity|].
  split.
  - intro Hfit.
    assert (Hfst : map fst p = seq 0 (length ts)).
    { rewrite <- Hlen. apply linear_sum_assignment_rows; [exact Hlsa|].
      destruct (num_cols_uniform M (length ms) Hrows) as [->|E]; [simpl; lia | lia]. }
    assert (Hlen2 : length (map snd p) = length ts).
    { rewrite length_map, <- (length_map fst p), Hfst, length_seq. reflexivity. }
    split; [exact Hfst|]. split.
    + split; [exact Hlen2|]. split; [exact Hnd2|].
      apply Forall_forall. intros c Hc.
      apply in_map_iff in Hc as ([r c'] & <- & Hin). apply (Hcols r c' Hin).
    + rewrite total_cost_of_matching. unfold assignment_cost.
      rewrite Hlen2, <- Hfst, combine_fst_snd. reflexivity.
  - intros sigma Hf. rewrite total_cost_of_matching. apply Hopt.
    eapply feasible_matrix; eassumption.
Qed.

Lemma assign_phase2_optimal_scenario :
  exists cost_matrix assignments total,
    mapM (fun task =>
            mapM (fun member =>
                    Team6.loss_phase2 task (abilities member) (energy member))
                 [fit 0 [0] 10; fit 1 [1] 10; fit 2 [4] 1]) [[2]; [3]]
      = Normal cost_matrix
    /\ Team6.assign_phase2 [[2]; [3]] [fit 0 [0] 10; fit 1 [1] 10; fit 2 [4] 1]
       = Normal (assignments, total)
    /\ NoDup (map fst assignments) /\ NoDup (map snd assignments)
    /\ length assignments = Nat.min 2 3
    /\ (forall member_idx task_idx, In (member_idx, task_idx) assignments ->
          (member_idx < 3)%nat /\ (task_idx < 2)%nat)
    /\ total = sum (map (fun '(member_idx, task_idx) =>
                           Scipy.cell cost_matrix task_idx member_idx) assignments)
    /\ ((2 <= 3)%nat ->
        map snd assignments = seq 0 2
        /\ feasible 2 3 (map fst assignments)
        /\ total = assignment_cost cost_matrix (map fst assignments))
    /\ forall sigma, feasible 2 3 sigma -> total <= assignment_cost cost_matrix sigma.
Proof.
  apply (assign_phase2_optimal 1 [[2]; [3]] [fit 0 [0] 10; fit 1 [1] 10; fit 2 [4] 1]);
    repeat constructor.
Defined.
